(** * Sequence models for NER: HMM and CRF decoding, forward-backward, training

    A shallow embedding of [models.py]: the probabilistic and the feature-based
    sequence scorers, the Viterbi decoders of [HmmNerModel] and [CrfNerModel],
    the beam decoder, [extract_emission_features], [compute_gradient],
    [get_word_index] and [train_hmm_model].

    Conventions.
    - Scores handled by the decoders are Python floats; they are embedded as
      rationals ([Q]) with exact arithmetic, which keeps the decoders
      executable.  Rounding is outside the model.
    - The forward-backward pass and the HMM estimator use [exp] and [log];
      they are embedded over the real numbers ([R]).
    - A Python exception is a value [Raise e] of [result].
    - numpy matrices indexed [tag][position] are kept as lists of columns,
      one column per position. *)

From Stdlib Require Import String Ascii List Arith ZArith QArith Qminmax Bool.
From Stdlib Require Import DecimalString Reals Psatz Sorted.
Import ListNotations.

Close Scope R_scope.
Close Scope Q_scope.
Open Scope nat_scope.
Open Scope list_scope.

Set Implicit Arguments.

(* ------------------------------------------------------------------ *)
(** ** Python results and exceptions *)

(** The exceptions met on the paths embedded here, each with the message the
    interpreter attaches.  [InvalidInput] is the rejection condition of the
    specification; no statement of [models.py] raises it. *)
Inductive exn : Type :=
| ValueError (msg : string)
| IndexError (msg : string)
| TypeError (msg : string)
| InvalidInput.

Inductive result (A : Type) : Type :=
| Ok (a : A)
| Raise (e : exn).

Arguments Ok {A} a.
Arguments Raise {A} e.

Definition bind_result {A B} (r : result A) (k : A -> result B) : result B :=
  match r with
  | Ok a => k a
  | Raise e => Raise e
  end.

Definition negative_dimensions : exn :=
  ValueError "negative dimensions are not allowed".
Definition argmax_of_empty : exn :=
  ValueError "attempt to get argmax of an empty sequence".
Definition reduction_of_empty : exn :=
  ValueError "zero-size array to reduction operation maximum which has no identity".
Definition unpack_of_empty : exn :=
  ValueError "not enough values to unpack (expected 2, got 0)".
Definition tuple_index_out_of_range : exn :=
  IndexError "tuple index out of range".
Definition list_index_out_of_range : exn :=
  IndexError "list index out of range".
Definition string_index_out_of_range : exn :=
  IndexError "string index out of range".
Definition array_index_out_of_bounds : exn :=
  IndexError "index is out of bounds for axis".
Definition none_is_not_a_string : exn :=
  TypeError "unsupported operand type(s) for +: 'NoneType' and 'str'".

(** Python and numpy indexing with a signed index: a negative index counts
    from the end. *)
Definition py_index {A} (l : list A) (i : Z) : option A :=
  if (0 <=? i)%Z then nth_error l (Z.to_nat i)
  else if (- Z.of_nat (length l) <=? i)%Z
       then nth_error l (Z.to_nat (Z.of_nat (length l) + i))
       else None.

(* ------------------------------------------------------------------ *)
(** ** Collaborators that live outside [models.py] *)

(** Modelled from the spec: [utils.Indexer] is not part of the sources at hand.
    The specification describes it as a bijection between strings and the
    dense ids 0..len-1, grown by first appearance.  It is the list of its
    objects in id order. *)
Module Indexer.

Definition t := list string.

Definition empty : t := [].

Definition len (ix : t) : nat := length ix.

Fixpoint position (ix : t) (s : string) (i : nat) : option nat :=
  match ix with
  | [] => None
  | x :: ix' => if String.eqb x s then Some i else position ix' s (S i)
  end.

(** [index_of] answers -1 for an object that has no id. *)
Definition index_of (ix : t) (s : string) : Z :=
  match position ix s 0 with
  | Some i => Z.of_nat i
  | None => (-1)%Z
  end.

Definition contains (ix : t) (s : string) : bool :=
  match position ix s 0 with Some _ => true | None => false end.

(** [get_object] answers [None] for an id that is not in use. *)
Definition get_object (ix : t) (i : nat) : option string := nth_error ix i.

(** [add_and_get_index] registers the object when it is new; the indexer
    after the call comes first. *)
Definition add_and_get_index (ix : t) (s : string) : t * nat :=
  match position ix s 0 with
  | Some i => (ix, i)
  | None => (ix ++ [s], length ix)
  end.

End Indexer.

(** Modelled from the spec: [nerdata.Token] is not part of the sources at hand;
    a token carries its word and its part of speech. *)
Record Token : Type := { word : string; pos : string }.

(** Modelled from the spec: [nerdata.LabeledSentence] is not part of the
    sources at hand.  A labeled sentence pairs every token with its BIO tag
    ([get_bio_tags] gives one tag per token). *)
Definition LabeledSentence := list (Token * string).

Definition tokens (s : LabeledSentence) : list Token := map fst s.
Definition get_bio_tags (s : LabeledSentence) : list string := map snd s.

(** Modelled from the spec: the BIO predicates of [nerdata] are not part of the
    sources at hand.  Tags are "O", "B-X" and "I-X"; the label of a tag is
    what follows its two-character prefix. *)
Definition isB (tag : string) : bool := String.prefix "B-" tag.
Definition isI (tag : string) : bool := String.prefix "I-" tag.
Definition isO (tag : string) : bool := String.eqb tag "O".
Definition get_tag_label (tag : string) : string :=
  String.substring 2 (String.length tag - 2) tag.

(* ------------------------------------------------------------------ *)
(** ** Numbers shared by the scorers *)

(** The feature-based scorer is used with exact rational weights by the
    decoders and with real weights by the forward-backward pass. *)
Class Num (S : Type) : Type := {
  num_of_Z : Z -> S;
  num_add : S -> S -> S
}.

#[export] Instance Num_Q : Num Q := {| num_of_Z := inject_Z; num_add := Qplus |}.
#[export] Instance Num_R : Num R := {| num_of_Z := IZR; num_add := Rplus |}.

(** Modelled from the spec: the weight vector's [score] (in [optimizers]) is
    not part of the sources at hand: the score of a feature list is the sum
    of the weights of its feature ids. *)
Definition weights_score {S} `{Num S} (weights : list S) (feats : list nat) : S :=
  fold_left (fun acc f => num_add acc (nth f weights (num_of_Z 0))) feats (num_of_Z 0).

(* ------------------------------------------------------------------ *)
(** ** Scorers *)

Module ProbabilisticSequenceScorer.

Record t : Type := {
  tag_indexer : Indexer.t;
  word_indexer : Indexer.t;
  init_log_probs : list Q;
  transition_log_probs : list (list Q);   (* [prev][curr] *)
  emission_log_probs : list (list Q)      (* [tag][word] *)
}.

(** numpy raises [IndexError] outside a table.  The tables of a model have
    the shapes [T], [T x T] and [T x V]; under that shape no default below
    is read. *)
Definition table1 (tb : list Q) (i : Z) : Q :=
  match py_index tb i with Some x => x | None => 0%Q end.

Definition table2 (tb : list (list Q)) (i j : Z) : Q :=
  match py_index tb i with Some row => table1 row j | None => 0%Q end.

Definition score_init (sc : t) (sentence_tokens : list Token) (tag_idx : nat) : Q :=
  table1 (init_log_probs sc) (Z.of_nat tag_idx).

Definition score_transition (sc : t) (sentence_tokens : list Token)
    (prev_tag_idx curr_tag_idx : nat) : Q :=
  table2 (transition_log_probs sc) (Z.of_nat prev_tag_idx) (Z.of_nat curr_tag_idx).

Definition score_emission (sc : t) (sentence_tokens : list Token)
    (tag_idx word_posn : nat) : Q :=
  match nth_error sentence_tokens word_posn with
  | Some tok =>
      let word_idx :=
        if Indexer.contains (word_indexer sc) (word tok)
        then Indexer.index_of (word_indexer sc) (word tok)
        else Indexer.index_of (word_indexer sc) "UNK" in
      table2 (emission_log_probs sc) (Z.of_nat tag_idx) word_idx
  | None => 0%Q
  end.

End ProbabilisticSequenceScorer.

Module FeatureBasedSequenceScorer.

Section Scorer.
Context {S : Type} `{Num S}.

Record t : Type := {
  tag_indexer : Indexer.t;
  feature_weights : list S;
  feat_cache : list (list (list nat))   (* [position][tag] *)
}.

(** The decoders and the forward-backward pass call the score functions
    with tag ids below [len tag_indexer], where [get_object] answers a
    tag. *)
Definition tag_of (sc : t) (tag_idx : nat) : string :=
  match Indexer.get_object (tag_indexer sc) tag_idx with
  | Some tag => tag
  | None => EmptyString
  end.

Definition score_init (sc : t) (tag_idx : nat) : S :=
  if isI (tag_of sc tag_idx) then num_of_Z (-1000) else num_of_Z 0.

Definition illegal_transition (prev_tag curr_tag : string) : bool :=
  (isO prev_tag && isI curr_tag)
  || (isB prev_tag && isI curr_tag
      && negb (String.eqb (get_tag_label prev_tag) (get_tag_label curr_tag)))
  || (isI prev_tag && isI curr_tag
      && negb (String.eqb (get_tag_label prev_tag) (get_tag_label curr_tag))).

Definition score_transition (sc : t) (prev_tag_idx curr_tag_idx : nat) : S :=
  let prev_tag := tag_of sc prev_tag_idx in
  let curr_tag := tag_of sc curr_tag_idx in
  if illegal_transition prev_tag curr_tag then num_of_Z (-1000) else num_of_Z 0.

Definition score_emission (sc : t) (tag_idx word_posn : nat) : S :=
  let feats := nth tag_idx (nth word_posn (feat_cache sc) []) [] in
  weights_score (feature_weights sc) feats.

End Scorer.

Arguments t S : clear implicits.

End FeatureBasedSequenceScorer.

(* ------------------------------------------------------------------ *)
(** ** Viterbi decoding

    [HmmNerModel.decode] and [CrfNerModel.decode] run the same statements
    over their potentials; the shared part is [viterbi], over the three
    potentials. *)

Definition Qltb (a b : Q) : bool := negb (Qle_bool b a).

(** [np.argmax]: the index of the first maximum. *)
Fixpoint argmax_from (best_i : nat) (best : Q) (i : nat) (l : list Q) : nat :=
  match l with
  | [] => best_i
  | x :: l' =>
      if Qltb best x then argmax_from i x (S i) l'
      else argmax_from best_i best (S i) l'
  end.

Definition argmax (l : list Q) : nat :=
  match l with
  | [] => 0
  | x :: l' => argmax_from 0 x 1 l'
  end.

Section Viterbi.

Variable num_tags : nat.
Variable score_init : nat -> Q.
Variable score_transition : nat -> nat -> Q.
Variable score_emission : nat -> nat -> Q.

(** [matrix[i][0]] for every tag [i]. *)
Definition first_column : list Q :=
  map (fun i => score_init i + score_emission i 0)%Q (seq 0 num_tags).

Definition tags_for (prev_col : list Q) (current_i : nat) : list Q :=
  map (fun prev_i => nth prev_i prev_col 0 + score_transition prev_i current_i)%Q
      (seq 0 num_tags).

(** [matrix[current_i][token]] for every tag, from the column before. *)
Definition next_column (prev_col : list Q) (token : nat) : list Q :=
  map (fun current_i =>
         let tags_for_i := tags_for prev_col current_i in
         nth (argmax tags_for_i) tags_for_i 0 + score_emission current_i token)%Q
      (seq 0 num_tags).

(** [prev[current_i, token-1]] for every tag. *)
Definition back_column (prev_col : list Q) : list nat :=
  map (fun current_i => argmax (tags_for prev_col current_i)) (seq 0 num_tags).

(** The loop over the tokens after the first: [col] is the column of
    [token - 1], [n] the number of tokens left, [prev] the backpointer
    columns filled so far, the latest first. *)
Fixpoint forward (col : list Q) (token n : nat) (prev : list (list nat))
  : list Q * list (list nat) :=
  match n with
  | 0 => (col, prev)
  | S n' => forward (next_column col token) (S token) n' (back_column col :: prev)
  end.

(** The back pass: [best_indices[1..]], before the flip. *)
Fixpoint backtrack (last_state : nat) (prev : list (list nat)) : list nat :=
  match prev with
  | [] => []
  | bp :: prev' =>
      let p := nth last_state bp 0 in
      p :: backtrack p prev'
  end.

Definition viterbi (num_tokens : nat) : result (list nat) :=
  match num_tokens with
  | 0 => Raise negative_dimensions          (* np.zeros((num_tags, -1)) *)
  | S n =>
      let '(last_col, prev) := forward first_column 1 n [] in
      match num_tags with
      | 0 => Raise argmax_of_empty          (* np.argmax(matrix, 0) *)
      | _ =>
          let last_state := argmax last_col in
          Ok (rev (last_state :: backtrack last_state prev))
      end
  end.

End Viterbi.

Module HmmNerModel.

(** The tables hold rationals where the model is decoded, and reals where
    it comes out of [train_hmm_model], whose entries are logarithms. *)
Record t (S : Type) : Type := {
  tag_indexer : Indexer.t;
  word_indexer : Indexer.t;
  init_log_probs : list S;
  transition_log_probs : list (list S);
  emission_log_probs : list (list S)
}.

(** The word index [decode] computes for a token. *)
Definition word_index (m : t Q) (tok : Token) : Z :=
  let word_index := Indexer.index_of (word_indexer m) (word tok) in
  if (word_index =? -1)%Z then Indexer.index_of (word_indexer m) "UNK"
  else word_index.

Definition best_indices (m : t Q) (sentence_tokens : list Token) : result (list nat) :=
  viterbi (length (init_log_probs m))
    (fun i => ProbabilisticSequenceScorer.table1 (init_log_probs m) (Z.of_nat i))
    (fun prev_i current_i =>
       ProbabilisticSequenceScorer.table2 (transition_log_probs m)
         (Z.of_nat prev_i) (Z.of_nat current_i))
    (fun i token =>
       match nth_error sentence_tokens token with
       | Some tok =>
           ProbabilisticSequenceScorer.table2 (emission_log_probs m)
             (Z.of_nat i) (word_index m tok)
       | None => 0%Q
       end)
    (length sentence_tokens).

(** The predicted tags handed to [LabeledSentence]; the conversion of the
    tags to chunks is left to [nerdata]. *)
Definition decode (m : t Q) (sentence_tokens : list Token) : result (list (option string)) :=
  bind_result (best_indices m sentence_tokens)
    (fun idxs => Ok (map (Indexer.get_object (tag_indexer m)) idxs)).

Definition scorer (m : t Q) : ProbabilisticSequenceScorer.t :=
  {| ProbabilisticSequenceScorer.tag_indexer := tag_indexer m;
     ProbabilisticSequenceScorer.word_indexer := word_indexer m;
     ProbabilisticSequenceScorer.init_log_probs := init_log_probs m;
     ProbabilisticSequenceScorer.transition_log_probs := transition_log_probs m;
     ProbabilisticSequenceScorer.emission_log_probs := emission_log_probs m |}.

(** The shapes the class docstring gives the tables: [T], [T x T] and
    [T x V], with the unknown-word sentinel in the vocabulary. *)
Definition well_shaped (m : t Q) : bool :=
  let T := length (init_log_probs m) in
  let V := Indexer.len (word_indexer m) in
  (length (transition_log_probs m) =? T)
  && forallb (fun row => length row =? T) (transition_log_probs m)
  && (length (emission_log_probs m) =? T)
  && forallb (fun row => length row =? V) (emission_log_probs m)
  && Indexer.contains (word_indexer m) "UNK".

End HmmNerModel.

(* ------------------------------------------------------------------ *)
(** ** Feature extraction

    [extract_emission_features] receives the feature indexer and may grow
    it; a computation over the indexer returns the indexer it leaves behind,
    also when it raises. *)

Definition IxM (A : Type) : Type := Indexer.t -> Indexer.t * result A.

Definition ix_ret {A} (a : A) : IxM A := fun ix => (ix, Ok a).

Definition ix_raise {A} (e : exn) : IxM A := fun ix => (ix, Raise e).

Definition ix_bind {A B} (c : IxM A) (k : A -> IxM B) : IxM B :=
  fun ix =>
    match c ix with
    | (ix', Ok a) => k a ix'
    | (ix', Raise e) => (ix', Raise e)
    end.

Notation "x <- c ;; k" := (ix_bind c (fun x => k))
  (at level 61, c at next level, right associativity).

Fixpoint ix_map {A B} (f : A -> IxM B) (l : list A) : IxM (list B) :=
  match l with
  | [] => ix_ret []
  | a :: l' => b <- f a ;; bs <- ix_map f l' ;; ix_ret (b :: bs)
  end.

Fixpoint ix_fold {A B} (f : B -> A -> IxM B) (l : list A) (b : B) : IxM B :=
  match l with
  | [] => ix_ret b
  | a :: l' => b' <- f b a ;; ix_fold f l' b'
  end.

(** Modelled from the spec: [utils.maybe_add_feature] is not part of the
    sources at hand.  In training mode the feature string is registered and
    its id appended; in inference mode an unseen feature string is skipped. *)
Definition maybe_add_feature (feats : list nat) (add_to_indexer : bool)
    (feat : string) : IxM (list nat) :=
  fun feature_indexer =>
    if add_to_indexer then
      let '(ix', i) := Indexer.add_and_get_index feature_indexer feat in
      (ix', Ok (feats ++ [i]))
    else
      let feat_idx := Indexer.index_of feature_indexer feat in
      if (feat_idx =? -1)%Z then (feature_indexer, Ok feats)
      else (feature_indexer, Ok (feats ++ [Z.to_nat feat_idx])).

(** [repr] of an int, of a bool, and of a list of one-character strings. *)
Definition repr_int (z : Z) : string := DecimalString.NilZero.string_of_int (Z.to_int z).

Definition repr_bool (b : bool) : string := if b then "True" else "False".

Definition repr_char (c : ascii) : string :=
  String "'" (String c (String "'" EmptyString)).

Fixpoint repr_chars_tail (l : list ascii) : string :=
  match l with
  | [] => "]"
  | c :: l' => ", " ++ repr_char c ++ repr_chars_tail l'
  end.

Definition repr_chars (l : list ascii) : string :=
  match l with
  | [] => "[]"
  | c :: l' => "[" ++ repr_char c ++ repr_chars_tail l'
  end.

(** Character classes, on ASCII letters and digits. *)
Definition isupper (c : ascii) : bool :=
  let n := nat_of_ascii c in (65 <=? n) && (n <=? 90).
Definition islower (c : ascii) : bool :=
  let n := nat_of_ascii c in (97 <=? n) && (n <=? 122).
Definition isdigit (c : ascii) : bool :=
  let n := nat_of_ascii c in (48 <=? n) && (n <=? 57).

Definition word_shape (curr_word : string) : list ascii :=
  map (fun c =>
         if isupper c then "X"%char
         else if islower c then "x"%char
         else if isdigit c then "0"%char
         else "?"%char)
      (list_ascii_of_string curr_word).

(** The word, or the part of speech, at [word_index + idx_offset], with the
    sentence-boundary markers outside the sentence. *)
Definition active (sentence_tokens : list Token) (word_index : nat) (idx_offset : Z)
    (field : Token -> string) (before after : string) : string :=
  let k := (Z.of_nat word_index + idx_offset)%Z in
  if (k <? 0)%Z then before
  else if (Z.of_nat (length sentence_tokens) <=? k)%Z then after
  else match nth_error sentence_tokens (Z.to_nat k) with
       | Some tok => field tok
       | None => after
       end.

Definition extract_emission_features (sentence_tokens : list Token) (word_index : nat)
    (tag : string) (add_to_indexer : bool) : IxM (list nat) :=
  match nth_error sentence_tokens word_index with
  | None => ix_raise list_index_out_of_range
  | Some tok =>
      let curr_word := word tok in
      let feats := [] in
      (* Lexical and POS features on this word, the previous, and the next *)
      feats <- ix_fold (fun feats idx_offset =>
                 let active_word := active sentence_tokens word_index idx_offset word "<s>" "</s>" in
                 let active_pos := active sentence_tokens word_index idx_offset pos "<S>" "</S>" in
                 feats <- maybe_add_feature feats add_to_indexer
                            (tag ++ ":Word" ++ repr_int idx_offset ++ "=" ++ active_word) ;;
                 maybe_add_feature feats add_to_indexer
                            (tag ++ ":Pos" ++ repr_int idx_offset ++ "=" ++ active_pos))
               [(-1)%Z; 0%Z; 1%Z] feats ;;
      (* Character n-grams of the current word *)
      feats <- ix_fold (fun feats ngram_size =>
                 let len := String.length curr_word in
                 let start_ngram := String.substring 0 (Nat.min ngram_size len) curr_word in
                 feats <- maybe_add_feature feats add_to_indexer
                            (tag ++ ":StartNgram=" ++ start_ngram) ;;
                 let end_ngram :=
                   String.substring (len - ngram_size) (len - (len - ngram_size)) curr_word in
                 maybe_add_feature feats add_to_indexer (tag ++ ":EndNgram=" ++ end_ngram))
               [1; 2; 3] feats ;;
      (* Word shape features *)
      match curr_word with
      | EmptyString => ix_raise string_index_out_of_range    (* curr_word[0] *)
      | String c0 _ =>
          feats <- maybe_add_feature feats add_to_indexer
                     (tag ++ ":IsCap=" ++ repr_bool (isupper c0)) ;;
          maybe_add_feature feats add_to_indexer
                     (tag ++ ":WordShape=" ++ repr_chars (word_shape curr_word))
      end
  end.

(** The feature cache of one sentence, [position][tag], as the decoders fill
    it. *)
Definition build_feature_cache (tag_indexer : Indexer.t) (sentence_tokens : list Token)
    (add_to_indexer : bool) : IxM (list (list (list nat))) :=
  ix_map (fun word_idx =>
            ix_map (fun tag_idx =>
                      match Indexer.get_object tag_indexer tag_idx with
                      | Some tag =>
                          extract_emission_features sentence_tokens word_idx tag add_to_indexer
                      | None => ix_raise none_is_not_a_string
                      end)
                   (seq 0 (Indexer.len tag_indexer)))
         (seq 0 (length sentence_tokens)).

(* ------------------------------------------------------------------ *)
(** ** Beam *)

(** Modelled from the spec: [utils.Beam] is not part of the sources at hand.
    The specification describes a bounded collection of the k highest-scoring
    hypotheses with their scores, ties resolved in favour of the hypothesis
    seen first.  The beam is kept best first. *)
Module Beam.

Section Elt.
Variable A : Type.

Record t : Type := { size : nat; elts : list (A * Q) }.

Definition new (size : nat) : t := {| size := size; elts := [] |}.

Fixpoint insert (elt : A) (score : Q) (l : list (A * Q)) : list (A * Q) :=
  match l with
  | [] => [(elt, score)]
  | (e, s) :: l' =>
      if Qltb s score then (elt, score) :: l
      else (e, s) :: insert elt score l'
  end.

Definition add (b : t) (elt : A) (score : Q) : t :=
  {| size := size b; elts := firstn (size b) (insert elt score (elts b)) |}.

Definition get_elts_and_scores (b : t) : list (A * Q) := elts b.

Definition head (b : t) : result A :=
  match elts b with
  | [] => Raise list_index_out_of_range
  | (e, _) :: _ => Ok e
  end.

End Elt.

Arguments new {A} size.

End Beam.

(* ------------------------------------------------------------------ *)
(** ** The CRF model and its decoders *)

Module CrfNerModel.

Record t : Type := {
  tag_indexer : Indexer.t;
  feature_indexer : Indexer.t;
  feature_weights : list Q
}.

Definition with_feature_indexer (m : t) (ix : Indexer.t) : t :=
  {| tag_indexer := tag_indexer m;
     feature_indexer := ix;
     feature_weights := feature_weights m |}.

Definition scorer (m : t) (feature_cache : list (list (list nat)))
  : FeatureBasedSequenceScorer.t Q :=
  {| FeatureBasedSequenceScorer.tag_indexer := tag_indexer m;
     FeatureBasedSequenceScorer.feature_weights := feature_weights m;
     FeatureBasedSequenceScorer.feat_cache := feature_cache |}.

Definition pred_tags (m : t) (idxs : list nat) : list (option string) :=
  map (Indexer.get_object (tag_indexer m)) idxs.

(** The Viterbi pass of [decode] over a filled feature cache. *)
Definition best_indices (m : t) (feature_cache : list (list (list nat)))
    (sentence_tokens : list Token) : result (list nat) :=
  let scorer := scorer m feature_cache in
  viterbi (Indexer.len (tag_indexer m))
    (FeatureBasedSequenceScorer.score_init scorer)
    (FeatureBasedSequenceScorer.score_transition scorer)
    (FeatureBasedSequenceScorer.score_emission scorer)
    (length sentence_tokens).

(** [decode] returns the model as the call leaves it, and the predicted
    tags handed to [LabeledSentence]. *)
Definition decode (m : t) (sentence_tokens : list Token)
  : t * result (list (option string)) :=
  let '(ix', cache) :=
    build_feature_cache (tag_indexer m) sentence_tokens false (feature_indexer m) in
  (with_feature_indexer m ix',
   bind_result cache (fun feature_cache =>
   bind_result (best_indices m feature_cache sentence_tokens) (fun idxs =>
   Ok (pred_tags m idxs)))).

Definition beam_size : nat := 9.

(** The two [Beam] objects of [decode_beam].  The name [next_beam] denotes
    the second object throughout; [current_beam] denotes the first until
    the assignment [current_beam = next_beam], and the second from then
    on. *)
Inductive beam_ref : Type := FirstBeam | SecondBeam.

Record beams : Type := {
  first_beam : Beam.t (list nat);
  second_beam : Beam.t (list nat);
  current_beam : beam_ref
}.

Definition current (st : beams) : Beam.t (list nat) :=
  match current_beam st with
  | FirstBeam => first_beam st
  | SecondBeam => second_beam st
  end.

Section BeamSearch.

Variable num_tags : nat.
Variable score_init : nat -> Q.
Variable score_transition : nat -> nat -> Q.
Variable score_emission : nat -> nat -> Q.

Definition init_beam : Beam.t (list nat) :=
  fold_left (fun b i => Beam.add b [i] (score_init i + score_emission i 0)%Q)
            (seq 0 num_tags) (Beam.new beam_size).

(** The two inner loops of one expansion, adding to [next_beam]. *)
Definition extend_hypothesis (tags : list (list nat)) (scores : list Q) (token : nat)
    (next_beam : Beam.t (list nat)) (i : nat) : result (Beam.t (list nat)) :=
  fold_left (fun acc current_i =>
               bind_result acc (fun next_beam =>
               match nth_error tags i, nth_error scores i with
               | Some tags_i, Some scores_i =>
                   let hyp := tags_i ++ [current_i] in
                   Ok (Beam.add next_beam hyp
                         (scores_i + score_transition (last tags_i 0%nat) current_i
                          + score_emission current_i token)%Q)
               | _, _ => Raise tuple_index_out_of_range
               end))
            (seq 0 num_tags) (Ok next_beam).

Definition expand (st : beams) (token : nat) : result beams :=
  match Beam.get_elts_and_scores (current st) with
  | [] => Raise unpack_of_empty           (* tags, scores = zip( *[] ) *)
  | elts_and_scores =>
      let tags := map fst elts_and_scores in
      let scores := map snd elts_and_scores in
      bind_result
        (fold_left (fun acc i =>
                      bind_result acc (fun next_beam =>
                      extend_hypothesis tags scores token next_beam i))
                   (seq 0 beam_size) (Ok (second_beam st)))
        (fun next_beam =>
           Ok {| first_beam := first_beam st;
                 second_beam := next_beam;
                 current_beam := SecondBeam |})
  end.

Definition beam_search (num_words : nat) : result (list nat) :=
  match num_words, num_tags with
  | 0, S _ => Raise list_index_out_of_range    (* feat_cache[0] in score_emission *)
  | _, _ =>
      let st0 := {| first_beam := init_beam;
                    second_beam := Beam.new beam_size;
                    current_beam := FirstBeam |} in
      bind_result
        (fold_left (fun acc token => bind_result acc (fun st => expand st token))
                   (seq 1 (num_words - 1)) (Ok st0))
        (fun st => Beam.head (current st))
  end.

End BeamSearch.

Definition decode_beam (m : t) (sentence_tokens : list Token)
  : t * result (list (option string)) :=
  let '(ix', cache) :=
    build_feature_cache (tag_indexer m) sentence_tokens false (feature_indexer m) in
  (with_feature_indexer m ix',
   bind_result cache (fun feature_cache =>
   let scorer := scorer m feature_cache in
   bind_result
     (beam_search (Indexer.len (tag_indexer m))
        (FeatureBasedSequenceScorer.score_init scorer)
        (FeatureBasedSequenceScorer.score_transition scorer)
        (FeatureBasedSequenceScorer.score_emission scorer)
        (length sentence_tokens))
     (fun last_state => Ok (pred_tags m last_state)))).

End CrfNerModel.

(* ------------------------------------------------------------------ *)
(** ** Forward-backward and the gradient *)

Definition sum_R (l : list R) : R := fold_right Rplus 0%R l.

(** [scipy.special.logsumexp] of a non-empty vector: the maximum is taken
    out before the exponentials are summed. *)
Definition logsumexp (a : list R) : R :=
  match a with
  | [] => 0%R
  | x :: a' =>
      let a_max := fold_left Rmax a' x in
      (ln (sum_R (map (fun v => exp (v - a_max)) a)) + a_max)%R
  end.

(** A Python dict from feature ids to numbers, in insertion order; a
    [Counter] answers 0 for a key it does not hold. *)
Definition counter := list (nat * R).

Fixpoint counter_add (d : counter) (k : nat) (v : R) : counter :=
  match d with
  | [] => [(k, v)]
  | (k', v') :: d' =>
      if k =? k' then (k', (v' + v)%R) :: d'
      else (k', v') :: counter_add d' k v
  end.

Fixpoint counter_get (d : counter) (k : nat) : R :=
  match d with
  | [] => 0%R
  | (k', v') :: d' => if k =? k' then v' else counter_get d' k
  end.

(** [Counter(iterable)] and [Counter.subtract]. *)
Definition counter_of_list (l : list nat) : counter :=
  fold_left (fun d k => counter_add d k 1%R) l [].

Definition counter_subtract (d other : counter) : counter :=
  fold_left (fun d kv => counter_add d (fst kv) (- snd kv)%R) other d.

Section ForwardBackward.

Variable num_tags : nat.
Variable score_transition : nat -> nat -> R.
Variable score_emission : nat -> nat -> R.

(** [alpha_matrix[i][0]] for every tag [i]. *)
Definition alpha_first : list R :=
  map (fun i => score_emission i 0) (seq 0 num_tags).

Definition alpha_next (prev_col : list R) (idx : nat) : list R :=
  map (fun current_i =>
         let tags_for_i :=
           map (fun prev_i =>
                  (nth prev_i prev_col 0 + score_transition prev_i current_i
                   + score_emission current_i idx)%R)
               (seq 0 num_tags) in
         logsumexp tags_for_i)
      (seq 0 num_tags).

(** The forward loop from position [idx] on, [n] positions left; [col] is
    the column of [idx - 1]. *)
Fixpoint forward_pass (col : list R) (idx n : nat) : list (list R) :=
  match n with
  | 0 => []
  | S n' =>
      let col' := alpha_next col idx in
      col' :: forward_pass col' (S idx) n'
  end.

Definition alpha_matrix (num_words : nat) : list (list R) :=
  alpha_first :: forward_pass alpha_first 1 (num_words - 1).

(** [beta_matrix[i][num_words-1]] for every tag [i]. *)
Definition beta_last : list R := map (fun _ => 0%R) (seq 0 num_tags).

Definition beta_prev (next_col : list R) (idx : nat) : list R :=
  map (fun current_i =>
         logsumexp
           (map (fun next_i =>
                   (nth next_i next_col 0 + score_transition current_i next_i
                    + score_emission next_i (idx + 1))%R)
                (seq 0 num_tags)))
      (seq 0 num_tags).

(** The backward loop: [col] is the column of position [n], the columns
    of the positions from [n] on are in [acc]. *)
Fixpoint backward_pass (col : list R) (n : nat) (acc : list (list R))
  : list (list R) :=
  match n with
  | 0 => acc
  | S idx =>
      let col' := beta_prev col idx in
      backward_pass col' idx (col' :: acc)
  end.

Definition beta_matrix (num_words : nat) : list (list R) :=
  backward_pass beta_last (num_words - 1) [beta_last].

Definition at_ (matrix : list (list R)) (tag idx : nat) : R :=
  nth tag (nth idx matrix []) 0%R.

(** [logsumexp(np.add(alpha_matrix, beta_matrix), 0)]. *)
Definition denominators (num_words : nat) : list R :=
  map (fun idx =>
         logsumexp
           (map (fun tag =>
                   (at_ (alpha_matrix num_words) tag idx
                    + at_ (beta_matrix num_words) tag idx)%R)
                (seq 0 num_tags)))
      (seq 0 num_words).

Definition marginal (num_words tag_idx word_idx : nat) : R :=
  exp (at_ (alpha_matrix num_words) tag_idx word_idx
       + at_ (beta_matrix num_words) tag_idx word_idx
       - nth word_idx (denominators num_words) 0)%R.

End ForwardBackward.

Definition compute_gradient (sentence : LabeledSentence) (tag_indexer : Indexer.t)
    (scorer : FeatureBasedSequenceScorer.t R) : result (R * counter) :=
  let num_tags := Indexer.len tag_indexer in
  let num_words := length sentence in
  let score_transition := FeatureBasedSequenceScorer.score_transition scorer in
  let score_emission := FeatureBasedSequenceScorer.score_emission scorer in
  let feat_cache := FeatureBasedSequenceScorer.feat_cache scorer in
  match num_tags, num_words with
  | 0, _ => Raise reduction_of_empty            (* logsumexp over no tag *)
  | S _, 0 => Raise list_index_out_of_range     (* feat_cache[0] in score_emission *)
  | S _, S _ =>
      let gold_feats word_idx :=
        py_index (nth word_idx feat_cache [])
                 (Indexer.index_of tag_indexer (nth word_idx (get_bio_tags sentence) EmptyString)) in
      (* calculate gold and expected emission features *)
      bind_result
        (fold_left
           (fun acc word_idx =>
              bind_result acc (fun '(full_feat, features) =>
              match gold_feats word_idx with
              | None => Raise list_index_out_of_range
              | Some gold =>
                  let full_feat := full_feat ++ gold in
                  let features :=
                    fold_left
                      (fun features tag_idx =>
                         fold_left
                           (fun features feature =>
                              counter_add features feature
                                (marginal num_tags score_transition score_emission
                                          num_words tag_idx word_idx))
                           (nth tag_idx (nth word_idx feat_cache []) [])
                           features)
                      (seq 0 num_tags) features in
                  Ok (full_feat, features)
              end))
           (seq 0 num_words) (Ok ([], [])))
        (fun '(full_feat, features) =>
           bind_result
             (fold_right
                (fun i acc =>
                   bind_result acc (fun scores =>
                   match gold_feats i with
                   | None => Raise list_index_out_of_range
                   | Some gold =>
                       Ok (weights_score (FeatureBasedSequenceScorer.feature_weights scorer) gold
                           :: scores)
                   end))
                (Ok []) (seq 0 num_words))
             (fun scores =>
                let probs := logsumexp scores in
                let marginal := features in
                let gold := counter_of_list full_feat in
                Ok (probs, counter_subtract gold marginal)))
  end.

(* ------------------------------------------------------------------ *)
(** ** The HMM estimator *)

(** The word counter holds counts that grow by 1.0; they are kept as
    naturals, and the comparison with 1.5 is made on the doubled count. *)
Definition word_counter := list (string * nat).

Fixpoint word_count (c : word_counter) (w : string) : nat :=
  match c with
  | [] => 0
  | (w', n) :: c' => if String.eqb w w' then n else word_count c' w
  end.

Fixpoint word_counter_incr (c : word_counter) (w : string) : word_counter :=
  match c with
  | [] => [(w, 1)]
  | (w', n) :: c' =>
      if String.eqb w w' then (w', S n) :: c' else (w', n) :: word_counter_incr c' w
  end.

Definition get_word_index (word_indexer : Indexer.t) (word_counter : word_counter)
    (word : string) : Indexer.t * nat :=
  if 2 * word_count word_counter word <? 3              (* word_counter[word] < 1.5 *)
  then Indexer.add_and_get_index word_indexer "UNK"
  else Indexer.add_and_get_index word_indexer word.

(** [a[i] += 1.0] and [a[i][j] += 1.0] on count arrays. *)
Fixpoint incr1 (a : list R) (i : nat) : result (list R) :=
  match a, i with
  | [], _ => Raise array_index_out_of_bounds
  | x :: a', 0 => Ok ((x + 1)%R :: a')
  | x :: a', S i' => bind_result (incr1 a' i') (fun r => Ok (x :: r))
  end.

Fixpoint incr2 (a : list (list R)) (i j : nat) : result (list (list R)) :=
  match a, i with
  | [], _ => Raise array_index_out_of_bounds
  | row :: a', 0 => bind_result (incr1 row j) (fun r => Ok (r :: a'))
  | row :: a', S i' => bind_result (incr2 a' i' j) (fun r => Ok (row :: r))
  end.

(** [a / a.sum()] followed by [np.log], for one row. *)
Definition log_normalize (row : list R) : list R :=
  map (fun c => ln (c / sum_R row)) row.

Record hmm_counts : Type := {
  c_tag_indexer : Indexer.t;
  c_word_indexer : Indexer.t;
  init_counts : list R;
  transition_counts : list (list R);
  emission_counts : list (list R)
}.

Section TrainHmm.

Variable sentences : list LabeledSentence.

Definition count_words : word_counter :=
  fold_left (fun c sentence =>
               fold_left (fun c token => word_counter_incr c (word token))
                         (tokens sentence) c)
            sentences [].

(** The indexing loop: the two indexers after it. *)
Definition index_corpus (word_counter : word_counter) : Indexer.t * Indexer.t :=
  fold_left (fun '(tag_indexer, word_indexer) sentence =>
               let word_indexer :=
                 fold_left (fun ix token => fst (get_word_index ix word_counter (word token)))
                           (tokens sentence) word_indexer in
               let tag_indexer :=
                 fold_left (fun ix tag => fst (Indexer.add_and_get_index ix tag))
                           (get_bio_tags sentence) tag_indexer in
               (tag_indexer, word_indexer))
            sentences
            (Indexer.empty, fst (Indexer.add_and_get_index Indexer.empty "UNK")).

(** One step of the counting loop: [prev] is [None] at [i == 0] and the
    tag of position [i - 1] after it. *)
Definition count_token (word_counter : word_counter) (st : hmm_counts)
    (prev : option string) (token : Token) (tag : string) : result hmm_counts :=
  let '(tag_indexer, tag_idx) := Indexer.add_and_get_index (c_tag_indexer st) tag in
  let '(word_indexer, word_idx) :=
    get_word_index (c_word_indexer st) word_counter (word token) in
  bind_result (incr2 (emission_counts st) tag_idx word_idx) (fun emission_counts =>
  match prev with
  | None =>
      bind_result (incr1 (init_counts st) tag_idx) (fun init_counts =>
      Ok {| c_tag_indexer := tag_indexer; c_word_indexer := word_indexer;
            init_counts := init_counts;
            transition_counts := transition_counts st;
            emission_counts := emission_counts |})
  | Some prev_tag =>
      let '(tag_indexer, prev_idx) := Indexer.add_and_get_index tag_indexer prev_tag in
      bind_result (incr2 (transition_counts st) prev_idx tag_idx) (fun transition_counts =>
      Ok {| c_tag_indexer := tag_indexer; c_word_indexer := word_indexer;
            init_counts := init_counts st;
            transition_counts := transition_counts;
            emission_counts := emission_counts |})
  end).

Fixpoint count_sentence (word_counter : word_counter) (st : hmm_counts)
    (prev : option string) (sentence : LabeledSentence) : result hmm_counts :=
  match sentence with
  | [] => Ok st
  | (token, tag) :: rest =>
      bind_result (count_token word_counter st prev token tag) (fun st' =>
      count_sentence word_counter st' (Some tag) rest)
  end.

Definition count_corpus (word_counter : word_counter) (st : hmm_counts)
  : result hmm_counts :=
  fold_left (fun acc sentence =>
               bind_result acc (fun st => count_sentence word_counter st None sentence))
            sentences (Ok st).

Definition smoothing : R := (1 / 1000)%R.

Definition train_hmm_model (silent : bool) : result (HmmNerModel.t R) :=
  let word_counter := count_words in
  let '(tag_indexer, word_indexer) := index_corpus word_counter in
  let num_tags := Indexer.len tag_indexer in
  let num_words := Indexer.len word_indexer in
  let st0 :=
    {| c_tag_indexer := tag_indexer; c_word_indexer := word_indexer;
       init_counts := repeat smoothing num_tags;
       transition_counts := repeat (repeat smoothing num_tags) num_tags;
       emission_counts := repeat (repeat smoothing num_words) num_tags |} in
  bind_result (count_corpus word_counter st0) (fun st =>
  let model word_indexer :=
    {| HmmNerModel.tag_indexer := c_tag_indexer st;
       HmmNerModel.word_indexer := word_indexer;
       HmmNerModel.init_log_probs := log_normalize (init_counts st);
       HmmNerModel.transition_log_probs := map log_normalize (transition_counts st);
       HmmNerModel.emission_log_probs := map log_normalize (emission_counts st) |} in
  if silent then Ok (model (c_word_indexer st))
  else
    (* the diagnostic prints read the emission columns of two words *)
    let '(word_indexer, india) := Indexer.add_and_get_index (c_word_indexer st) "India" in
    if india <? num_words then
      let '(word_indexer, phil) := Indexer.add_and_get_index word_indexer "Phil" in
      if phil <? num_words then Ok (model word_indexer)
      else Raise array_index_out_of_bounds
    else Raise array_index_out_of_bounds).

End TrainHmm.

(* ------------------------------------------------------------------ *)
(** ** Notions used by the statements *)

Section PathScore.

Variable score_init : nat -> Q.
Variable score_transition : nat -> nat -> Q.
Variable score_emission : nat -> nat -> Q.

(** The score of the tags from position [i] on, after the tag [prev]. *)
Fixpoint chain_score (prev i : nat) (path : list nat) : Q :=
  match path with
  | [] => 0%Q
  | t :: rest =>
      (score_transition prev t + score_emission t i + chain_score t (S i) rest)%Q
  end.

(** The score of a tag sequence: the initial score of the first tag, the
    emission score of every tag at its position, and the transition score
    of every adjacent pair. *)
Definition path_score (path : list nat) : Q :=
  match path with
  | [] => 0%Q
  | t0 :: rest => (score_init t0 + score_emission t0 0 + chain_score t0 1 rest)%Q
  end.

(** The same score, read off a sequence written last tag first. *)
Fixpoint rscore (r : list nat) : Q :=
  match r with
  | [] => 0%Q
  | t :: r' =>
      match r' with
      | [] => (score_init t + score_emission t 0)%Q
      | p :: _ => (rscore r' + score_transition p t + score_emission t (length r'))%Q
      end
  end.

End PathScore.

(** All sequences of [n] tags below [T], in lexicographic order: the first
    position varies slowest, as nested loops over the positions enumerate
    them. *)
Fixpoint all_paths (T n : nat) : list (list nat) :=
  match n with
  | 0 => [[]]
  | S n' => flat_map (fun t => map (cons t) (all_paths T n')) (seq 0 T)
  end.

(** The same sequences, enumerated with the last position varying slowest. *)
Definition all_paths_last_major (T n : nat) : list (list nat) :=
  map (@rev nat) (all_paths T n).

(** Brute-force maximisation: the first sequence of the enumeration whose
    score no later sequence exceeds. *)
Fixpoint first_max_from {A} (score : A -> Q) (best : A) (l : list A) : A :=
  match l with
  | [] => best
  | p :: l' =>
      if Qltb (score best) (score p) then first_max_from score p l'
      else first_max_from score best l'
  end.

Definition first_max {A} (score : A -> Q) (l : list A) : option A :=
  match l with
  | [] => None
  | p :: l' => Some (first_max_from score p l')
  end.

(** Lexicographic order on tag sequences. *)
Inductive lex_lt : list nat -> list nat -> Prop :=
| lex_head a b l l' : a < b -> lex_lt (a :: l) (b :: l')
| lex_tail a l l' : lex_lt l l' -> lex_lt (a :: l) (a :: l').

Definition below (T : nat) (path : list nat) : Prop := Forall (fun t => t < T) path.

Section Trellis.

Variable num_tags : nat.
Variable score_init : nat -> Q.
Variable score_transition : nat -> nat -> Q.
Variable score_emission : nat -> nat -> Q.

(** The column of the score matrix at position [i]. *)
Fixpoint column (i : nat) : list Q :=
  match i with
  | 0 => first_column num_tags score_init score_emission
  | S i' => next_column num_tags score_transition score_emission (column i') i
  end.

Definition best (i t : nat) : Q := nth t (column i) 0%Q.

(** The path the backpointers give from tag [t] at position [i], last tag
    first. *)
Fixpoint rpath (i t : nat) : list nat :=
  match i with
  | 0 => [t]
  | S i' => t :: rpath i' (argmax (tags_for num_tags score_transition (column i') t))
  end.

(** The backpointer path from the first maximum of the last column. *)
Definition viterbi_path (N : nat) : list nat :=
  rev (rpath (N - 1) (argmax (column (N - 1)))).

End Trellis.

(** A computation that leaves the indexer as it found it. *)
Definition preserves {A} (c : IxM A) : Prop := forall ix, fst (c ix) = ix.

(** A computation that moreover returns. *)
Definition returns {A} (c : IxM A) : Prop := forall ix, exists a, c ix = (ix, Ok a).

(** The words of a sentence are all non-empty. *)
Definition nonempty_words (sentence_tokens : list Token) : bool :=
  forallb (fun tok => negb (String.eqb (word tok) EmptyString)) sentence_tokens.

(** A tag sequence of the right length over the tag ids that no other such
    sequence outscores. *)
Definition maximises (T N : nat) (score : list nat -> Q) (path : list nat) : Prop :=
  length path = N /\ below T path
  /\ forall q, length q = N -> below T q -> (score q <= score path)%Q.

(** Brute-force enumeration with first-seen tie-breaking, in the two
    enumeration orders. *)
Definition brute_force (T N : nat) (score : list nat -> Q) : option (list nat) :=
  first_max score (all_paths T N).

Definition brute_force_last_major (T N : nat) (score : list nat -> Q) : option (list nat) :=
  first_max score (all_paths_last_major T N).

(** The path score under the scorer of an HMM, and under the feature-based
    scorer of a CRF over a feature cache. *)
Definition hmm_path_score (m : HmmNerModel.t Q) (sentence_tokens : list Token)
  : list nat -> Q :=
  let sc := HmmNerModel.scorer m in
  path_score (ProbabilisticSequenceScorer.score_init sc sentence_tokens)
             (ProbabilisticSequenceScorer.score_transition sc sentence_tokens)
             (ProbabilisticSequenceScorer.score_emission sc sentence_tokens).

Definition crf_path_score (m : CrfNerModel.t) (feature_cache : list (list (list nat)))
  : list nat -> Q :=
  let sc := CrfNerModel.scorer m feature_cache in
  path_score (FeatureBasedSequenceScorer.score_init sc)
             (FeatureBasedSequenceScorer.score_transition sc)
             (FeatureBasedSequenceScorer.score_emission sc).

(** The feature cache [decode] fills for a sentence. *)
Definition feature_cache_of (m : CrfNerModel.t) (sentence_tokens : list Token)
  : result (list (list (list nat))) :=
  snd (build_feature_cache (CrfNerModel.tag_indexer m) sentence_tokens false
         (CrfNerModel.feature_indexer m)).

(** ** Concrete models *)

Definition tok (w p : string) : Token := {| word := w; pos := p |}.

(** An HMM over two tags whose two best paths tie. *)
Definition tie_model : HmmNerModel.t Q :=
  {| HmmNerModel.tag_indexer := ["O"; "B-PER"]%string;
     HmmNerModel.word_indexer := ["UNK"]%string;
     HmmNerModel.init_log_probs := [0; 0]%Q;
     HmmNerModel.transition_log_probs := [[inject_Z (-1); 0]; [0; inject_Z (-1)]]%Q;
     HmmNerModel.emission_log_probs := [[0]; [0]]%Q |}.

Definition two_words : list Token := [tok "Alice" "NNP"; tok "works" "VBZ"].

(** A CRF over four tags in which two features of the second word carry the
    same weight, so that B-PER I-PER and O B-LOC tie. *)
Definition tie_crf : CrfNerModel.t :=
  {| CrfNerModel.tag_indexer := ["O"; "B-PER"; "I-PER"; "B-LOC"]%string;
     CrfNerModel.feature_indexer := ["I-PER:Word0=works"; "B-LOC:Word0=works"]%string;
     CrfNerModel.feature_weights := [inject_Z 1; inject_Z 1] |}.

Definition tie_cache : list (list (list nat)) :=
  [[[]; []; []; []]; [[]; []; [0]; [1]]].

(** A CRF over three tags with two heavily weighted features. *)
Definition heavy_model : CrfNerModel.t :=
  {| CrfNerModel.tag_indexer := ["O"; "B-PER"; "I-PER"]%string;
     CrfNerModel.feature_indexer := ["O:Word0=Alice"; "I-PER:Word0=works"]%string;
     CrfNerModel.feature_weights := [inject_Z 5000; inject_Z 5000] |}.

(** A CRF over the nine CoNLL tags in which every emission score is -1: of
    the features of a lower-case word only [IsCap=False] is known, once per
    tag. *)
Definition conll_tags : list string :=
  ["O"; "B-PER"; "I-PER"; "B-LOC"; "I-LOC"; "B-ORG"; "I-ORG"; "B-MISC"; "I-MISC"]%string.

Definition nine_tag_model : CrfNerModel.t :=
  {| CrfNerModel.tag_indexer := conll_tags;
     CrfNerModel.feature_indexer := map (fun tag => tag ++ ":IsCap=False")%string conll_tags;
     CrfNerModel.feature_weights := repeat (inject_Z (-1)) 9 |}.

Definition three_words : list Token :=
  [tok "it" "PRP"; tok "rains" "VBZ"; tok "today" "NN"].

(** ** BIO legality *)















(** A word counter and an indexer as the indexing loop of [train_hmm_model]
    meets them. *)
Definition small_counter : word_counter := [("UNK", 2); ("the", 2); ("rare", 1)]%string.

Definition unk_indexer : Indexer.t := ["UNK"]%string.

(** ** Columns of the forward and backward matrices *)

Section AlphaBeta.

Variable num_tags : nat.
Variable score_transition : nat -> nat -> R.
Variable score_emission : nat -> nat -> R.

(** The forward values at position [i]. *)
Fixpoint alpha_column (i : nat) : list R :=
  match i with
  | 0 => alpha_first num_tags score_emission
  | S i' => alpha_next num_tags score_transition score_emission (alpha_column i') i
  end.

(** The backward values at position [idx], [k] positions before the last. *)
Fixpoint beta_column (k idx : nat) : list R :=
  match k with
  | 0 => beta_last num_tags
  | S k' => beta_prev num_tags score_transition score_emission (beta_column k' (S idx)) idx
  end.

(** The per-position normalizer, in probability space. *)
Definition partition_at (num_words idx : nat) : R :=
  sum_R (map (fun t => exp (nth t (alpha_column idx) 0%R
                            + nth t (beta_column (num_words - 1 - idx) idx) 0%R)%R)
             (seq 0 num_tags)).

End AlphaBeta.

(** ** The distribution the forward-backward pass computes with *)

Section SequenceScore.

Variable score_transition : nat -> nat -> R.
Variable score_emission : nat -> nat -> R.

(** The score of the tags from position [i] on, after the tag [prev]. *)
Fixpoint chain_score_R (prev i : nat) (path : list nat) : R :=
  match path with
  | [] => 0%R
  | t :: rest =>
      (score_transition prev t + score_emission t i + chain_score_R t (S i) rest)%R
  end.

(** The score the forward and backward passes of [compute_gradient] give a
    tag sequence: the emission score of every tag at its position and the
    transition score of every adjacent pair.  The passes never call
    [score_init]. *)
Definition sequence_score (path : list nat) : R :=
  match path with
  | [] => 0%R
  | t0 :: rest => (score_emission t0 0 + chain_score_R t0 1 rest)%R
  end.

End SequenceScore.

(** The sum of the exponentiated scores of all sequences of [N] tags. *)
Definition partition_function (T N : nat) (trans emis : nat -> nat -> R) : R :=
  sum_R (map (fun p => exp (sequence_score trans emis p)) (all_paths T N)).

(** The probability, under the distribution that gives a sequence a weight
    of its exponentiated score, that position [i] carries the tag [t]. *)
Definition posterior (T N : nat) (trans emis : nat -> nat -> R) (t i : nat) : R :=
  (sum_R (map (fun p => if (nth i p 0 =? t)%nat then exp (sequence_score trans emis p) else 0%R)
              (all_paths T N))
   / partition_function T N trans emis)%R.

(** ** Observed and expected feature counts *)

(** A feature cache with one row per word and one feature list per tag. *)
Definition cache_shaped (feat_cache : list (list (list nat))) (num_words num_tags : nat)
  : Prop :=
  length feat_cache = num_words
  /\ Forall (fun row => length row = num_tags) feat_cache.

(** The cached feature list of the gold tag at a position. *)
Definition gold_features (sentence : LabeledSentence) (tag_indexer : Indexer.t)
    (feat_cache : list (list (list nat))) (word_idx : nat) : list nat :=
  let gold_tag_index :=
    Z.to_nat (Indexer.index_of tag_indexer
                (nth word_idx (get_bio_tags sentence) EmptyString)) in
  nth gold_tag_index (nth word_idx feat_cache []) [].

(** The number of occurrences of feature [f] in the gold feature lists. *)
Definition observed_count (sentence : LabeledSentence) (tag_indexer : Indexer.t)
    (feat_cache : list (list (list nat))) (f : nat) : R :=
  sum_R (map (fun word_idx =>
                INR (count_occ Nat.eq_dec
                       (gold_features sentence tag_indexer feat_cache word_idx) f))
             (seq 0 (length sentence))).

(** The expected number of occurrences of feature [f]: the sum over
    positions and tags of the posterior probability of the tag at the
    position, times the number of occurrences of [f] in the feature list of
    that position and tag. *)
Definition expected_count (sentence : LabeledSentence) (tag_indexer : Indexer.t)
    (scorer : FeatureBasedSequenceScorer.t R) (f : nat) : R :=
  let num_tags := Indexer.len tag_indexer in
  let feat_cache := FeatureBasedSequenceScorer.feat_cache scorer in
  sum_R (map (fun word_idx =>
                sum_R (map (fun tag_idx =>
                              (posterior num_tags (length sentence)
                                 (FeatureBasedSequenceScorer.score_transition scorer)
                                 (FeatureBasedSequenceScorer.score_emission scorer)
                                 tag_idx word_idx
                               * INR (count_occ Nat.eq_dec
                                        (nth tag_idx (nth word_idx feat_cache []) []) f))%R)
                           (seq 0 num_tags)))
             (seq 0 (length sentence))).

(** The sum of the values a counter holds under a key. *)
Fixpoint counter_total (d : counter) (k : nat) : R :=
  match d with
  | [] => 0%R
  | (k', v') :: d' => ((if k =? k' then v' else 0) + counter_total d' k)%R
  end.

(** A sentence of two words with its feature cache over two tags, and real
    weights for its four features. *)
Definition gold_sentence : LabeledSentence :=
  [(tok "Alice" "NNP", "B-PER"%string); (tok "works" "VBZ", "O"%string)].

Definition gold_scorer : FeatureBasedSequenceScorer.t R :=
  {| FeatureBasedSequenceScorer.tag_indexer := ["B-PER"; "O"]%string;
     FeatureBasedSequenceScorer.feature_weights := [1; 0; 0; 2]%R;
     FeatureBasedSequenceScorer.feat_cache := [[[0]; [1]]; [[2]; [3; 3]]] |}.

(** ** Notions for the HMM estimator *)

(** The string [get_word_index] looks up for a word. *)
Definition word_key (wc : word_counter) (w : string) : string :=
  if 2 * word_count wc w <? 3 then "UNK"%string else w.

Definition shaped (m : list (list R)) (rows cols : nat) : Prop :=
  length m = rows /\ Forall (fun row => length row = cols) m.

Definition positive (m : list (list R)) : Prop :=
  Forall (Forall (fun c => (0 < c)%R)) m.

(** A row of log-probabilities: in probability space it sums to 1, and every
    entry is the logarithm of a positive probability. *)
Definition distribution_row (row : list R) : Prop :=
  sum_R (map exp row) = 1%R
  /\ Forall (fun e => exists p, (0 < p)%R /\ e = ln p /\ exp e = p) row.

(** The invariant of the counting loop of [train_hmm_model]. *)
Definition counts_invariant (tag_indexer word_indexer : Indexer.t) (st : hmm_counts) : Prop :=
  c_tag_indexer st = tag_indexer
  /\ c_word_indexer st = word_indexer
  /\ positive [init_counts st] /\ length (init_counts st) = Indexer.len tag_indexer
  /\ positive (transition_counts st)
  /\ shaped (transition_counts st) (Indexer.len tag_indexer) (Indexer.len tag_indexer)
  /\ positive (emission_counts st)
  /\ shaped (emission_counts st) (Indexer.len tag_indexer) (Indexer.len word_indexer).

(** Every tag of the corpus, and the key of every word, has an index. *)
Definition corpus_indexed (wc : word_counter) (tag_indexer word_indexer : Indexer.t)
    (sentences : list LabeledSentence) : Prop :=
  Forall (Forall (fun tt : Token * string =>
                    In (snd tt) tag_indexer
                    /\ In (word_key wc (word (fst tt))) word_indexer))
         sentences.

(** The corpus of the end-to-end scenario of the specification. *)
Definition two_sentences : list LabeledSentence :=
  [[(tok "Alice" "NNP", "B-PER"%string); (tok "lives" "VBZ", "O"%string)];
   [(tok "Bob" "NNP", "B-PER"%string); (tok "works" "VBZ", "O"%string)]].

(** ** Notions for further properties of the decoders *)

(** Two sentences that differ only in words the vocabulary of the model
    does not hold. *)
Definition same_up_to_unknown_words (m : HmmNerModel.t Q)
    (tokens1 tokens2 : list Token) : Prop :=
  Forall2 (fun a b =>
             word a = word b
             \/ (Indexer.contains (HmmNerModel.word_indexer m) (word a) = false
                 /\ Indexer.contains (HmmNerModel.word_indexer m) (word b) = false))
          tokens1 tokens2.

(** The last column of the score matrix after [n] tokens beyond the first,
    as the forward loop of [decode] leaves it. *)
Definition last_column (T : nat) (init : nat -> Q) (trans emis : nat -> nat -> Q)
    (n : nat) : list Q :=
  fst (forward T trans emis (first_column T init emis) 1 n []).

(** An HMM whose vocabulary holds one word beside the sentinel. *)
Definition small_hmm : HmmNerModel.t Q :=
  {| HmmNerModel.tag_indexer := ["O"; "B-PER"]%string;
     HmmNerModel.word_indexer := ["UNK"; "works"]%string;
     HmmNerModel.init_log_probs := [inject_Z (-1); inject_Z (-2)];
     HmmNerModel.transition_log_probs :=
       [[inject_Z (-1); inject_Z (-2)]; [inject_Z (-1); inject_Z (-3)]];
     HmmNerModel.emission_log_probs :=
       [[inject_Z (-3); inject_Z (-1)]; [inject_Z (-1); inject_Z (-4)]] |}.

(** Models without a tag. *)
Definition no_tag_hmm : HmmNerModel.t Q :=
  {| HmmNerModel.tag_indexer := [];
     HmmNerModel.word_indexer := ["UNK"]%string;
     HmmNerModel.init_log_probs := [];
     HmmNerModel.transition_log_probs := [];
     HmmNerModel.emission_log_probs := [] |}.

Definition no_tag_crf : CrfNerModel.t :=
  {| CrfNerModel.tag_indexer := [];
     CrfNerModel.feature_indexer := [];
     CrfNerModel.feature_weights := [] |}.

(** A sentence whose second word is empty. *)
Definition with_empty_word : list Token := [tok "Alice" "NNP"; tok EmptyString "VBZ"].

(** ** Notions for feature extraction *)

(** An indexer that has only grown: every id in use keeps its object. *)
Definition extends (ix ix' : Indexer.t) : Prop := exists l, ix' = ix ++ l.

(** The feature strings [extract_emission_features] builds for a word and a
    tag, in the order of its calls of [maybe_add_feature]; on an empty word
    the calls stop before the word-shape features. *)
Definition feature_strings (sentence_tokens : list Token) (word_index : nat)
    (tag : string) : list string :=
  match nth_error sentence_tokens word_index with
  | None => []
  | Some tok =>
      let curr_word := word tok in
      let len := String.length curr_word in
      (flat_map (fun idx_offset =>
                   [(tag ++ ":Word" ++ repr_int idx_offset ++ "="
                      ++ active sentence_tokens word_index idx_offset word "<s>" "</s>")%string;
                    (tag ++ ":Pos" ++ repr_int idx_offset ++ "="
                      ++ active sentence_tokens word_index idx_offset pos "<S>" "</S>")%string])
                [(-1)%Z; 0%Z; 1%Z]
       ++ flat_map (fun ngram_size =>
                      [(tag ++ ":StartNgram="
                         ++ String.substring 0 (Nat.min ngram_size len) curr_word)%string;
                       (tag ++ ":EndNgram="
                         ++ String.substring (len - ngram_size) (len - (len - ngram_size))
                              curr_word)%string])
                   [1; 2; 3]
       ++ match curr_word with
          | EmptyString => []
          | String c0 _ =>
              [(tag ++ ":IsCap=" ++ repr_bool (isupper c0))%string;
               (tag ++ ":WordShape=" ++ repr_chars (word_shape curr_word))%string]
          end)%list
  end.

(** The ids an indexer holds for the strings of a list, in order, the
    strings without an id left out. *)
Definition ids_of (ix : Indexer.t) (strs : list string) : list nat :=
  flat_map (fun s => match Indexer.position ix s 0 with
                     | Some i => [i]
                     | None => []
                     end) strs.

(** The indexer after the strings of a list were registered in order. *)
Definition add_all (ix : Indexer.t) (strs : list string) : Indexer.t :=
  fold_left (fun ix s => fst (Indexer.add_and_get_index ix s)) strs ix.

(** A training-mode computation with its replay: the first returns, only
    extends the indexer, and its result satisfies [P]; on any further
    extension of the indexer it leaves, the second returns the same result
    and leaves the indexer alone. *)
Definition trains {A} (P : A -> Prop) (c c' : IxM A) : Prop :=
  forall ix, exists ix1 a,
    c ix = (ix1, Ok a) /\ extends ix ix1 /\ P a
    /\ forall ix2, extends ix1 ix2 -> c' ix2 = (ix2, Ok a).

(** ** The feature phase of CRF training

    The statements of [train_crf_model] before the optimizer is created:
    the tag indexer over the tags of the corpus, then the feature cache of
    every sentence, extracted in training mode into a fresh feature
    indexer.  The epochs after them run the optimizer of [optimizers] over
    a shuffled order of the sentences, and are not part of the model. *)
Definition train_crf_model_tag_indexer (sentences : list LabeledSentence) : Indexer.t :=
  fold_left (fun tag_indexer sentence =>
               fold_left (fun ix tag => fst (Indexer.add_and_get_index ix tag))
                         (get_bio_tags sentence) tag_indexer)
            sentences Indexer.empty.

Definition train_crf_model_feature_cache (sentences : list LabeledSentence)
  : Indexer.t * result (list (list (list (list nat)))) :=
  let tag_indexer := train_crf_model_tag_indexer sentences in
  ix_map (fun sentence => build_feature_cache tag_indexer (tokens sentence) true)
         sentences Indexer.empty.

(** The model [train_crf_model] would return with the given weights. *)
Definition crf_model_of (sentences : list LabeledSentence) (weights : list Q)
  : CrfNerModel.t :=
  {| CrfNerModel.tag_indexer := train_crf_model_tag_indexer sentences;
     CrfNerModel.feature_indexer := fst (train_crf_model_feature_cache sentences);
     CrfNerModel.feature_weights := weights |}.

(** A feature cache in which every list holds fourteen ids below [bound]. *)
Definition fourteen_known (bound : nat) (cache : list (list (list nat))) : Prop :=
  Forall (Forall (fun feats => length feats = 14 /\ Forall (fun f => f < bound) feats)) cache.

(** ** Notions for further properties of the gradient *)

(** The sum of the values a counter holds. *)
Definition counter_sum (d : counter) : R := sum_R (map snd d).

(** The emission score of the gold tag at a position. *)
Definition gold_score (sentence : LabeledSentence) (tag_indexer : Indexer.t)
    (scorer : FeatureBasedSequenceScorer.t R) (word_idx : nat) : R :=
  weights_score (FeatureBasedSequenceScorer.feature_weights scorer)
    (gold_features sentence tag_indexer (FeatureBasedSequenceScorer.feat_cache scorer)
       word_idx).

(** The dict [features] the accumulation loop of [compute_gradient] leaves:
    every feature of every position and tag was added the marginal of the
    tag at the position. *)
Definition expected_features (num_tags num_words : nat) (marginals : nat -> nat -> R)
    (feat_cache : list (list (list nat))) : counter :=
  fold_left
    (fun features word_idx =>
       fold_left
         (fun features tag_idx =>
            fold_left
              (fun features feature =>
                 counter_add features feature (marginals tag_idx word_idx))
              (nth tag_idx (nth word_idx feat_cache []) [])
              features)
         (seq 0 num_tags) features)
    (seq 0 num_words) [].

(** The feature ids a cache holds. *)
Definition cache_ids (feat_cache : list (list (list nat))) : list nat :=
  concat (concat feat_cache).

(** A sentence as [compute_gradient] reads its gold tags: a tag without an
    index is looked up at -1, which the feature lists answer with their
    last entry, that of the last tag. *)
Definition gold_tags_read (tag_indexer : Indexer.t) (sentence : LabeledSentence)
  : LabeledSentence :=
  map (fun tt : Token * string =>
         (fst tt,
          if Indexer.contains tag_indexer (snd tt) then snd tt
          else last tag_indexer EmptyString))
      sentence.

(** A sentence whose second gold tag is not among the tags of
    [gold_scorer]. *)
Definition mislabeled_sentence : LabeledSentence :=
  [(tok "Alice" "NNP", "B-PER"%string); (tok "works" "VBZ", "B-LOC"%string)].

(** A scorer over two tags with two features on every word and tag. *)
Definition uniform_scorer : FeatureBasedSequenceScorer.t R :=
  {| FeatureBasedSequenceScorer.tag_indexer := ["B-PER"; "O"]%string;
     FeatureBasedSequenceScorer.feature_weights := [1; 0; 0; 2]%R;
     FeatureBasedSequenceScorer.feat_cache := [[[0; 1]; [1; 2]]; [[2; 3]; [3; 3]]] |}.

(** The scorer the training loop of [train_crf_model] builds for a sentence
    from the weights of the moment and the cache of the sentence. *)
Definition training_scorer (tag_indexer : Indexer.t) (weights : list R)
    (cache : list (list (list nat))) : FeatureBasedSequenceScorer.t R :=
  {| FeatureBasedSequenceScorer.tag_indexer := tag_indexer;
     FeatureBasedSequenceScorer.feature_weights := weights;
     FeatureBasedSequenceScorer.feat_cache := cache |}.

(** ** Notions for further properties of the HMM estimator *)

(** The words and the tags of a corpus, in order. *)
Definition corpus_words (sentences : list LabeledSentence) : list string :=
  concat (map (fun sentence => map word (tokens sentence)) sentences).

Definition corpus_tags (sentences : list LabeledSentence) : list string :=
  concat (map get_bio_tags sentences).

(** The number of occurrences of a string in a list. *)
Definition occurrences (l : list string) (s : string) : nat :=
  count_occ string_dec l s.

(** The key a word is counted under: its own when it occurs at least twice
    in the corpus, and that of the unknown word when it occurs once. *)
Definition corpus_key (sentences : list LabeledSentence) (w : string) : string :=
  if occurrences (corpus_words sentences) w <? 2 then "UNK"%string else w.

(** The events the relative frequencies of [train_hmm_model] are taken
    over: for every token its tag with the key of its word, for every token
    after the first of its sentence the tag before it with its tag, and for
    every non-empty sentence its first tag. *)
Definition adjacent (tags : list string) : list (string * string) :=
  combine tags (tl tags).

Definition emission_events (sentences : list LabeledSentence) : list (string * string) :=
  map (fun tt : Token * string => (snd tt, corpus_key sentences (word (fst tt))))
      (concat sentences).

Definition transition_events (sentences : list LabeledSentence) : list (string * string) :=
  flat_map (fun sentence => adjacent (get_bio_tags sentence)) sentences.

Definition initial_tags (sentences : list LabeledSentence) : list string :=
  flat_map (fun sentence => firstn 1 (get_bio_tags sentence)) sentences.

(** The number of events with a given first component, and with given
    components. *)
Definition row_count (events : list (string * string)) (r : string) : nat :=
  length (filter (fun e => String.eqb (fst e) r) events).

Definition pair_count (events : list (string * string)) (r c : string) : nat :=
  length (filter (fun e => String.eqb (fst e) r && String.eqb (snd e) c) events).

(** A count table that holds the smoothing constant plus the number of
    events, at the indices of the strings. *)
Definition matrix_tally (rix cix : Indexer.t) (m : list (list R))
    (events : list (string * string)) : Prop :=
  forall r a, Indexer.position rix r 0 = Some a ->
    sum_R (nth a m []) = (INR (Indexer.len cix) * smoothing + INR (row_count events r))%R
    /\ forall c b, Indexer.position cix c 0 = Some b ->
         nth b (nth a m []) 0%R = (smoothing + INR (pair_count events r c))%R.

Definition vector_tally (rix : Indexer.t) (v : list R) (events : list string) : Prop :=
  sum_R v = (INR (Indexer.len rix) * smoothing + INR (length events))%R
  /\ forall r a, Indexer.position rix r 0 = Some a ->
       nth a v 0%R = (smoothing + INR (occurrences events r))%R.

Definition tallied (tix wix : Indexer.t) (st : hmm_counts)
    (emissions transitions : list (string * string)) (initials : list string) : Prop :=
  matrix_tally tix wix (emission_counts st) emissions
  /\ matrix_tally tix tix (transition_counts st) transitions
  /\ vector_tally tix (init_counts st) initials.

(* ================================================================== *)
(** * Properties *)

(** ** Results and comparisons *)

Lemma Qltb_lt (a b : Q) : Qltb a b = true <-> (a < b)%Q.
Proof.
  unfold Qltb. rewrite negb_true_iff. split; intro H.
  - apply Qnot_le_lt. intro Hle. apply Qle_bool_iff in Hle. congruence.
  - destruct (Qle_bool b a) eqn:E; [|reflexivity].
    apply Qle_bool_iff in E. exfalso. apply (Qlt_not_le _ _ H E).
Qed.

Lemma Qltb_ge (a b : Q) : Qltb a b = false <-> (b <= a)%Q.
Proof.
  unfold Qltb. rewrite negb_false_iff. apply Qle_bool_iff.
Qed.

(** ** [np.argmax] *)

Lemma argmax_from_spec (l pre : list Q) (bi : nat) (b : Q) :
  bi < length pre ->
  nth bi pre 0%Q = b ->
  (forall j, j < length pre -> (nth j pre 0 <= b)%Q) ->
  (forall j, j < bi -> (nth j pre 0 < b)%Q) ->
  let k := argmax_from bi b (length pre) l in
  k < length (pre ++ l)
  /\ (forall j, j < length (pre ++ l) -> (nth j (pre ++ l) 0 <= nth k (pre ++ l) 0)%Q)
  /\ (forall j, j < k -> (nth j (pre ++ l) 0 < nth k (pre ++ l) 0)%Q).
Proof.
  revert pre bi b. induction l as [|x l IH]; intros pre bi b Hbi Hb Hle Hlt; simpl.
  - rewrite app_nil_r. subst b. auto.
  - assert (Hlen : length (pre ++ [x]) = S (length pre))
      by (rewrite length_app; simpl; lia).
    assert (Hx : nth (length pre) (pre ++ [x]) 0%Q = x)
      by (rewrite app_nth2, Nat.sub_diag by lia; reflexivity).
    assert (Hold : forall j, j < length pre -> nth j (pre ++ [x]) 0%Q = nth j pre 0%Q)
      by (intros; apply app_nth1; assumption).
    replace (pre ++ x :: l) with ((pre ++ [x]) ++ l)
      by (rewrite <- app_assoc; reflexivity).
    rewrite <- Hlen.
    destruct (Qltb b x) eqn:E.
    + apply Qltb_lt in E. apply IH.
      * lia.
      * exact Hx.
      * intros j Hj. rewrite Hlen in *.
        destruct (Nat.eq_dec j (length pre)) as [->|Hne].
        -- rewrite Hx. apply Qle_refl.
        -- rewrite Hold by lia. apply Qle_trans with b; [apply Hle; lia|].
           apply Qlt_le_weak; assumption.
      * intros j Hj. rewrite Hold by lia.
        apply Qle_lt_trans with b; [apply Hle; lia | assumption].
    + apply Qltb_ge in E. apply IH.
      * lia.
      * rewrite Hold by lia. exact Hb.
      * intros j Hj. rewrite Hlen in *.
        destruct (Nat.eq_dec j (length pre)) as [->|Hne].
        -- rewrite Hx. assumption.
        -- rewrite Hold by lia. apply Hle; lia.
      * intros j Hj. rewrite Hold by lia. apply Hlt; assumption.
Qed.

Lemma argmax_spec (l : list Q) :
  l <> [] ->
  argmax l < length l
  /\ (forall j, j < length l -> (nth j l 0 <= nth (argmax l) l 0)%Q)
  /\ (forall j, j < argmax l -> (nth j l 0 < nth (argmax l) l 0)%Q).
Proof.
  destruct l as [|x l]; [congruence|]. intros _.
  unfold argmax.
  apply (argmax_from_spec l [x] (bi := 0) (b := x)); simpl.
  - lia.
  - reflexivity.
  - intros j Hj. assert (j = 0) by lia. subst. apply Qle_refl.
  - intros j Hj. lia.
Qed.

(** ** Enumerations and brute-force maximisation *)

Lemma nth_map_seq {A} (f : nat -> A) (d : A) (n t : nat) :
  t < n -> nth t (map f (seq 0 n)) d = f t.
Proof.
  intro Ht.
  rewrite (nth_indep _ d (f 0)) by (rewrite length_map, length_seq; exact Ht).
  rewrite (map_nth f (seq 0 n) 0 t), seq_nth by exact Ht. reflexivity.
Qed.

Lemma first_max_from_sorted {A} (lt : A -> A -> Prop) (score : A -> Q)
    (l : list A) (b x : A) :
  StronglySorted lt (b :: l) ->
  In x (b :: l) ->
  (forall y, In y (b :: l) -> (score y <= score x)%Q) ->
  (forall y, In y (b :: l) -> lt y x -> (score y < score x)%Q) ->
  first_max_from score b l = x.
Proof.
  revert b. induction l as [|p l IH]; intros b Hs Hin Hmax Hfirst; simpl.
  - destruct Hin as [->|[]]. reflexivity.
  - inversion Hs as [|? ? Hs' Hall]; subst.
    inversion Hs' as [|? ? Hs'' Hall']; subst.
    inversion Hall as [|? ? Hbp Hbl]; subst.
    destruct (Qltb (score b) (score p)) eqn:E.
    + apply Qltb_lt in E. apply IH.
      * exact Hs'.
      * destruct Hin as [->|Hin]; [|exact Hin].
        exfalso. specialize (Hmax p (or_intror (or_introl eq_refl))).
        apply (Qlt_not_le _ _ E Hmax).
      * intros y Hy. apply Hmax. right. exact Hy.
      * intros y Hy. apply Hfirst. right. exact Hy.
    + apply Qltb_ge in E. apply IH.
      * constructor; assumption.
      * destruct Hin as [->|[->|Hin]]; [left; reflexivity| |right; exact Hin].
        exfalso. specialize (Hfirst b (or_introl eq_refl) Hbp).
        apply (Qlt_not_le _ _ Hfirst E).
      * intros y [->|Hy]; apply Hmax; [left|right; right]; auto.
      * intros y [->|Hy]; apply Hfirst; [left|right; right]; auto.
Qed.

Lemma first_max_sorted {A} (lt : A -> A -> Prop) (score : A -> Q) (l : list A) (x : A) :
  StronglySorted lt l ->
  In x l ->
  (forall y, In y l -> (score y <= score x)%Q) ->
  (forall y, In y l -> lt y x -> (score y < score x)%Q) ->
  first_max score l = Some x.
Proof.
  destruct l as [|b l]; [intros _ []|].
  intros Hs Hin Hmax Hfirst. simpl. f_equal.
  eapply first_max_from_sorted; eassumption.
Qed.

Lemma first_max_from_map {A B} (g : A -> B) (score : B -> Q) (l : list A) (b : A) :
  first_max_from score (g b) (map g l) = g (first_max_from (fun a => score (g a)) b l).
Proof.
  revert b. induction l as [|p l IH]; intro b; simpl; [reflexivity|].
  destruct (Qltb (score (g b)) (score (g p))); apply IH.
Qed.

Lemma first_max_map {A B} (g : A -> B) (score : B -> Q) (l : list A) :
  first_max score (map g l) = option_map g (first_max (fun a => score (g a)) l).
Proof.
  destruct l as [|b l]; simpl; [reflexivity|].
  f_equal. apply first_max_from_map.
Qed.

Lemma StronglySorted_app {A} (lt : A -> A -> Prop) (l1 l2 : list A) :
  StronglySorted lt l1 -> StronglySorted lt l2 ->
  (forall x y, In x l1 -> In y l2 -> lt x y) ->
  StronglySorted lt (l1 ++ l2).
Proof.
  induction l1 as [|a l1 IH]; intros H1 H2 H12; simpl; [exact H2|].
  inversion H1 as [|? ? H1' Ha]; subst.
  constructor.
  - apply IH; [exact H1'|exact H2|]. intros x y Hx Hy. apply H12; [right|]; assumption.
  - apply Forall_app. split; [exact Ha|].
    apply Forall_forall. intros y Hy. apply H12; [left; reflexivity|exact Hy].
Qed.

Lemma StronglySorted_map_cons (t : nat) (l : list (list nat)) :
  StronglySorted lex_lt l -> StronglySorted lex_lt (map (cons t) l).
Proof.
  induction 1 as [|a l Hs IH Ha]; simpl; constructor; [exact IH|].
  apply Forall_forall. intros y Hy.
  apply in_map_iff in Hy. destruct Hy as [y' [<- Hy']].
  apply lex_tail. rewrite Forall_forall in Ha. apply Ha. exact Hy'.
Qed.

Lemma blocks_sorted (L : list (list nat)) (k a : nat) :
  StronglySorted lex_lt L ->
  StronglySorted lex_lt (flat_map (fun t => map (cons t) L) (seq a k)).
Proof.
  intro HL. revert a. induction k as [|k IH]; intro a; simpl; [constructor|].
  apply StronglySorted_app.
  - apply StronglySorted_map_cons; exact HL.
  - apply IH.
  - intros x y Hx Hy.
    apply in_map_iff in Hx. destruct Hx as [x' [<- _]].
    apply in_flat_map in Hy. destruct Hy as [t [Ht Hy]].
    apply in_map_iff in Hy. destruct Hy as [y' [<- _]].
    apply in_seq in Ht. apply lex_head. lia.
Qed.

Lemma all_paths_sorted (T n : nat) : StronglySorted lex_lt (all_paths T n).
Proof.
  induction n as [|n IH]; simpl.
  - repeat constructor.
  - apply blocks_sorted; exact IH.
Qed.

Lemma in_all_paths (T n : nat) (p : list nat) :
  In p (all_paths T n) <-> length p = n /\ below T p.
Proof.
  revert p. induction n as [|n IH]; intro p; simpl.
  - split.
    + intros [<-|[]]. split; [reflexivity|constructor].
    + intros [Hl _]. left. destruct p; [reflexivity|discriminate].
  - rewrite in_flat_map. split.
    + intros [t [Ht Hp]]. apply in_map_iff in Hp. destruct Hp as [q [<- Hq]].
      apply IH in Hq. destruct Hq as [Hl Hb]. apply in_seq in Ht.
      split; [simpl; congruence|]. constructor; [lia|exact Hb].
    + intros [Hl Hb]. destruct p as [|t q]; [discriminate|].
      inversion Hb; subst. exists t. split; [apply in_seq; lia|].
      apply in_map. apply IH. split; [simpl in Hl; congruence|assumption].
Qed.

Lemma below_rev (T : nat) (p : list nat) : below T (rev p) <-> below T p.
Proof.
  unfold below. rewrite !Forall_forall. split; intros H x Hx; apply H.
  - apply in_rev in Hx. exact Hx.
  - apply in_rev. exact Hx.
Qed.

(** ** Path scores *)

Lemma last_cons_default {A} (l : list A) (a d : A) : last (a :: l) d = last l a.
Proof.
  revert a d. induction l as [|b l IH]; intros a d; [reflexivity|].
  change (last (a :: b :: l) d) with (last (b :: l) d).
  rewrite (IH b d), (IH b a). reflexivity.
Qed.

Section PathScoreFacts.

Variable init : nat -> Q.
Variable trans emis : nat -> nat -> Q.

Lemma rscore_cons (t p : nat) (r : list nat) :
  rscore init trans emis (t :: p :: r)
  = (rscore init trans emis (p :: r) + trans p t + emis t (length (p :: r)))%Q.
Proof. reflexivity. Qed.

Lemma chain_score_snoc (path : list nat) (prev i t : nat) :
  (chain_score trans emis prev i (path ++ [t])
   == chain_score trans emis prev i path
      + trans (last path prev) t + emis t (i + length path))%Q.
Proof.
  revert prev i. induction path as [|a path IH]; intros prev i.
  - simpl. rewrite Nat.add_0_r. lra.
  - change (chain_score trans emis prev i ((a :: path) ++ [t]))
      with (trans prev a + emis a i + chain_score trans emis a (S i) (path ++ [t]))%Q.
    rewrite IH.
    change (chain_score trans emis prev i (a :: path))
      with (trans prev a + emis a i + chain_score trans emis a (S i) path)%Q.
    rewrite last_cons_default.
    replace (S i + length path) with (i + length (a :: path)) by (simpl; lia).
    lra.
Qed.

Lemma path_score_rev (r : list nat) :
  (path_score init trans emis (rev r) == rscore init trans emis r)%Q.
Proof.
  induction r as [|t r IH]; [reflexivity|].
  destruct r as [|p r].
  - simpl. lra.
  - rewrite rscore_cons, <- IH.
    change (rev (t :: p :: r)) with (rev (p :: r) ++ [t]).
    assert (Hlast : forall d, last (rev (p :: r)) d = p)
      by (intro d; simpl; apply last_last).
    assert (Hlen : length (rev (p :: r)) = length (p :: r)) by apply length_rev.
    destruct (rev (p :: r)) as [|t0 rest] eqn:E; [simpl in Hlen; discriminate|].
    change ((t0 :: rest) ++ [t]) with (t0 :: (rest ++ [t])).
    unfold path_score. rewrite chain_score_snoc.
    rewrite <- last_cons_default with (d := t0), Hlast.
    replace (1 + length rest) with (length (p :: r)) by (rewrite <- Hlen; reflexivity).
    lra.
Qed.

End PathScoreFacts.

(** ** The Viterbi recurrence *)

Lemma match_pos {A} (n : nat) (a : A) (b : nat -> A) :
  0 < n -> match n with 0 => a | S n' => b n' end = b (n - 1).
Proof. destruct n; [lia|]. intros _. simpl. rewrite Nat.sub_0_r. reflexivity. Qed.

Lemma lex_lt_irrefl (l : list nat) : ~ lex_lt l l.
Proof.
  induction l as [|a l IH]; intro H; inversion H; subst; [lia|auto].
Qed.

Section ViterbiFacts.

Variable T : nat.
Variable init : nat -> Q.
Variable trans emis : nat -> nat -> Q.
Hypothesis T_pos : 0 < T.

Let col := column T init trans emis.
Let bst := best T init trans emis.
Let rp := rpath T init trans emis.
Let rsc := rscore init trans emis.
Let tf := tags_for T trans.
Let vpath := viterbi_path T init trans emis.

Lemma length_tags_for (c : list Q) (t : nat) : length (tf c t) = T.
Proof. unfold tf, tags_for. rewrite length_map, length_seq. reflexivity. Qed.

Lemma tags_for_nth (c : list Q) (t p : nat) :
  p < T -> nth p (tf c t) 0%Q = (nth p c 0 + trans p t)%Q.
Proof. intro Hp. unfold tf, tags_for. apply nth_map_seq with (f := fun q => (nth q c 0 + trans q t)%Q). exact Hp. Qed.

Lemma tags_for_argmax (c : list Q) (t : nat) :
  let k := argmax (tf c t) in
  k < T
  /\ (forall p, p < T -> (nth p c 0 + trans p t <= nth k c 0 + trans k t)%Q)
  /\ (forall p, p < k -> (nth p c 0 + trans p t < nth k c 0 + trans k t)%Q).
Proof.
  intro k.
  assert (Hne : tf c t <> []).
  { intro E. pose proof (length_tags_for c t) as HL. rewrite E in HL. simpl in HL. lia. }
  destruct (argmax_spec Hne) as [Hk [Hmax Hfirst]].
  rewrite length_tags_for in Hk, Hmax. fold k in Hk, Hmax, Hfirst.
  split; [exact Hk|]. split.
  - intros p Hp. specialize (Hmax p Hp).
    rewrite !tags_for_nth in Hmax by assumption. exact Hmax.
  - intros p Hp. specialize (Hfirst p Hp).
    rewrite !tags_for_nth in Hfirst by lia. exact Hfirst.
Qed.

Lemma step_argmax (i t : nat) :
  let k := argmax (tf (col i) t) in
  k < T
  /\ (forall p, p < T -> (bst i p + trans p t <= bst i k + trans k t)%Q)
  /\ (forall p, p < k -> (bst i p + trans p t < bst i k + trans k t)%Q).
Proof. exact (tags_for_argmax (col i) t). Qed.

Lemma best_0 (t : nat) : t < T -> bst 0 t = (init t + emis t 0)%Q.
Proof.
  intro Ht. unfold bst, best. simpl. unfold first_column.
  apply nth_map_seq with (f := fun i => (init i + emis i 0)%Q). exact Ht.
Qed.

Lemma best_S (i t : nat) :
  t < T ->
  let k := argmax (tf (col i) t) in
  bst (S i) t = (bst i k + trans k t + emis t (S i))%Q.
Proof.
  intros Ht k. unfold bst, best. simpl. unfold next_column.
  rewrite nth_map_seq
    with (f := fun current_i =>
                 (nth (argmax (tags_for T trans (column T init trans emis i) current_i))
                      (tags_for T trans (column T init trans emis i) current_i) 0
                  + emis current_i (S i))%Q) by exact Ht.
  fold tf. fold col. fold k.
  rewrite tags_for_nth by apply tags_for_argmax. reflexivity.
Qed.

Lemma rpath_head (i t : nat) : exists rest, rp i t = t :: rest.
Proof. destruct i; simpl; eauto. Qed.

Lemma length_rpath (i t : nat) : length (rp i t) = S i.
Proof.
  revert t. induction i as [|i IH]; intro t; [reflexivity|].
  simpl. f_equal. apply IH.
Qed.

Lemma below_rpath (i t : nat) : t < T -> below T (rp i t).
Proof.
  revert t. induction i as [|i IH]; intros t Ht; simpl.
  - repeat constructor. exact Ht.
  - constructor; [exact Ht|]. apply IH. apply tags_for_argmax.
Qed.

Lemma best_rpath (i t : nat) : t < T -> bst i t = rsc (rp i t).
Proof.
  revert t. induction i as [|i IH]; intros t Ht.
  - rewrite best_0 by exact Ht. reflexivity.
  - rewrite best_S by exact Ht.
    change (rp (S i) t) with (t :: rp i (argmax (tf (col i) t))).
    set (k := argmax (tf (col i) t)).
    assert (Hk : k < T) by apply tags_for_argmax.
    pose proof (length_rpath i k) as HL.
    destruct (rpath_head i k) as [rest E].
    rewrite (IH k Hk). rewrite E in *. unfold rsc.
    rewrite rscore_cons, HL. reflexivity.
Qed.

(** Every path to tag [t] at position [i] scores at most [best i t], and
    strictly less when it comes before the backpointer path in
    lexicographic order, read last tag first. *)
Lemma rscore_best (i : nat) :
  forall t r, below T (t :: r) -> length r = i ->
    (rsc (t :: r) <= bst i t)%Q
    /\ (lex_lt (t :: r) (rp i t) -> (rsc (t :: r) < bst i t)%Q).
Proof.
  induction i as [|i IH]; intros t r Hb Hl.
  - destruct r; [|discriminate]. inversion Hb; subst.
    rewrite best_0 by assumption. unfold rsc. simpl. split; [apply Qle_refl|].
    intro H. exfalso. apply (lex_lt_irrefl H).
  - destruct r as [|p r]; [discriminate|].
    inversion Hb as [|? ? Ht Hb']; subst.
    assert (Hp : p < T) by (inversion Hb'; assumption).
    simpl in Hl. injection Hl as Hl.
    destruct (IH p r Hb' Hl) as [Hle Hlt].
    rewrite best_S by exact Ht.
    unfold rsc. rewrite rscore_cons. fold rsc.
    change (rp (S i) t) with (t :: rp i (argmax (tf (col i) t))).
    destruct (step_argmax i t) as [Hk [Hmax Hfirst]].
    set (k := argmax (tf (col i) t)) in *.
    specialize (Hmax p Hp).
    replace (length (p :: r)) with (S i) by (simpl; lia).
    split; [lra|].
    intro H. inversion H as [? ? ? ? Hlt'|? ? ? Htail]; [lia|].
    destruct (rpath_head i k) as [rest E].
    destruct (lt_eq_lt_dec p k) as [[Hpk|Hpk]|Hpk].
    + specialize (Hfirst p Hpk). lra.
    + subst p. specialize (Hlt Htail). lra.
    + exfalso. fold rp in Htail. rewrite E in Htail. inversion Htail; lia.
Qed.

Lemma forward_columns (n i : nat) (prev : list (list nat)) :
  forward T trans emis (col i) (S i) n prev
  = (col (i + n),
     map (fun k => back_column T trans (col k)) (rev (seq i n)) ++ prev).
Proof.
  revert i prev. induction n as [|n IH]; intros i prev.
  - simpl. rewrite Nat.add_0_r. reflexivity.
  - change (forward T trans emis (col i) (S i) (S n) prev)
      with (forward T trans emis (col (S i)) (S (S i)) n
              (back_column T trans (col i) :: prev)).
    rewrite IH. f_equal; [f_equal; lia|].
    simpl seq. simpl rev. rewrite map_app, <- app_assoc. reflexivity.
Qed.

Lemma backtrack_rpath (n t : nat) :
  t < T ->
  t :: backtrack t (map (fun k => back_column T trans (col k)) (rev (seq 0 n)))
  = rp n t.
Proof.
  revert t. induction n as [|n IH]; intros t Ht; [reflexivity|].
  rewrite seq_S, rev_app_distr. simpl.
  assert (E : nth t (back_column T trans (col n)) 0 = argmax (tf (col n) t)).
  { unfold back_column.
    apply nth_map_seq with (f := fun c => argmax (tags_for T trans (col n) c)).
    exact Ht. }
  rewrite E. f_equal. apply IH. apply tags_for_argmax.
Qed.

Lemma length_column (i : nat) : length (col i) = T.
Proof.
  destruct i; simpl; unfold first_column, next_column;
    rewrite length_map, length_seq; reflexivity.
Qed.

Lemma last_state_spec (i : nat) :
  let k := argmax (col i) in
  k < T
  /\ (forall t, t < T -> (bst i t <= bst i k)%Q)
  /\ (forall t, t < k -> (bst i t < bst i k)%Q).
Proof.
  intro k.
  assert (Hne : col i <> []).
  { intro E. pose proof (length_column i) as HL. rewrite E in HL. simpl in HL. lia. }
  destruct (argmax_spec Hne) as [Hk [Hmax Hfirst]].
  rewrite length_column in Hk, Hmax. auto.
Qed.

Lemma viterbi_returns (N : nat) :
  1 <= N -> viterbi T init trans emis N = Ok (vpath N).
Proof.
  intro HN. destruct N as [|n]; [lia|].
  unfold viterbi.
  change (first_column T init emis) with (col 0).
  rewrite forward_columns. simpl Nat.add. rewrite app_nil_r.
  rewrite match_pos by exact T_pos.
  unfold vpath, viterbi_path. simpl Nat.sub. rewrite Nat.sub_0_r.
  rewrite backtrack_rpath by apply last_state_spec. reflexivity.
Qed.

(** The decoded path is a maximum of the path score, and the first one in
    the enumeration whose last position varies slowest. *)
Lemma viterbi_path_optimal (N : nat) :
  1 <= N ->
  length (vpath N) = N
  /\ below T (vpath N)
  /\ (forall q, length q = N -> below T q ->
        (path_score init trans emis q <= path_score init trans emis (vpath N))%Q)
  /\ first_max (path_score init trans emis) (all_paths_last_major T N)
     = Some (vpath N).
Proof.
  intro HN. unfold vpath, viterbi_path. fold col. fold rp.
  destruct (last_state_spec (N - 1)) as [Hk [Hmax Hfirst]].
  set (k := argmax (col (N - 1))) in *.
  assert (HL : length (rp (N - 1) k) = N) by (rewrite length_rpath; lia).
  assert (HB : below T (rp (N - 1) k)) by (apply below_rpath; exact Hk).
  assert (Hopt : forall r, length r = N -> below T r ->
            (rsc r <= rsc (rp (N - 1) k))%Q
            /\ (lex_lt r (rp (N - 1) k) -> (rsc r < rsc (rp (N - 1) k))%Q)).
  { intros r Hr Hb. destruct r as [|t r]; [simpl in Hr; lia|].
    assert (Ht : t < T) by (inversion Hb; assumption).
    destruct (@rscore_best (N - 1) t r Hb) as [Hle Hlt]; [simpl in Hr; lia|].
    rewrite <- (best_rpath (N - 1) Hk).
    specialize (Hmax t Ht).
    split; [lra|]. intro H.
    destruct (rpath_head (N - 1) k) as [rest E].
    destruct (lt_eq_lt_dec t k) as [[Htk|Htk]|Htk].
    - specialize (Hfirst t Htk). lra.
    - subst t. specialize (Hlt H). lra.
    - exfalso. rewrite E in H. inversion H; lia. }
  split; [rewrite length_rev; exact HL|].
  split; [apply below_rev; exact HB|].
  split.
  - intros q Hq Hb.
    rewrite <- (rev_involutive q).
    rewrite !path_score_rev.
    apply Hopt; [rewrite length_rev; exact Hq|apply below_rev; exact Hb].
  - unfold all_paths_last_major. rewrite first_max_map.
    rewrite first_max_sorted with (lt := lex_lt) (x := rp (N - 1) k).
    + reflexivity.
    + apply all_paths_sorted.
    + apply in_all_paths. split; assumption.
    + intros y Hy. apply in_all_paths in Hy. destruct Hy as [Hy1 Hy2].
      rewrite !path_score_rev. apply Hopt; assumption.
    + intros y Hy Hlt. apply in_all_paths in Hy. destruct Hy as [Hy1 Hy2].
      rewrite !path_score_rev. apply Hopt; assumption.
Qed.

End ViterbiFacts.

(** ** Feature extraction in inference mode *)

Lemma returns_preserves {A} (c : IxM A) : returns c -> preserves c.
Proof. intros H ix. destruct (H ix) as [a ->]. reflexivity. Qed.

Lemma preserves_ret {A} (a : A) : preserves (ix_ret a).
Proof. intro ix. reflexivity. Qed.

Lemma preserves_raise {A} (e : exn) : preserves (@ix_raise A e).
Proof. intro ix. reflexivity. Qed.

Lemma preserves_bind {A B} (c : IxM A) (k : A -> IxM B) :
  preserves c -> (forall a, preserves (k a)) -> preserves (ix_bind c k).
Proof.
  intros Hc Hk ix. unfold ix_bind. specialize (Hc ix).
  destruct (c ix) as [ix' [a|e]]; simpl in Hc; subst ix'; [apply Hk|reflexivity].
Qed.

Lemma preserves_fold {A B} (f : B -> A -> IxM B) (l : list A) (b : B) :
  (forall b a, preserves (f b a)) -> preserves (ix_fold f l b).
Proof.
  intro Hf. revert b. induction l as [|a l IH]; intro b; simpl.
  - apply preserves_ret.
  - apply preserves_bind; [apply Hf|exact IH].
Qed.

Lemma preserves_map {A B} (f : A -> IxM B) (l : list A) :
  (forall a, preserves (f a)) -> preserves (ix_map f l).
Proof.
  intro Hf. induction l as [|a l IH]; simpl.
  - apply preserves_ret.
  - apply preserves_bind; [apply Hf|]. intro b.
    apply preserves_bind; [exact IH|]. intro bs. apply preserves_ret.
Qed.

Lemma returns_ret {A} (a : A) : returns (ix_ret a).
Proof. intro ix. exists a. reflexivity. Qed.

Lemma returns_bind {A B} (c : IxM A) (k : A -> IxM B) :
  returns c -> (forall a, returns (k a)) -> returns (ix_bind c k).
Proof.
  intros Hc Hk ix. unfold ix_bind. destruct (Hc ix) as [a ->]. apply Hk.
Qed.

Lemma returns_fold {A B} (f : B -> A -> IxM B) (l : list A) (b : B) :
  (forall b a, returns (f b a)) -> returns (ix_fold f l b).
Proof.
  intro Hf. revert b. induction l as [|a l IH]; intro b; simpl.
  - apply returns_ret.
  - apply returns_bind; [apply Hf|exact IH].
Qed.

Lemma returns_map_in {A B} (f : A -> IxM B) (l : list A) :
  (forall a, In a l -> returns (f a)) ->
  forall ix, exists bs, ix_map f l ix = (ix, Ok bs) /\ length bs = length l.
Proof.
  induction l as [|a l IH]; intros Hf ix; simpl.
  - exists []. split; reflexivity.
  - unfold ix_bind. destruct (Hf a (or_introl eq_refl) ix) as [b ->].
    destruct (IH (fun x Hx => Hf x (or_intror Hx)) ix) as [bs [-> Hl]].
    exists (b :: bs). split; [reflexivity|simpl; congruence].
Qed.

Lemma returns_maybe_add_feature (feats : list nat) (feat : string) :
  returns (maybe_add_feature feats false feat).
Proof.
  intro ix. unfold maybe_add_feature.
  destruct (Indexer.index_of ix feat =? -1)%Z; eauto.
Qed.

Lemma preserves_extract (sentence_tokens : list Token) (word_index : nat) (tag : string) :
  preserves (extract_emission_features sentence_tokens word_index tag false).
Proof.
  unfold extract_emission_features.
  destruct (nth_error sentence_tokens word_index) as [tok|]; [|apply preserves_raise].
  apply preserves_bind.
  { apply preserves_fold. intros b a. apply preserves_bind.
    - apply returns_preserves, returns_maybe_add_feature.
    - intro. apply returns_preserves, returns_maybe_add_feature. }
  intro feats. apply preserves_bind.
  { apply preserves_fold. intros b a. apply preserves_bind.
    - apply returns_preserves, returns_maybe_add_feature.
    - intro. apply returns_preserves, returns_maybe_add_feature. }
  intro feats'. destruct (word tok); [apply preserves_raise|].
  apply preserves_bind.
  - apply returns_preserves, returns_maybe_add_feature.
  - intro. apply returns_preserves, returns_maybe_add_feature.
Qed.

Lemma returns_extract (sentence_tokens : list Token) (word_index : nat) (tag : string)
    (tok : Token) :
  nth_error sentence_tokens word_index = Some tok ->
  word tok <> EmptyString ->
  returns (extract_emission_features sentence_tokens word_index tag false).
Proof.
  intros Hn Hw. unfold extract_emission_features. rewrite Hn.
  apply returns_bind.
  { apply returns_fold. intros b a. apply returns_bind.
    - apply returns_maybe_add_feature.
    - intro. apply returns_maybe_add_feature. }
  intro feats. apply returns_bind.
  { apply returns_fold. intros b a. apply returns_bind.
    - apply returns_maybe_add_feature.
    - intro. apply returns_maybe_add_feature. }
  intro feats'. destruct (word tok); [congruence|].
  apply returns_bind.
  - apply returns_maybe_add_feature.
  - intro. apply returns_maybe_add_feature.
Qed.

Lemma preserves_build_feature_cache (tag_indexer : Indexer.t) (sentence_tokens : list Token) :
  preserves (build_feature_cache tag_indexer sentence_tokens false).
Proof.
  unfold build_feature_cache. apply preserves_map. intro word_idx.
  apply preserves_map. intro tag_idx.
  destruct (Indexer.get_object tag_indexer tag_idx);
    [apply preserves_extract|apply preserves_raise].
Qed.

Lemma build_feature_cache_no_tags (tag_indexer : Indexer.t) (sentence_tokens : list Token) :
  Indexer.len tag_indexer = 0 ->
  forall ix, exists cache,
    build_feature_cache tag_indexer sentence_tokens false ix = (ix, Ok cache).
Proof.
  intros HT ix. unfold build_feature_cache. rewrite HT.
  destruct (returns_map_in
              (fun _ : nat => ix_map (fun tag_idx =>
                           match Indexer.get_object tag_indexer tag_idx with
                           | Some tag =>
                               extract_emission_features sentence_tokens 0 tag false
                           | None => ix_raise none_is_not_a_string
                           end) (seq 0 0))
              (seq 0 (length sentence_tokens))) with (ix := ix) as [cache [E _]].
  - intros a _. simpl. apply returns_ret.
  - exists cache. exact E.
Qed.

Lemma returns_build_feature_cache (tag_indexer : Indexer.t) (sentence_tokens : list Token) :
  nonempty_words sentence_tokens = true ->
  forall ix, exists cache,
    build_feature_cache tag_indexer sentence_tokens false ix = (ix, Ok cache)
    /\ length cache = length sentence_tokens.
Proof.
  intros Hw ix. unfold build_feature_cache.
  destruct (returns_map_in
              (fun word_idx =>
                 ix_map (fun tag_idx =>
                           match Indexer.get_object tag_indexer tag_idx with
                           | Some tag =>
                               extract_emission_features sentence_tokens word_idx tag false
                           | None => ix_raise none_is_not_a_string
                           end)
                        (seq 0 (Indexer.len tag_indexer)))
              (seq 0 (length sentence_tokens))) with (ix := ix) as [cache [E HL]].
  - intros word_idx Hin ix'. apply in_seq in Hin.
    destruct (nth_error sentence_tokens word_idx) as [tok|] eqn:Hn.
    2:{ apply nth_error_None in Hn. lia. }
    assert (Htok : word tok <> EmptyString).
    { unfold nonempty_words in Hw. rewrite forallb_forall in Hw.
      specialize (Hw tok (nth_error_In _ _ Hn)).
      apply negb_true_iff in Hw. apply String.eqb_neq in Hw. exact Hw. }
    destruct (returns_map_in
                (fun tag_idx =>
                   match Indexer.get_object tag_indexer tag_idx with
                   | Some tag =>
                       extract_emission_features sentence_tokens word_idx tag false
                   | None => ix_raise none_is_not_a_string
                   end)
                (seq 0 (Indexer.len tag_indexer))) with (ix := ix') as [row [E _]].
    + intros tag_idx Hin'. apply in_seq in Hin'.
      unfold Indexer.get_object, Indexer.len in *.
      destruct (nth_error tag_indexer tag_idx) as [tag|] eqn:Ht.
      * eapply returns_extract; eassumption.
      * apply nth_error_None in Ht. lia.
    + exists row. exact E.
  - exists cache. rewrite length_seq in HL. split; assumption.
Qed.

(** ** The decoders *)

Lemma chain_score_ext (trans emis emis' : nat -> nat -> Q) (path : list nat) (prev i : nat) :
  (forall t k, emis t k = emis' t k) ->
  chain_score trans emis prev i path = chain_score trans emis' prev i path.
Proof.
  intro He. revert prev i. induction path as [|t path IH]; intros prev i; simpl.
  - reflexivity.
  - rewrite He, IH. reflexivity.
Qed.

Lemma path_score_ext (init : nat -> Q) (trans emis emis' : nat -> nat -> Q) (path : list nat) :
  (forall t k, emis t k = emis' t k) ->
  path_score init trans emis path = path_score init trans emis' path.
Proof.
  intro He. destruct path as [|t path]; simpl; [reflexivity|].
  rewrite He, (@chain_score_ext trans emis emis' path t 1 He). reflexivity.
Qed.

Lemma first_max_ext {A} (score score' : A -> Q) (l : list A) :
  (forall x, score x = score' x) -> first_max score l = first_max score' l.
Proof.
  intro He. destruct l as [|b l]; simpl; [reflexivity|]. f_equal.
  revert b. induction l as [|p l IH]; intro b; simpl; [reflexivity|].
  rewrite !He. destruct (Qltb (score' b) (score' p)); apply IH.
Qed.

Lemma hmm_word_index (m : HmmNerModel.t Q) (tk : Token) :
  HmmNerModel.word_index m tk
  = if Indexer.contains (HmmNerModel.word_indexer m) (word tk)
    then Indexer.index_of (HmmNerModel.word_indexer m) (word tk)
    else Indexer.index_of (HmmNerModel.word_indexer m) "UNK".
Proof.
  unfold HmmNerModel.word_index, Indexer.contains, Indexer.index_of.
  destruct (Indexer.position (HmmNerModel.word_indexer m) (word tk) 0) as [i|].
  - replace (Z.of_nat i =? -1)%Z with false by (symmetry; apply Z.eqb_neq; lia).
    reflexivity.
  - reflexivity.
Qed.

Lemma hmm_decode_first_max (m : HmmNerModel.t Q) (sentence_tokens : list Token) :
  sentence_tokens <> [] ->
  0 < length (HmmNerModel.init_log_probs m) ->
  let T := length (HmmNerModel.init_log_probs m) in
  let N := length sentence_tokens in
  exists path,
    HmmNerModel.best_indices m sentence_tokens = Ok path
    /\ HmmNerModel.decode m sentence_tokens
       = Ok (map (Indexer.get_object (HmmNerModel.tag_indexer m)) path)
    /\ maximises T N (hmm_path_score m sentence_tokens) path
    /\ brute_force_last_major T N (hmm_path_score m sentence_tokens) = Some path.
Proof.
  intros Hne HT T N.
  assert (HN : 1 <= N) by (subst N; destruct sentence_tokens; [congruence|simpl; lia]).
  set (init := fun i =>
         ProbabilisticSequenceScorer.table1 (HmmNerModel.init_log_probs m) (Z.of_nat i)).
  set (trans := fun prev_i current_i =>
         ProbabilisticSequenceScorer.table2 (HmmNerModel.transition_log_probs m)
           (Z.of_nat prev_i) (Z.of_nat current_i)).
  set (emis := fun i token =>
         match nth_error sentence_tokens token with
         | Some tk =>
             ProbabilisticSequenceScorer.table2 (HmmNerModel.emission_log_probs m)
               (Z.of_nat i) (HmmNerModel.word_index m tk)
         | None => 0%Q
         end).
  assert (Hsc : forall p, path_score init trans emis p = hmm_path_score m sentence_tokens p).
  { intro p. unfold hmm_path_score. apply path_score_ext. intros t k.
    unfold emis, ProbabilisticSequenceScorer.score_emission. simpl.
    destruct (nth_error sentence_tokens k) as [tk|]; [|reflexivity].
    rewrite hmm_word_index. reflexivity. }
  exists (viterbi_path T init trans emis N).
  assert (E : HmmNerModel.best_indices m sentence_tokens
              = Ok (viterbi_path T init trans emis N))
    by (apply (viterbi_returns init trans emis HT HN)).
  destruct (viterbi_path_optimal init trans emis HT HN) as [HL [HB [Hmax Hfirst]]].
  split; [exact E|]. split.
  { unfold HmmNerModel.decode. rewrite E. reflexivity. }
  split.
  - split; [exact HL|]. split; [exact HB|].
    intros q Hq Hb. rewrite <- !Hsc. apply Hmax; assumption.
  - unfold brute_force_last_major. etransitivity; [|exact Hfirst].
    apply first_max_ext. intro x. symmetry. apply Hsc.
Qed.

Lemma crf_decode_first_max (m : CrfNerModel.t) (sentence_tokens : list Token) :
  sentence_tokens <> [] ->
  0 < Indexer.len (CrfNerModel.tag_indexer m) ->
  nonempty_words sentence_tokens = true ->
  let T := Indexer.len (CrfNerModel.tag_indexer m) in
  let N := length sentence_tokens in
  exists feature_cache path,
    feature_cache_of m sentence_tokens = Ok feature_cache
    /\ CrfNerModel.best_indices m feature_cache sentence_tokens = Ok path
    /\ snd (CrfNerModel.decode m sentence_tokens) = Ok (CrfNerModel.pred_tags m path)
    /\ maximises T N (crf_path_score m feature_cache) path
    /\ brute_force_last_major T N (crf_path_score m feature_cache) = Some path.
Proof.
  intros Hne HT Hw T N.
  assert (HN : 1 <= N) by (subst N; destruct sentence_tokens; [congruence|simpl; lia]).
  destruct (returns_build_feature_cache (CrfNerModel.tag_indexer m) sentence_tokens Hw
              (CrfNerModel.feature_indexer m)) as [cache [Ec _]].
  set (sc := CrfNerModel.scorer m cache).
  exists cache.
  exists (viterbi_path T (FeatureBasedSequenceScorer.score_init sc)
            (FeatureBasedSequenceScorer.score_transition sc)
            (FeatureBasedSequenceScorer.score_emission sc) N).
  assert (E : CrfNerModel.best_indices m cache sentence_tokens
              = Ok (viterbi_path T (FeatureBasedSequenceScorer.score_init sc)
                      (FeatureBasedSequenceScorer.score_transition sc)
                      (FeatureBasedSequenceScorer.score_emission sc) N))
    by (apply (viterbi_returns _ _ _ HT HN)).
  destruct (viterbi_path_optimal (FeatureBasedSequenceScorer.score_init sc)
              (FeatureBasedSequenceScorer.score_transition sc)
              (FeatureBasedSequenceScorer.score_emission sc) HT HN)
    as [HL [HB [Hmax Hfirst]]].
  split; [unfold feature_cache_of; rewrite Ec; reflexivity|].
  split; [exact E|]. split.
  { unfold CrfNerModel.decode. rewrite Ec. simpl. rewrite E. reflexivity. }
  split; [|exact Hfirst].
  split; [exact HL|]. split; [exact HB|exact Hmax].
Qed.

(** C1 (as amended).  On a non-empty sentence, [HmmNerModel.decode] (with
    at least one tag and tables of the documented shapes) and
    [CrfNerModel.decode] (with at least one tag and no empty word, so that
    the feature cache is filled) return the tags of a sequence of length N
    that attains the maximum of the path score over all T^N tag sequences;
    among the sequences attaining the maximum it is the one brute-force
    enumeration with first-seen tie-breaking finds when the last position
    varies slowest.  Each decoder is held to its own conditions only: an
    empty word does not hinder the HMM. *)
Theorem decode_is_first_maximum_last_major
    (hmm : HmmNerModel.t Q) (crf : CrfNerModel.t) (sentence_tokens : list Token) :
  sentence_tokens <> [] ->
  let N := length sentence_tokens in
  (HmmNerModel.well_shaped hmm = true ->
   0 < length (HmmNerModel.init_log_probs hmm) ->
   exists path,
     HmmNerModel.decode hmm sentence_tokens
     = Ok (map (Indexer.get_object (HmmNerModel.tag_indexer hmm)) path)
     /\ maximises (length (HmmNerModel.init_log_probs hmm)) N
          (hmm_path_score hmm sentence_tokens) path
     /\ brute_force_last_major (length (HmmNerModel.init_log_probs hmm)) N
          (hmm_path_score hmm sentence_tokens) = Some path)
  /\ (0 < Indexer.len (CrfNerModel.tag_indexer crf) ->
      nonempty_words sentence_tokens = true ->
      exists feature_cache path,
        feature_cache_of crf sentence_tokens = Ok feature_cache
        /\ snd (CrfNerModel.decode crf sentence_tokens) = Ok (CrfNerModel.pred_tags crf path)
        /\ maximises (Indexer.len (CrfNerModel.tag_indexer crf)) N
             (crf_path_score crf feature_cache) path
        /\ brute_force_last_major (Indexer.len (CrfNerModel.tag_indexer crf)) N
             (crf_path_score crf feature_cache) = Some path).
Proof.
  intros Hne N. split.
  - intros _ HTh.
    destruct (hmm_decode_first_max hmm Hne HTh) as [path [_ [Hd [Hm Hb]]]].
    exists path. auto.
  - intros HTc Hw.
    destruct (crf_decode_first_max crf Hne HTc Hw) as [cache [path [Hc [_ [Hd [Hm Hb]]]]]].
    exists cache, path. auto.
Qed.

Lemma decode_is_first_maximum_last_major_witness :
  let N := length with_empty_word in
  (exists path,
     HmmNerModel.decode tie_model with_empty_word
     = Ok (map (Indexer.get_object (HmmNerModel.tag_indexer tie_model)) path)
     /\ maximises (length (HmmNerModel.init_log_probs tie_model)) N
          (hmm_path_score tie_model with_empty_word) path
     /\ brute_force_last_major (length (HmmNerModel.init_log_probs tie_model)) N
          (hmm_path_score tie_model with_empty_word) = Some path)
  /\ (let N := length two_words in
      exists feature_cache path,
        feature_cache_of heavy_model two_words = Ok feature_cache
        /\ snd (CrfNerModel.decode heavy_model two_words)
           = Ok (CrfNerModel.pred_tags heavy_model path)
        /\ maximises (Indexer.len (CrfNerModel.tag_indexer heavy_model)) N
             (crf_path_score heavy_model feature_cache) path
        /\ brute_force_last_major (Indexer.len (CrfNerModel.tag_indexer heavy_model)) N
             (crf_path_score heavy_model feature_cache) = Some path).
Proof.
  split.
  - apply (@decode_is_first_maximum_last_major tie_model heavy_model with_empty_word).
    + discriminate.
    + reflexivity.
    + simpl. lia.
  - apply (@decode_is_first_maximum_last_major tie_model heavy_model two_words).
    + discriminate.
    + simpl. lia.
    + reflexivity.
Defined.

(** C1, as stated, fails: with the sequences enumerated in lexicographic
    order (first position slowest), first-seen brute force returns [0; 1] on
    the tie of the HMM, where the decoder returns [1; 0]; and it returns
    O B-LOC on the tie of the CRF, where the decoder returns B-PER I-PER. *)
Lemma decode_differs_from_lexicographic_brute_force :
  (HmmNerModel.best_indices tie_model two_words = Ok [1; 0]
   /\ HmmNerModel.decode tie_model two_words = Ok [Some "B-PER"; Some "O"]%string
   /\ brute_force 2 2 (hmm_path_score tie_model two_words) = Some [0; 1]
   /\ Qeq (hmm_path_score tie_model two_words [1; 0])
          (hmm_path_score tie_model two_words [0; 1]))
  /\ (feature_cache_of tie_crf two_words = Ok tie_cache
      /\ CrfNerModel.best_indices tie_crf tie_cache two_words = Ok [1; 2]
      /\ snd (CrfNerModel.decode tie_crf two_words) = Ok [Some "B-PER"; Some "I-PER"]%string
      /\ brute_force 4 2 (crf_path_score tie_crf tie_cache) = Some [0; 3]
      /\ Qeq (crf_path_score tie_crf tie_cache [1; 2]) (crf_path_score tie_crf tie_cache [0; 3])).
Proof. vm_compute. repeat split; reflexivity. Qed.

(** ** The empty sentence *)

Lemma with_feature_indexer_same (m : CrfNerModel.t) :
  CrfNerModel.with_feature_indexer m (CrfNerModel.feature_indexer m) = m.
Proof. destruct m. reflexivity. Qed.

(** C7 (as amended).  On the empty token sequence both Viterbi decoders
    fail, and return no labeled sentence; the failure is numpy's
    [ValueError] for the negative dimension of the backpointer matrix
    [np.zeros((num_tags, -1))], there being no check of the input. *)
Theorem decode_empty_raises_value_error (hmm : HmmNerModel.t Q) (crf : CrfNerModel.t) :
  HmmNerModel.decode hmm [] = Raise negative_dimensions
  /\ CrfNerModel.decode crf [] = (crf, Raise negative_dimensions).
Proof.
  split; [reflexivity|].
  unfold CrfNerModel.decode. simpl.
  rewrite with_feature_indexer_same. reflexivity.
Qed.

(** C7, as stated, fails: the condition raised on the empty sentence is not
    [InvalidInput]. *)
Lemma decode_empty_is_not_invalid_input :
  HmmNerModel.decode tie_model [] <> Raise InvalidInput
  /\ snd (CrfNerModel.decode heavy_model []) <> Raise InvalidInput.
Proof. split; vm_compute; discriminate. Qed.

(** ** Decoding leaves the model alone *)

(** C9.  [CrfNerModel.decode] and [CrfNerModel.decode_beam] leave the tag
    indexer, the feature indexer and the weight vector as they found them,
    whether they return or raise: feature extraction runs in inference mode,
    where an unseen feature string is skipped and never registered. *)
Theorem decode_preserves_model (m : CrfNerModel.t) (sentence_tokens : list Token) :
  fst (CrfNerModel.decode m sentence_tokens) = m
  /\ fst (CrfNerModel.decode_beam m sentence_tokens) = m.
Proof.
  pose proof (preserves_build_feature_cache (CrfNerModel.tag_indexer m) sentence_tokens
                (CrfNerModel.feature_indexer m)) as H.
  unfold CrfNerModel.decode, CrfNerModel.decode_beam.
  destruct (build_feature_cache (CrfNerModel.tag_indexer m) sentence_tokens false
              (CrfNerModel.feature_indexer m)) as [ix' r].
  simpl in *. subst ix'. rewrite with_feature_indexer_same. split; reflexivity.
Qed.

(** ** Beam search *)

Lemma fold_raise {A B} (f : result A -> B -> result A) (l : list B) (e : exn) :
  (forall x, f (Raise e) x = Raise e) -> fold_left f l (Raise e) = Raise e.
Proof.
  intro Hf. induction l as [|x l IH]; simpl; [reflexivity|]. rewrite Hf. exact IH.
Qed.

Lemma length_beam_insert {A} (elt : A) (score : Q) (l : list (A * Q)) :
  length (Beam.insert elt score l) = S (length l).
Proof.
  induction l as [|[e s] l IH]; simpl; [reflexivity|].
  destruct (Qltb s score); simpl; [reflexivity|]. rewrite IH. reflexivity.
Qed.

Lemma length_beam_adds {A} (f : nat -> A * Q) (l : list nat) (b : Beam.t A) :
  length (Beam.elts b) <= Beam.size b ->
  let b' := fold_left (fun b i => Beam.add b (fst (f i)) (snd (f i))) l b in
  Beam.size b' = Beam.size b
  /\ length (Beam.elts b') = Nat.min (length (Beam.elts b) + length l) (Beam.size b).
Proof.
  revert b. induction l as [|i l IH]; intros b Hb; simpl.
  - split; [reflexivity|]. rewrite Nat.add_0_r. lia.
  - set (b1 := Beam.add b (fst (f i)) (snd (f i))).
    assert (Hs : Beam.size b1 = Beam.size b) by reflexivity.
    assert (Hl : length (Beam.elts b1) = Nat.min (Beam.size b) (S (length (Beam.elts b)))).
    { unfold b1, Beam.add. simpl. rewrite length_firstn, length_beam_insert. reflexivity. }
    destruct (IH b1) as [Hs' Hl']; [lia|].
    split; [congruence|]. rewrite Hl', Hs, Hl. lia.
Qed.

Lemma length_init_beam (T : nat) (init : nat -> Q) (emis : nat -> nat -> Q) :
  length (Beam.elts (CrfNerModel.init_beam T init emis)) = Nat.min T CrfNerModel.beam_size.
Proof.
  unfold CrfNerModel.init_beam.
  destruct (@length_beam_adds (list nat)
              (fun i => ([i], (init i + emis i 0%nat)%Q)) (seq 0 T)
              (Beam.new CrfNerModel.beam_size)) as [_ H].
  - simpl. lia.
  - simpl in H. rewrite length_seq in H. exact H.
Qed.

Section ExpandFacts.

Variable T : nat.
Variable trans emis : nat -> nat -> Q.
Variable tags : list (list nat).
Variable scores : list Q.
Variable token : nat.

Lemma extend_out_of_range (nb : Beam.t (list nat)) (i : nat) :
  0 < T -> nth_error tags i = None ->
  CrfNerModel.extend_hypothesis T trans emis tags scores token nb i
  = Raise tuple_index_out_of_range.
Proof.
  intros HT Hn. unfold CrfNerModel.extend_hypothesis.
  destruct T as [|T']; [lia|].
  simpl. rewrite Hn. apply fold_raise. intro x. reflexivity.
Qed.

Lemma extend_in_range (nb : Beam.t (list nat)) (i : nat) :
  i < length tags -> length scores = length tags ->
  exists nb', CrfNerModel.extend_hypothesis T trans emis tags scores token nb i = Ok nb'.
Proof.
  intros Hi Hl. unfold CrfNerModel.extend_hypothesis.
  destruct (nth_error tags i) as [tags_i|] eqn:Et.
  2:{ apply nth_error_None in Et. lia. }
  destruct (nth_error scores i) as [scores_i|] eqn:Es.
  2:{ apply nth_error_None in Es. lia. }
  generalize (seq 0 T). intro l. revert nb.
  induction l as [|c l IH]; intro nb; simpl; [eauto|apply IH].
Qed.

Lemma extend_prefix (l : list nat) (nb : Beam.t (list nat)) :
  (forall i, In i l -> i < length tags) -> length scores = length tags ->
  exists nb',
    fold_left (fun acc i =>
                 bind_result acc (fun next_beam =>
                 CrfNerModel.extend_hypothesis T trans emis tags scores token next_beam i))
              l (Ok nb) = Ok nb'.
Proof.
  intros Hin Hl. revert nb.
  induction l as [|i l IH]; intro nb; simpl; [eauto|].
  destruct (@extend_in_range nb i) as [nb' ->]; [apply Hin; left; reflexivity|exact Hl|].
  apply IH. intros j Hj. apply Hin. right. exact Hj.
Qed.

End ExpandFacts.

Lemma expand_small_beam (T : nat) (trans emis : nat -> nat -> Q)
    (st : CrfNerModel.beams) (token : nat) :
  0 < T ->
  0 < length (Beam.elts (CrfNerModel.current st)) < CrfNerModel.beam_size ->
  CrfNerModel.expand T trans emis st token = Raise tuple_index_out_of_range.
Proof.
  intros HT [H0 H9]. unfold CrfNerModel.expand, Beam.get_elts_and_scores.
  destruct (Beam.elts (CrfNerModel.current st)) as [|e0 rest] eqn:E; [simpl in H0; lia|].
  set (elts := e0 :: rest) in *.
  set (tags := map fst elts). set (scores := map snd elts).
  assert (Ht : length tags = length elts) by apply length_map.
  assert (Hs : length scores = length tags) by (unfold scores, tags; rewrite !length_map; reflexivity).
  set (L := length elts) in *.
  assert (Hseq : seq 0 CrfNerModel.beam_size
                 = seq 0 L ++ L :: seq (S L) (CrfNerModel.beam_size - S L)).
  { replace CrfNerModel.beam_size with (L + S (CrfNerModel.beam_size - S L)) at 1 by lia.
    rewrite seq_app. reflexivity. }
  rewrite Hseq, fold_left_app.
  destruct (@extend_prefix T trans emis tags scores token (seq 0 L)
              (CrfNerModel.second_beam st)) as [nb ->].
  - intros i Hi. apply in_seq in Hi. lia.
  - exact Hs.
  - simpl. rewrite extend_out_of_range; [|exact HT|apply nth_error_None; lia].
    rewrite fold_raise by (intro x; reflexivity).
    reflexivity.
Qed.

Lemma beam_search_small_tag_set (T : nat) (init : nat -> Q) (trans emis : nat -> nat -> Q)
    (N : nat) :
  2 <= N -> T < CrfNerModel.beam_size ->
  CrfNerModel.beam_search T init trans emis N
  = Raise (if T =? 0 then unpack_of_empty else tuple_index_out_of_range).
Proof.
  intros HN HT. unfold CrfNerModel.beam_search.
  destruct N as [|[|n]]; [lia|lia|].
  replace (S (S n) - 1) with (S n) by lia.
  change (seq 1 (S n)) with (1 :: seq 2 n).
  cbn [fold_left bind_result].
  set (st0 := {| CrfNerModel.first_beam := CrfNerModel.init_beam T init emis;
                 CrfNerModel.second_beam := Beam.new CrfNerModel.beam_size;
                 CrfNerModel.current_beam := CrfNerModel.FirstBeam |}).
  assert (E : CrfNerModel.expand T trans emis st0 1
              = Raise (if T =? 0 then unpack_of_empty else tuple_index_out_of_range)).
  { destruct T as [|T'].
    - reflexivity.
    - apply expand_small_beam; [lia|].
      unfold st0, CrfNerModel.current. simpl CrfNerModel.current_beam.
      cbn [CrfNerModel.first_beam]. rewrite length_init_beam. lia. }
  rewrite E.
  rewrite fold_raise by (intro x; reflexivity).
  reflexivity.
Qed.

(** C10.  On a sentence of at least two tokens with fewer than nine tags,
    [decode_beam] raises instead of returning a labeled sentence.  The beam
    holds T hypotheses after initialization; with at least one tag and a
    filled feature cache the exception is the [IndexError] of reading
    [tags[T]] in the first expansion (with no tag at all, unpacking the
    empty beam fails before any read). *)
Theorem decode_beam_raises_on_small_tag_sets (m : CrfNerModel.t) (sentence_tokens : list Token) :
  2 <= length sentence_tokens ->
  Indexer.len (CrfNerModel.tag_indexer m) < CrfNerModel.beam_size ->
  let T := Indexer.len (CrfNerModel.tag_indexer m) in
  (forall init emis, length (Beam.elts (CrfNerModel.init_beam T init emis)) = T)
  /\ exists e,
       snd (CrfNerModel.decode_beam m sentence_tokens) = Raise e
       /\ (0 < T -> nonempty_words sentence_tokens = true -> e = tuple_index_out_of_range)
       /\ (T = 0 -> e = unpack_of_empty).
Proof.
  intros HN HT T. split.
  { intros init emis. rewrite length_init_beam. unfold T. lia. }
  unfold CrfNerModel.decode_beam.
  pose proof (returns_build_feature_cache (CrfNerModel.tag_indexer m) sentence_tokens) as Hret.
  pose proof (@build_feature_cache_no_tags (CrfNerModel.tag_indexer m) sentence_tokens) as Hnone.
  destruct (build_feature_cache (CrfNerModel.tag_indexer m) sentence_tokens false
              (CrfNerModel.feature_indexer m)) as [ix' [cache|e]] eqn:Ec; simpl.
  - rewrite beam_search_small_tag_set by assumption. simpl.
    eexists. split; [reflexivity|]. fold T. split.
    + intros HT0 _. destruct T; [lia|reflexivity].
    + intros ->. reflexivity.
  - exists e. split; [reflexivity|]. split.
    + intros _ Hw.
      destruct (Hret Hw (CrfNerModel.feature_indexer m)) as [cache [Ec' _]].
      rewrite Ec' in Ec. discriminate.
    + intro HT0.
      destruct (Hnone HT0 (CrfNerModel.feature_indexer m)) as [cache Ec'].
      rewrite Ec' in Ec. discriminate.
Qed.

Lemma decode_beam_raises_on_small_tag_sets_witness :
  let T := Indexer.len (CrfNerModel.tag_indexer heavy_model) in
  (forall init emis, length (Beam.elts (CrfNerModel.init_beam T init emis)) = T)
  /\ exists e,
       snd (CrfNerModel.decode_beam heavy_model two_words) = Raise e
       /\ (0 < T -> nonempty_words two_words = true -> e = tuple_index_out_of_range)
       /\ (T = 0 -> e = unpack_of_empty).
Proof.
  apply (@decode_beam_raises_on_small_tag_sets heavy_model two_words).
  - simpl. lia.
  - unfold CrfNerModel.beam_size. simpl. lia.
Defined.

(** C4 fails on the code.  With nine tags and three tokens whose emission
    scores are all negative, the hypotheses of length two stay in the beam
    object that [current_beam] and [next_beam] both name after the first
    expansion, outscore every extension, and the decoder returns two tags
    for three tokens, where the Viterbi decoder returns three. *)
Theorem decode_beam_returns_short_hypothesis :
  length three_words = 3
  /\ snd (CrfNerModel.decode_beam nine_tag_model three_words) = Ok [Some "O"; Some "O"]%string
  /\ snd (CrfNerModel.decode nine_tag_model three_words)
     = Ok [Some "O"; Some "O"; Some "O"]%string.
Proof. vm_compute. repeat split; reflexivity. Qed.

(** ** Hard penalties of the feature-based scorer *)











Section Penalties.

Variable sc : FeatureBasedSequenceScorer.t Q.

Let init := FeatureBasedSequenceScorer.score_init sc.
Let trans := FeatureBasedSequenceScorer.score_transition sc.
Let tag := FeatureBasedSequenceScorer.tag_of sc.







End Penalties.

(** ** BIO tags *)













(** ** The indexer *)

Lemma position_bound (ix : Indexer.t) (s : string) (k i : nat) :
  Indexer.position ix s k = Some i -> k <= i < k + length ix.
Proof.
  revert k. induction ix as [|x ix IH]; intros k H; simpl in *; [discriminate|].
  destruct (String.eqb x s).
  - injection H as <-. lia.
  - apply IH in H. lia.
Qed.

Lemma position_nth (ix : Indexer.t) (s : string) (k i : nat) :
  Indexer.position ix s k = Some i -> nth_error ix (i - k) = Some s.
Proof.
  revert k. induction ix as [|x ix IH]; intros k H; simpl in *; [discriminate|].
  destruct (String.eqb x s) eqn:E.
  - injection H as <-. apply String.eqb_eq in E. subst. rewrite Nat.sub_diag. reflexivity.
  - pose proof (position_bound _ _ _ H) as Hb. apply IH in H.
    replace (i - k) with (S (i - S k)) by lia. exact H.
Qed.

Lemma position_in (ix : Indexer.t) (s : string) (k : nat) :
  In s ix <-> exists i, Indexer.position ix s k = Some i.
Proof.
  revert k. induction ix as [|x ix IH]; intro k; simpl.
  - split; [intros []|intros [i H]; discriminate].
  - destruct (String.eqb x s) eqn:E.
    + apply String.eqb_eq in E. split; [eauto|auto].
    + apply String.eqb_neq in E. rewrite <- (IH (S k)). tauto.
Qed.

Lemma position_app_some (ix l : Indexer.t) (s : string) (k i : nat) :
  Indexer.position ix s k = Some i -> Indexer.position (ix ++ l) s k = Some i.
Proof.
  revert k. induction ix as [|x ix IH]; intros k H; simpl in *; [discriminate|].
  destruct (String.eqb x s); [exact H|apply IH; exact H].
Qed.

Lemma position_app_none (ix l : Indexer.t) (s : string) (k : nat) :
  Indexer.position ix s k = None ->
  Indexer.position (ix ++ l) s k = Indexer.position l s (k + length ix).
Proof.
  revert k. induction ix as [|x ix IH]; intros k H; simpl in *.
  - rewrite Nat.add_0_r. reflexivity.
  - destruct (String.eqb x s); [discriminate|].
    rewrite IH by exact H. f_equal. lia.
Qed.

Lemma add_and_get_index_spec (ix : Indexer.t) (s : string) :
  let ix' := fst (Indexer.add_and_get_index ix s) in
  let i := snd (Indexer.add_and_get_index ix s) in
  Indexer.position ix' s 0 = Some i
  /\ i < length ix'
  /\ (ix' = ix \/ (ix' = ix ++ [s] /\ ~ In s ix)).
Proof.
  unfold Indexer.add_and_get_index.
  destruct (Indexer.position ix s 0) as [i|] eqn:E; simpl.
  - split; [exact E|]. split; [|left; reflexivity].
    apply position_bound in E. lia.
  - split; [|split].
    + rewrite position_app_none by exact E. simpl. rewrite String.eqb_refl. reflexivity.
    + rewrite length_app. simpl. lia.
    + right. split; [reflexivity|]. intro Hin.
      apply (position_in ix s 0) in Hin. destruct Hin as [i Hi]. congruence.
Qed.

Lemma index_of_injective (ix : Indexer.t) (s s' : string) (i : nat) :
  Indexer.index_of ix s = Z.of_nat i -> Indexer.index_of ix s' = Z.of_nat i -> s = s'.
Proof.
  unfold Indexer.index_of.
  destruct (Indexer.position ix s 0) as [j|] eqn:E; [|lia].
  destruct (Indexer.position ix s' 0) as [j'|] eqn:E'; [|lia].
  intros H H'. apply position_nth in E. apply position_nth in E'.
  rewrite Nat.sub_0_r in *.
  assert (j = i) by lia. assert (j' = i) by lia. subst. congruence.
Qed.

Lemma contains_in (ix : Indexer.t) (s : string) : Indexer.contains ix s = true <-> In s ix.
Proof.
  unfold Indexer.contains. rewrite (position_in ix s 0).
  destruct (Indexer.position ix s 0); split; eauto; try discriminate.
  intros [i H]. discriminate.
Qed.

(** ** The rare-word threshold *)

(** C8 (as amended).  [get_word_index] returns the index of the "UNK"
    sentinel exactly when the word's count is below 2 or the word is the
    string "UNK" itself; with a count of 2 or more it returns the word's own
    index, registering the word if needed; and a word other than "UNK" with
    a count below 2 is not registered by the call, so a word observed once
    is never given an id of its own. *)
Theorem get_word_index_threshold (ix : Indexer.t) (wc : word_counter) (w : string) :
  let ix' := fst (get_word_index ix wc w) in
  let idx := snd (get_word_index ix wc w) in
  (Indexer.index_of ix' "UNK" = Z.of_nat idx <-> (word_count wc w < 2 \/ w = "UNK"%string))
  /\ (2 <= word_count wc w ->
      Indexer.index_of ix' w = Z.of_nat idx /\ Indexer.contains ix' w = true)
  /\ (word_count wc w < 2 -> w <> "UNK"%string ->
      Indexer.contains ix w = false -> Indexer.contains ix' w = false).
Proof.
  unfold get_word_index.
  destruct (2 * word_count wc w <? 3) eqn:E.
  - apply Nat.ltb_lt in E.
    destruct (add_and_get_index_spec ix "UNK") as [Hp [Hb Hext]].
    cbv zeta. split; [|split].
    + unfold Indexer.index_of. rewrite Hp. split; [intros _; left; lia|reflexivity].
    + intro H. lia.
    + intros _ Hw Hc.
      destruct (Indexer.contains (fst (Indexer.add_and_get_index ix "UNK")) w) eqn:Hc';
        [|reflexivity].
      apply contains_in in Hc'. destruct Hext as [Heq|[Heq _]]; rewrite Heq in Hc'.
      * apply contains_in in Hc'. congruence.
      * apply in_app_iff in Hc'. destruct Hc' as [Hc'|[Hc'|[]]].
        -- apply contains_in in Hc'. congruence.
        -- congruence.
  - apply Nat.ltb_ge in E.
    destruct (add_and_get_index_spec ix w) as [Hp [Hb Hext]].
    cbv zeta. split; [|split].
    + split.
      * intro H. right.
        apply (@index_of_injective (fst (Indexer.add_and_get_index ix w)) w "UNK"
                 (snd (Indexer.add_and_get_index ix w))); [|exact H].
        unfold Indexer.index_of. rewrite Hp. reflexivity.
      * intros [H|H]; [lia|]. subst w. unfold Indexer.index_of. rewrite Hp. reflexivity.
    + intros _. split.
      * unfold Indexer.index_of. rewrite Hp. reflexivity.
      * unfold Indexer.contains. rewrite Hp. reflexivity.
    + intro H. lia.
Qed.

Lemma get_word_index_threshold_witness :
  let ix' := fst (get_word_index unk_indexer small_counter "rare") in
  let idx := snd (get_word_index unk_indexer small_counter "rare") in
  (Indexer.index_of ix' "UNK" = Z.of_nat idx
   <-> (word_count small_counter "rare" < 2 \/ "rare"%string = "UNK"%string))
  /\ (2 <= word_count small_counter "rare" ->
      Indexer.index_of ix' "rare" = Z.of_nat idx /\ Indexer.contains ix' "rare" = true)
  /\ (word_count small_counter "rare" < 2 -> "rare"%string <> "UNK"%string ->
      Indexer.contains unk_indexer "rare" = false -> Indexer.contains ix' "rare" = false).
Proof. exact (get_word_index_threshold unk_indexer small_counter "rare"). Defined.

(** C8, as stated, fails for the sentinel string itself: with a count of 2
    the word "UNK" is answered with the index of the sentinel. *)
Lemma get_word_index_unk_with_count_two :
  word_count small_counter "UNK" = 2
  /\ snd (get_word_index unk_indexer small_counter "UNK") = 0
  /\ Indexer.index_of (fst (get_word_index unk_indexer small_counter "UNK")) "UNK" = 0%Z.
Proof. repeat split. Qed.

(** A word seen twice gets an index of its own; a word seen once does not. *)
Example get_word_index_examples :
  get_word_index unk_indexer small_counter "the" = (["UNK"; "the"]%string, 1)
  /\ get_word_index unk_indexer small_counter "rare" = (["UNK"]%string, 0)
  /\ get_word_index unk_indexer small_counter "unseen" = (["UNK"]%string, 0).
Proof. repeat split. Qed.

(** ** Finite sums of reals and log-sum-exp *)

Section RealSums.

Local Open Scope R_scope.

Lemma sum_R_app (l1 l2 : list R) : sum_R (l1 ++ l2) = sum_R l1 + sum_R l2.
Proof. induction l1 as [|x l1 IH]; simpl; [lra|]. rewrite IH. lra. Qed.

Lemma sum_R_scale {A} (c : R) (f : A -> R) (l : list A) :
  sum_R (map (fun x => f x * c) l) = sum_R (map f l) * c.
Proof. induction l as [|x l IH]; simpl; [lra|]. rewrite IH. lra. Qed.

Lemma sum_R_scale_l {A} (c : R) (f : A -> R) (l : list A) :
  sum_R (map (fun x => c * f x) l) = c * sum_R (map f l).
Proof. induction l as [|x l IH]; simpl; [lra|]. rewrite IH. lra. Qed.

Lemma sum_R_plus {A} (f g : A -> R) (l : list A) :
  sum_R (map (fun x => f x + g x) l) = sum_R (map f l) + sum_R (map g l).
Proof. induction l as [|x l IH]; simpl; [lra|]. rewrite IH. lra. Qed.

Lemma sum_R_zero {A} (l : list A) : sum_R (map (fun _ => 0) l) = 0.
Proof. induction l as [|x l IH]; simpl; [reflexivity|]. rewrite IH. lra. Qed.

Lemma sum_R_ext {A} (f g : A -> R) (l : list A) :
  (forall x, In x l -> f x = g x) -> sum_R (map f l) = sum_R (map g l).
Proof.
  intro H. induction l as [|x l IH]; simpl; [reflexivity|].
  rewrite H by (left; reflexivity). rewrite IH; [reflexivity|].
  intros y Hy. apply H. right. exact Hy.
Qed.

Lemma sum_R_swap {A B} (f : A -> B -> R) (la : list A) (lb : list B) :
  sum_R (map (fun a => sum_R (map (fun b => f a b) lb)) la)
  = sum_R (map (fun b => sum_R (map (fun a => f a b) la)) lb).
Proof.
  induction la as [|a la IH]; simpl.
  - rewrite sum_R_zero. reflexivity.
  - rewrite IH, <- sum_R_plus. reflexivity.
Qed.

Lemma sum_R_pos (l : list R) :
  l <> [] -> Forall (fun x => 0 < x) l -> 0 < sum_R l.
Proof.
  intros Hne H. destruct l as [|x l]; [congruence|]. clear Hne.
  revert x H. induction l as [|y l IH]; intros x H; simpl.
  - inversion H; subst. lra.
  - inversion H as [|? ? Hx Hl]; subst. specialize (IH y Hl). simpl in IH. lra.
Qed.

Lemma sum_exp_pos {A} (f : A -> R) (l : list A) :
  l <> [] -> 0 < sum_R (map (fun x => exp (f x)) l).
Proof.
  intro Hne. apply sum_R_pos.
  - destruct l; [congruence|discriminate].
  - apply Forall_forall. intros y Hy. apply in_map_iff in Hy.
    destruct Hy as [x [<- _]]. apply exp_pos.
Qed.

(** [logsumexp] is the logarithm of the sum of the exponentials. *)
Lemma logsumexp_ln (a : list R) :
  a <> [] -> logsumexp a = ln (sum_R (map exp a)).
Proof.
  intro Hne. destruct a as [|x a]; [congruence|].
  unfold logsumexp. set (m := fold_left Rmax a x). set (l := x :: a).
  assert (E : sum_R (map (fun v => exp (v - m)) l) = sum_R (map exp l) * exp (- m)).
  { rewrite <- sum_R_scale. apply sum_R_ext. intros v _.
    unfold Rminus. apply exp_plus. }
  rewrite E.
  assert (Hpos : 0 < sum_R (map exp l))
    by (apply (sum_exp_pos (fun v => v)); discriminate).
  rewrite ln_mult by (auto using exp_pos). rewrite ln_exp. lra.
Qed.

Lemma exp_logsumexp {A} (f : A -> R) (l : list A) :
  l <> [] -> exp (logsumexp (map f l)) = sum_R (map (fun x => exp (f x)) l).
Proof.
  intro Hne. rewrite logsumexp_ln by (destruct l; [congruence|discriminate]).
  rewrite map_map. apply exp_ln. apply sum_exp_pos. exact Hne.
Qed.

End RealSums.

(** ** Forward-backward *)

Lemma nth_map_seq_from {A} (f : nat -> A) (d : A) (a n t : nat) :
  t < n -> nth t (map f (seq a n)) d = f (a + t).
Proof.
  intro Ht.
  rewrite (nth_indep _ d (f 0)) by (rewrite length_map, length_seq; exact Ht).
  rewrite (map_nth f (seq a n) 0 t), seq_nth by exact Ht. reflexivity.
Qed.

Section ForwardBackwardFacts.

Local Open Scope R_scope.

Variable T : nat.
Variable trans emis : nat -> nat -> R.
Hypothesis T_pos : (0 < T)%nat.

Let acol := alpha_column T trans emis.
Let bcol := beta_column T trans emis.
Let tags := seq 0 T.

Lemma tags_nonempty : tags <> [].
Proof. unfold tags. destruct T; [lia|discriminate]. Qed.

Lemma forward_pass_columns (n i : nat) :
  forward_pass T trans emis (acol i) (S i) n = map acol (seq (S i) n).
Proof.
  revert i. induction n as [|n IH]; intro i; simpl; [reflexivity|].
  f_equal. apply (IH (S i)).
Qed.

Lemma alpha_matrix_columns (N : nat) :
  (1 <= N)%nat -> alpha_matrix T trans emis N = map acol (seq 0 N).
Proof.
  intro HN. destruct N as [|n]; [lia|]. unfold alpha_matrix.
  simpl Nat.sub. rewrite Nat.sub_0_r.
  change (alpha_first T emis) with (acol 0%nat).
  rewrite forward_pass_columns. reflexivity.
Qed.

Lemma backward_pass_columns (n k : nat) (acc : list (list R)) :
  backward_pass T trans emis (bcol k n) n acc
  = map (fun j => bcol (n + k - j)%nat j) (seq 0 n) ++ acc.
Proof.
  revert k acc. induction n as [|n IH]; intros k acc; [reflexivity|].
  change (backward_pass T trans emis (bcol k (S n)) (S n) acc)
    with (backward_pass T trans emis (bcol (S k) n) n (bcol (S k) n :: acc)).
  rewrite IH, seq_S, map_app, <- app_assoc. cbn [map app Nat.add].
  f_equal.
  - apply map_ext_in. intros j Hj. apply in_seq in Hj. f_equal. lia.
  - f_equal. f_equal. lia.
Qed.

Lemma beta_matrix_columns (N : nat) :
  (1 <= N)%nat ->
  beta_matrix T trans emis N = map (fun j => bcol (N - 1 - j)%nat j) (seq 0 N).
Proof.
  intro HN. destruct N as [|n]; [lia|]. unfold beta_matrix.
  simpl Nat.sub. rewrite Nat.sub_0_r.
  change (beta_last T) with (bcol 0%nat n).
  rewrite backward_pass_columns, seq_S, map_app. cbn [map app Nat.add].
  f_equal.
  - apply map_ext_in. intros j Hj. f_equal. lia.
  - f_equal. f_equal. lia.
Qed.

Lemma at_alpha (N t idx : nat) :
  (idx < N)%nat -> at_ (alpha_matrix T trans emis N) t idx = nth t (acol idx) 0.
Proof.
  intro H. unfold at_. rewrite alpha_matrix_columns by lia.
  rewrite nth_map_seq by exact H. reflexivity.
Qed.

Lemma at_beta (N t idx : nat) :
  (idx < N)%nat ->
  at_ (beta_matrix T trans emis N) t idx = nth t (bcol (N - 1 - idx)%nat idx) 0.
Proof.
  intro H. unfold at_. rewrite beta_matrix_columns by lia.
  rewrite nth_map_seq with (f := fun j => bcol (N - 1 - j)%nat j) by exact H.
  reflexivity.
Qed.

Lemma exp_alpha_step (i t : nat) :
  (t < T)%nat ->
  exp (nth t (acol (S i)) 0)
  = sum_R (map (fun p => exp (nth p (acol i) 0) * exp (trans p t + emis t (S i))) tags).
Proof.
  intro Ht. unfold acol. simpl. unfold alpha_next.
  rewrite nth_map_seq
    with (f := fun current_i =>
                 logsumexp
                   (map (fun prev_i =>
                           nth prev_i (alpha_column T trans emis i) 0
                           + trans prev_i current_i + emis current_i (S i))
                        (seq 0 T))) by exact Ht.
  rewrite exp_logsumexp by apply tags_nonempty.
  apply sum_R_ext. intros p _. rewrite <- exp_plus. f_equal. lra.
Qed.

Lemma exp_beta_step (k idx t : nat) :
  (t < T)%nat ->
  exp (nth t (bcol (S k) idx) 0)
  = sum_R (map (fun c => exp (trans t c + emis c (S idx))
                         * exp (nth c (bcol k (S idx)) 0)) tags).
Proof.
  intro Ht. unfold bcol. simpl. unfold beta_prev.
  rewrite nth_map_seq
    with (f := fun current_i =>
                 logsumexp
                   (map (fun next_i =>
                           nth next_i (beta_column T trans emis k (S idx)) 0
                           + trans current_i next_i + emis next_i (idx + 1))
                        (seq 0 T))) by exact Ht.
  rewrite exp_logsumexp by apply tags_nonempty.
  apply sum_R_ext. intros c _. rewrite <- exp_plus. f_equal.
  replace (idx + 1)%nat with (S idx) by lia. lra.
Qed.

Lemma beta_last_zero (idx t : nat) : (t < T)%nat -> nth t (bcol 0 idx) 0 = 0.
Proof.
  intro Ht. unfold bcol. simpl. unfold beta_last.
  apply nth_map_seq with (f := fun _ : nat => 0). exact Ht.
Qed.

(** The normalizer is the same at a position and at the next. *)
Lemma partition_step (N idx : nat) :
  (S idx < N)%nat ->
  partition_at T trans emis N idx = partition_at T trans emis N (S idx).
Proof.
  intro H. unfold partition_at. fold acol. fold bcol. fold tags.
  replace (N - 1 - idx)%nat with (S (N - 1 - S idx)) by lia.
  set (k := (N - 1 - S idx)%nat).
  transitivity
    (sum_R (map (fun t =>
                   sum_R (map (fun c =>
                                 exp (nth t (acol idx) 0)
                                 * exp (trans t c + emis c (S idx))
                                 * exp (nth c (bcol k (S idx)) 0)) tags)) tags)).
  { apply sum_R_ext. intros t Ht. apply in_seq in Ht.
    rewrite exp_plus, exp_beta_step by lia. fold tags.
    rewrite <- sum_R_scale_l. apply sum_R_ext. intros c _. lra. }
  rewrite sum_R_swap.
  apply sum_R_ext. intros c Hc. apply in_seq in Hc.
  rewrite exp_plus, exp_alpha_step by lia. fold tags.
  rewrite <- sum_R_scale. apply sum_R_ext. intros t _. lra.
Qed.

Lemma partition_constant (N idx : nat) :
  (idx < N)%nat -> partition_at T trans emis N idx = partition_at T trans emis N 0.
Proof.
  induction idx as [|idx IH]; intro H; [reflexivity|].
  rewrite <- partition_step by exact H. apply IH. lia.
Qed.

Lemma partition_pos (N idx : nat) : 0 < partition_at T trans emis N idx.
Proof. unfold partition_at. apply sum_exp_pos. apply tags_nonempty. Qed.

Lemma denominator_at (N idx : nat) :
  (idx < N)%nat ->
  nth idx (denominators T trans emis N) 0 = ln (partition_at T trans emis N idx).
Proof.
  intro H. unfold denominators.
  rewrite nth_map_seq
    with (f := fun idx =>
                 logsumexp
                   (map (fun tag =>
                           at_ (alpha_matrix T trans emis N) tag idx
                           + at_ (beta_matrix T trans emis N) tag idx)
                        (seq 0 T))) by exact H.
  rewrite logsumexp_ln.
  2:{ pose proof tags_nonempty. unfold tags in *. destruct (seq 0 T); [congruence|discriminate]. }
  f_equal. rewrite map_map. unfold partition_at.
  apply sum_R_ext. intros t _. rewrite at_alpha, at_beta by exact H. reflexivity.
Qed.

Lemma marginals_sum (N idx : nat) :
  (idx < N)%nat ->
  sum_R (map (fun t => marginal T trans emis N t idx) tags) = 1.
Proof.
  intro H.
  transitivity (partition_at T trans emis N idx
                * exp (- ln (partition_at T trans emis N idx))).
  - unfold partition_at. rewrite <- sum_R_scale. apply sum_R_ext. intros t _.
    unfold marginal. rewrite denominator_at, at_alpha, at_beta by exact H.
    unfold partition_at. rewrite <- exp_plus. f_equal.
  - rewrite exp_Ropp, exp_ln by apply partition_pos.
    apply Rinv_r. pose proof (partition_pos N idx). lra.
Qed.

End ForwardBackwardFacts.

(** C2.  For a sentence of N >= 1 words, at least one tag and any transition
    and emission scores, the per-position normalizers
    [logsumexp over tags of (alpha + beta)] computed by [compute_gradient]
    have the same value at every position; the forward log-partition at the
    last position equals the backward log-partition at the first; and at
    every position the marginals sum to 1 over the tags. *)
Theorem forward_backward_normalizers_agree
    (T N : nat) (trans emis : nat -> nat -> R) :
  0 < T -> 1 <= N ->
  (forall i j, i < N -> j < N ->
     nth i (denominators T trans emis N) 0%R = nth j (denominators T trans emis N) 0%R)
  /\ logsumexp (map (fun t => at_ (alpha_matrix T trans emis N) t (N - 1)) (seq 0 T))
     = logsumexp (map (fun t => (emis t 0%nat + at_ (beta_matrix T trans emis N) t 0%nat)%R)
                      (seq 0 T))
  /\ (forall i, i < N ->
        sum_R (map (fun t => marginal T trans emis N t i) (seq 0 T)) = 1%R).
Proof.
  intros HT HN. split; [|split].
  - intros i j Hi Hj. rewrite !denominator_at by assumption.
    rewrite (partition_constant trans emis HT Hi), (partition_constant trans emis HT Hj).
    reflexivity.
  - assert (Hne : seq 0 T <> []) by (destruct T; [lia|discriminate]).
    rewrite !logsumexp_ln by (destruct (seq 0 T); [congruence|discriminate]).
    rewrite !map_map.
    transitivity (ln (partition_at T trans emis N (N - 1))).
    + f_equal. unfold partition_at. apply sum_R_ext. intros t Ht. apply in_seq in Ht.
      rewrite at_alpha by lia. f_equal.
      replace (N - 1 - (N - 1)) with 0 by lia.
      rewrite beta_last_zero by lia. lra.
    + rewrite (@partition_constant T trans emis HT N (N - 1)) by lia.
      f_equal. unfold partition_at. apply sum_R_ext. intros t Ht. apply in_seq in Ht.
      rewrite at_beta by lia. f_equal. f_equal.
      simpl. unfold alpha_first.
      apply nth_map_seq with (f := fun i => emis i 0). lia.
  - intros i Hi. apply marginals_sum; assumption.
Qed.

Lemma forward_backward_normalizers_agree_witness :
  (forall i j, i < 3 -> j < 3 ->
     nth i (denominators 2 (fun _ _ => 0%R) (fun t i => INR (t + i)) 3) 0%R
     = nth j (denominators 2 (fun _ _ => 0%R) (fun t i => INR (t + i)) 3) 0%R)
  /\ logsumexp (map (fun t => at_ (alpha_matrix 2 (fun _ _ => 0%R) (fun t i => INR (t + i)) 3)
                                 t (3 - 1)) (seq 0 2))
     = logsumexp (map (fun t => (INR (t + 0)%nat
                                 + at_ (beta_matrix 2 (fun _ _ => 0%R)
                                          (fun t i => INR (t + i)) 3) t 0%nat)%R)
                      (seq 0 2))
  /\ (forall i, i < 3 ->
        sum_R (map (fun t => marginal 2 (fun _ _ => 0%R) (fun t i => INR (t + i)) 3 t i)
                   (seq 0 2)) = 1%R).
Proof.
  apply (@forward_backward_normalizers_agree 2 3 (fun _ _ => 0%R) (fun t i => INR (t + i)));
    lia.
Defined.

(** ** Counters *)

Section CounterFacts.

Local Open Scope R_scope.

Lemma counter_get_add (d : counter) (k f : nat) (v : R) :
  counter_get (counter_add d k v) f
  = counter_get d f + (if (f =? k)%nat then v else 0).
Proof.
  induction d as [|[k' v'] d IH]; simpl.
  - destruct (f =? k)%nat; lra.
  - destruct (k =? k')%nat eqn:E; simpl.
    + apply Nat.eqb_eq in E. subst k'.
      destruct (f =? k)%nat; lra.
    + destruct (f =? k')%nat eqn:E'; [|exact IH].
      apply Nat.eqb_eq in E'. subst k'.
      replace (f =? k)%nat with false; [lra|].
      symmetry. apply Nat.eqb_neq. apply Nat.eqb_neq in E. congruence.
Qed.

Lemma counter_total_add (d : counter) (k f : nat) (v : R) :
  counter_total (counter_add d k v) f
  = counter_total d f + (if (f =? k)%nat then v else 0).
Proof.
  induction d as [|[k' v'] d IH]; simpl.
  - destruct (f =? k)%nat; lra.
  - destruct (k =? k')%nat eqn:E; simpl.
    + apply Nat.eqb_eq in E. subst k'.
      destruct (f =? k)%nat; lra.
    + rewrite IH. lra.
Qed.

Lemma count_occ_step (l : list nat) (k f : nat) :
  INR (count_occ Nat.eq_dec (k :: l) f)
  = (if (f =? k)%nat then 1 else 0) + INR (count_occ Nat.eq_dec l f).
Proof.
  simpl. destruct (Nat.eq_dec k f) as [->|Hne].
  - rewrite Nat.eqb_refl, S_INR. lra.
  - replace (f =? k)%nat with false by (symmetry; apply Nat.eqb_neq; congruence). lra.
Qed.

Lemma counter_get_adds (l : list nat) (d : counter) (v : R) (f : nat) :
  counter_get (fold_left (fun d k => counter_add d k v) l d) f
  = counter_get d f + v * INR (count_occ Nat.eq_dec l f).
Proof.
  revert d. induction l as [|k l IH]; intro d.
  - simpl. lra.
  - change (fold_left (fun d k => counter_add d k v) (k :: l) d)
      with (fold_left (fun d k => counter_add d k v) l (counter_add d k v)).
    rewrite IH, counter_get_add, count_occ_step. destruct (f =? k)%nat; lra.
Qed.

Lemma counter_total_adds (l : list nat) (d : counter) (v : R) (f : nat) :
  counter_total (fold_left (fun d k => counter_add d k v) l d) f
  = counter_total d f + v * INR (count_occ Nat.eq_dec l f).
Proof.
  revert d. induction l as [|k l IH]; intro d.
  - simpl. lra.
  - change (fold_left (fun d k => counter_add d k v) (k :: l) d)
      with (fold_left (fun d k => counter_add d k v) l (counter_add d k v)).
    rewrite IH, counter_total_add, count_occ_step. destruct (f =? k)%nat; lra.
Qed.

Lemma counter_of_list_get (l : list nat) (f : nat) :
  counter_get (counter_of_list l) f = INR (count_occ Nat.eq_dec l f).
Proof.
  unfold counter_of_list. rewrite counter_get_adds. simpl. lra.
Qed.

Lemma counter_subtract_get (other d : counter) (f : nat) :
  counter_get (counter_subtract d other) f = counter_get d f - counter_total other f.
Proof.
  unfold counter_subtract. revert d.
  induction other as [|[k v] other IH]; intro d; simpl.
  - lra.
  - rewrite IH, counter_get_add. destruct (f =? k)%nat; lra.
Qed.

End CounterFacts.

(** ** The gradient *)

Lemma gold_lookup (ix : Indexer.t) (tag : string) (row : list (list nat)) :
  In tag ix -> length row = Indexer.len ix ->
  py_index row (Indexer.index_of ix tag)
  = Some (nth (Z.to_nat (Indexer.index_of ix tag)) row []).
Proof.
  intros Hin Hl. apply (position_in ix tag 0) in Hin. destruct Hin as [k Hk].
  unfold Indexer.index_of. rewrite Hk.
  apply position_bound in Hk. unfold py_index.
  replace (0 <=? Z.of_nat k)%Z with true by (symmetry; apply Z.leb_le; lia).
  rewrite Nat2Z.id. apply nth_error_nth'. unfold Indexer.len in Hl. lia.
Qed.

Lemma expected_tags_total (m : nat -> R) (feats : nat -> list nat)
    (d : counter) (f : nat) (l : list nat) :
  counter_total
    (fold_left (fun features tag_idx =>
                  fold_left (fun features feature => counter_add features feature (m tag_idx))
                            (feats tag_idx) features)
               l d) f
  = (counter_total d f
     + sum_R (map (fun tag_idx => m tag_idx * INR (count_occ Nat.eq_dec (feats tag_idx) f)) l))%R.
Proof.
  revert d. induction l as [|t l IH]; intro d; simpl.
  - lra.
  - rewrite IH, counter_total_adds. lra.
Qed.

(** ** The HMM estimator: indexing *)

Lemma add_and_get_index_grows (ix : Indexer.t) (s : string) :
  incl ix (fst (Indexer.add_and_get_index ix s))
  /\ In s (fst (Indexer.add_and_get_index ix s)).
Proof.
  destruct (add_and_get_index_spec ix s) as [Hp [_ Hext]]. split.
  - destruct Hext as [->|[-> _]]; [apply incl_refl|apply incl_appl, incl_refl].
  - apply (position_in _ s 0). eauto.
Qed.

Lemma add_and_get_index_known (ix : Indexer.t) (s : string) :
  In s ix ->
  exists i, Indexer.add_and_get_index ix s = (ix, i) /\ i < Indexer.len ix.
Proof.
  intro Hin. apply (position_in ix s 0) in Hin. destruct Hin as [i Hi].
  exists i. unfold Indexer.add_and_get_index. rewrite Hi.
  split; [reflexivity|]. apply position_bound in Hi. unfold Indexer.len. lia.
Qed.

Lemma get_word_index_key (ix : Indexer.t) (wc : word_counter) (w : string) :
  get_word_index ix wc w = Indexer.add_and_get_index ix (word_key wc w).
Proof.
  unfold get_word_index, word_key. destruct (2 * word_count wc w <? 3); reflexivity.
Qed.

Lemma index_tags_grows (tags : list string) (ix : Indexer.t) :
  let ix' := fold_left (fun ix tag => fst (Indexer.add_and_get_index ix tag)) tags ix in
  incl ix ix' /\ Forall (fun tag => In tag ix') tags.
Proof.
  revert ix. induction tags as [|tag tags IH]; intro ix; simpl.
  - split; [apply incl_refl|constructor].
  - destruct (IH (fst (Indexer.add_and_get_index ix tag))) as [Hi Hall].
    destruct (add_and_get_index_grows ix tag) as [Hg Hin].
    split; [eapply incl_tran; eassumption|].
    constructor; [apply Hi; exact Hin|exact Hall].
Qed.

Lemma index_words_grows (wc : word_counter) (toks : list Token) (ix : Indexer.t) :
  let ix' := fold_left (fun ix token => fst (get_word_index ix wc (word token))) toks ix in
  incl ix ix' /\ Forall (fun token => In (word_key wc (word token)) ix') toks.
Proof.
  revert ix. induction toks as [|tk toks IH]; intro ix; simpl.
  - split; [apply incl_refl|constructor].
  - destruct (IH (fst (get_word_index ix wc (word tk)))) as [Hi Hall].
    rewrite get_word_index_key in *.
    destruct (add_and_get_index_grows ix (word_key wc (word tk))) as [Hg Hin].
    split; [eapply incl_tran; eassumption|].
    constructor; [apply Hi; exact Hin|exact Hall].
Qed.

Lemma corpus_indexed_incl (wc : word_counter) (tix wix tix' wix' : Indexer.t)
    (sentences : list LabeledSentence) :
  incl tix tix' -> incl wix wix' ->
  corpus_indexed wc tix wix sentences -> corpus_indexed wc tix' wix' sentences.
Proof.
  intros Ht Hw H. unfold corpus_indexed in *.
  eapply Forall_impl; [|exact H]. intros s Hs.
  eapply Forall_impl; [|exact Hs]. intros tt [H1 H2]. split; auto.
Qed.

Lemma index_corpus_loop (wc : word_counter) (sentences : list LabeledSentence)
    (tix wix : Indexer.t) :
  let r :=
    fold_left (fun '(tag_indexer, word_indexer) sentence =>
                 let word_indexer :=
                   fold_left (fun ix token => fst (get_word_index ix wc (word token)))
                             (tokens sentence) word_indexer in
                 let tag_indexer :=
                   fold_left (fun ix tag => fst (Indexer.add_and_get_index ix tag))
                             (get_bio_tags sentence) tag_indexer in
                 (tag_indexer, word_indexer))
              sentences (tix, wix) in
  incl tix (fst r) /\ incl wix (snd r) /\ corpus_indexed wc (fst r) (snd r) sentences.
Proof.
  revert tix wix. induction sentences as [|s sentences IH]; intros tix wix.
  - simpl. split; [apply incl_refl|]. split; [apply incl_refl|constructor].
  - cbn [fold_left].
    destruct (index_words_grows wc (tokens s) wix) as [Hw Hwall].
    destruct (index_tags_grows (get_bio_tags s) tix) as [Ht Htall].
    set (wix1 := fold_left (fun ix token => fst (get_word_index ix wc (word token)))
                           (tokens s) wix) in *.
    set (tix1 := fold_left (fun ix tag => fst (Indexer.add_and_get_index ix tag))
                           (get_bio_tags s) tix) in *.
    destruct (IH tix1 wix1) as [Ht' [Hw' Hall]].
    split; [eapply incl_tran; eassumption|].
    split; [eapply incl_tran; eassumption|].
    constructor; [|exact Hall].
    unfold tokens, get_bio_tags in *. rewrite Forall_map in Hwall, Htall.
    rewrite Forall_forall in *. intros tt Htt. split.
    + apply Ht'. apply Htall. exact Htt.
    + apply Hw'. apply Hwall. exact Htt.
Qed.

Lemma index_corpus_spec (sentences : list LabeledSentence) (wc : word_counter) :
  In "UNK"%string (snd (index_corpus sentences wc))
  /\ corpus_indexed wc (fst (index_corpus sentences wc)) (snd (index_corpus sentences wc))
       sentences.
Proof.
  unfold index_corpus.
  destruct (index_corpus_loop wc sentences Indexer.empty
              (fst (Indexer.add_and_get_index Indexer.empty "UNK")))
    as [_ [Hw Hall]].
  split; [|exact Hall]. apply Hw. simpl. left. reflexivity.
Qed.

(** ** The HMM estimator: counting *)

Lemma incr1_ok (a : list R) (i : nat) :
  i < length a -> Forall (fun c => (0 < c)%R) a ->
  exists a', incr1 a i = Ok a' /\ length a' = length a /\ Forall (fun c => (0 < c)%R) a'.
Proof.
  revert i. induction a as [|x a IH]; intros i Hi Hpos; simpl in Hi; [lia|].
  inversion Hpos as [|? ? Hx Ha]; subst.
  destruct i as [|i]; simpl.
  - exists ((x + 1)%R :: a). split; [reflexivity|]. split; [reflexivity|].
    constructor; [lra|exact Ha].
  - destruct (IH i) as [a' [E [Hl Hp]]]; [lia|exact Ha|].
    rewrite E. simpl. exists (x :: a'). split; [reflexivity|].
    split; [simpl; congruence|]. constructor; assumption.
Qed.

Lemma incr2_ok (m : list (list R)) (i j rows cols : nat) :
  i < rows -> j < cols -> shaped m rows cols -> positive m ->
  exists m', incr2 m i j = Ok m' /\ shaped m' rows cols /\ positive m'.
Proof.
  revert i rows. induction m as [|row m IH]; intros i rows Hi Hj [Hl Hc] Hpos;
    simpl in Hl; [lia|].
  inversion Hc as [|? ? Hrow Hm]; subst.
  inversion Hpos as [|? ? Hprow Hpm]; subst.
  destruct i as [|i]; simpl.
  - destruct (@incr1_ok row j) as [row' [E [Hl' Hp']]]; [lia|exact Hprow|].
    rewrite E. simpl. exists (row' :: m). split; [reflexivity|]. split.
    + split; [reflexivity|]. constructor; [lia|exact Hm].
    + constructor; assumption.
  - destruct (IH i (length m)) as [m' [E [[Hl' Hc'] Hp']]];
      [lia|exact Hj|split; [reflexivity|exact Hm]|exact Hpm|].
    rewrite E. simpl. exists (row :: m'). split; [reflexivity|]. split.
    + split; [simpl; congruence|]. constructor; [reflexivity|assumption].
    + constructor; assumption.
Qed.

Section CountingFacts.

Variable wc : word_counter.
Variable tix wix : Indexer.t.

Lemma count_token_ok (st : hmm_counts) (prev : option string) (token : Token) (tag : string) :
  counts_invariant tix wix st ->
  In tag tix -> In (word_key wc (word token)) wix ->
  (forall p, prev = Some p -> In p tix) ->
  exists st', count_token wc st prev token tag = Ok st' /\ counts_invariant tix wix st'.
Proof.
  intros [Ht [Hw [Hpi [Hli [Hpt [Hst [Hpe Hse]]]]]]] Htag Hkey Hprev.
  unfold count_token. rewrite Ht, Hw, get_word_index_key.
  destruct (add_and_get_index_known tix tag Htag) as [tag_idx [-> Htidx]].
  destruct (add_and_get_index_known wix _ Hkey) as [word_idx [-> Hwidx]].
  destruct (incr2_ok Htidx Hwidx Hse Hpe) as [em' [-> [Hse' Hpe']]]. simpl.
  destruct prev as [p|].
  - destruct (add_and_get_index_known tix p (Hprev p eq_refl)) as [prev_idx [-> Hpidx]].
    destruct (incr2_ok Hpidx Htidx Hst Hpt) as [tr' [-> [Hst' Hpt']]]. simpl.
    eexists. split; [reflexivity|].
    unfold counts_invariant. simpl. auto 10.
  - inversion Hpi as [|? ? Hpi' _]; subst.
    destruct (@incr1_ok (init_counts st) tag_idx) as [in' [-> [Hl' Hp']]];
      [lia|exact Hpi'|]. simpl.
    eexists. split; [reflexivity|].
    unfold counts_invariant. simpl.
    repeat match goal with |- _ /\ _ => split end; auto; try congruence.
    constructor; [exact Hp'|constructor].
Qed.

Lemma count_sentence_ok (sentence : LabeledSentence) (st : hmm_counts) (prev : option string) :
  counts_invariant tix wix st ->
  Forall (fun tt : Token * string =>
            In (snd tt) tix /\ In (word_key wc (word (fst tt))) wix) sentence ->
  (forall p, prev = Some p -> In p tix) ->
  exists st', count_sentence wc st prev sentence = Ok st' /\ counts_invariant tix wix st'.
Proof.
  revert st prev. induction sentence as [|[token tag] rest IH]; intros st prev Hinv Hall Hprev.
  - exists st. split; [reflexivity|exact Hinv].
  - inversion Hall as [|? ? [Htag Hkey] Hrest]; subst. simpl in Htag, Hkey.
    destruct (@count_token_ok st prev token tag Hinv Htag Hkey Hprev) as [st1 [E Hinv1]].
    simpl. rewrite E. simpl.
    apply IH; [exact Hinv1|exact Hrest|].
    intros p Hp. injection Hp as <-. exact Htag.
Qed.

Lemma count_corpus_ok (sentences : list LabeledSentence) (st : hmm_counts) :
  counts_invariant tix wix st ->
  corpus_indexed wc tix wix sentences ->
  exists st', count_corpus sentences wc st = Ok st' /\ counts_invariant tix wix st'.
Proof.
  unfold count_corpus. revert st.
  induction sentences as [|s sentences IH]; intros st Hinv Hall.
  - exists st. split; [reflexivity|exact Hinv].
  - inversion Hall as [|? ? Hs Hrest]; subst.
    destruct (@count_sentence_ok s st None Hinv Hs) as [st1 [E Hinv1]]; [discriminate|].
    cbn [fold_left bind_result]. rewrite E. apply IH; assumption.
Qed.

End CountingFacts.

(** ** The HMM estimator: normalization *)

Lemma log_normalize_distribution (row : list R) :
  row <> [] -> Forall (fun c => (0 < c)%R) row ->
  distribution_row (log_normalize row).
Proof.
  intros Hne Hpos.
  assert (Hs : (0 < sum_R row)%R) by (apply sum_R_pos; assumption).
  assert (Hq : forall c, In c row -> (0 < c / sum_R row)%R).
  { intros c Hc. rewrite Forall_forall in Hpos.
    apply Rdiv_lt_0_compat; [apply Hpos; exact Hc|exact Hs]. }
  unfold distribution_row, log_normalize. split.
  - rewrite map_map.
    transitivity (sum_R (map (fun c => (c * / sum_R row)%R) row)).
    + apply sum_R_ext. intros c Hc. apply exp_ln. apply Hq. exact Hc.
    + rewrite (sum_R_scale (/ sum_R row) (fun c => c) row), map_id.
      apply Rinv_r. lra.
  - apply Forall_forall. intros e He. apply in_map_iff in He.
    destruct He as [c [<- Hc]]. exists (c / sum_R row)%R.
    split; [apply Hq; exact Hc|]. split; [reflexivity|].
    apply exp_ln. apply Hq. exact Hc.
Qed.

Lemma log_normalize_rows (m : list (list R)) (rows cols : nat) :
  0 < cols -> shaped m rows cols -> positive m ->
  shaped (map log_normalize m) rows cols
  /\ Forall distribution_row (map log_normalize m).
Proof.
  intros Hc [Hl Hcols] Hpos. split.
  - split; [rewrite length_map; exact Hl|].
    apply Forall_map. eapply Forall_impl; [|exact Hcols].
    intros row Hrow. unfold log_normalize. rewrite length_map. exact Hrow.
  - apply Forall_map. unfold positive in Hpos. rewrite Forall_forall in *.
    intros row Hrow. apply log_normalize_distribution.
    + specialize (Hcols row Hrow). destruct row; [simpl in Hcols; lia|discriminate].
    + apply Hpos. exact Hrow.
Qed.

Lemma add_and_get_index_below (ix ix' : Indexer.t) (s : string) (i : nat) :
  Indexer.add_and_get_index ix s = (ix', i) -> i < Indexer.len ix -> ix' = ix.
Proof.
  unfold Indexer.add_and_get_index, Indexer.len.
  destruct (Indexer.position ix s 0); intros H Hi; injection H as <- <-;
    [reflexivity|lia].
Qed.

Lemma smoothing_positive : (0 < smoothing)%R.
Proof. unfold smoothing. lra. Qed.

Lemma repeat_positive (n : nat) : Forall (fun c => (0 < c)%R) (repeat smoothing n).
Proof.
  apply Forall_forall. intros c Hc. apply repeat_spec in Hc. subst.
  apply smoothing_positive.
Qed.

Lemma repeat_rows (rows cols : nat) :
  shaped (repeat (repeat smoothing cols) rows) rows cols
  /\ positive (repeat (repeat smoothing cols) rows).
Proof.
  split; [split|].
  - apply repeat_length.
  - apply Forall_forall. intros row Hrow. apply repeat_spec in Hrow. subst.
    apply repeat_length.
  - apply Forall_forall. intros row Hrow. apply repeat_spec in Hrow. subst.
    apply repeat_positive.
Qed.

(** The model [train_hmm_model] builds once the counting loop has ended. *)
Lemma train_hmm_model_counts (sentences : list LabeledSentence) :
  let tix := fst (index_corpus sentences (count_words sentences)) in
  let wix := snd (index_corpus sentences (count_words sentences)) in
  exists st,
    counts_invariant tix wix st
    /\ 0 < Indexer.len wix
    /\ forall silent,
         train_hmm_model sentences silent
         = let model word_indexer :=
             {| HmmNerModel.tag_indexer := c_tag_indexer st;
                HmmNerModel.word_indexer := word_indexer;
                HmmNerModel.init_log_probs := log_normalize (init_counts st);
                HmmNerModel.transition_log_probs := map log_normalize (transition_counts st);
                HmmNerModel.emission_log_probs := map log_normalize (emission_counts st) |} in
           if silent then Ok (model (c_word_indexer st))
           else
             let '(word_indexer, india) :=
               Indexer.add_and_get_index (c_word_indexer st) "India" in
             if india <? Indexer.len wix then
               let '(word_indexer, phil) := Indexer.add_and_get_index word_indexer "Phil" in
               if phil <? Indexer.len wix then Ok (model word_indexer)
               else Raise array_index_out_of_bounds
             else Raise array_index_out_of_bounds.
Proof.
  intros tix wix.
  destruct (index_corpus_spec sentences (count_words sentences)) as [Hunk Hall].
  fold tix in Hall. fold wix in Hunk, Hall.
  set (st0 := {| c_tag_indexer := tix; c_word_indexer := wix;
                 init_counts := repeat smoothing (Indexer.len tix);
                 transition_counts :=
                   repeat (repeat smoothing (Indexer.len tix)) (Indexer.len tix);
                 emission_counts :=
                   repeat (repeat smoothing (Indexer.len wix)) (Indexer.len tix) |}).
  assert (Hinv0 : counts_invariant tix wix st0).
  { unfold counts_invariant, st0. simpl.
    destruct (repeat_rows (Indexer.len tix) (Indexer.len tix)) as [H1 H2].
    destruct (repeat_rows (Indexer.len tix) (Indexer.len wix)) as [H3 H4].
    repeat match goal with |- _ /\ _ => split end; auto.
    - constructor; [apply repeat_positive|constructor].
    - apply repeat_length. }
  destruct (count_corpus_ok (wc := count_words sentences) Hinv0 Hall) as [st [E Hinv]].
  exists st. split; [exact Hinv|]. split.
  { unfold Indexer.len. destruct wix; [destruct Hunk|simpl; lia]. }
  intro silent. unfold train_hmm_model.
  destruct (index_corpus sentences (count_words sentences)) as [tix' wix'] eqn:Eix.
  simpl in tix, wix. subst tix wix. fold st0. rewrite E. reflexivity.
Qed.

(** C6.  [train_hmm_model] returns a model on every corpus when it is
    silent, and whenever it returns (the diagnostic prints of the non-silent
    mode raise when "India" or "Phil" has no index), the transition table is
    T x T and the emission table T x V, every row of either sums to 1 in
    probability space, and every entry is the logarithm of a positive
    probability. *)
Theorem train_hmm_model_rows_are_distributions (sentences : list LabeledSentence) :
  (exists m, train_hmm_model sentences true = Ok m)
  /\ forall silent m,
       train_hmm_model sentences silent = Ok m ->
       let T := Indexer.len (HmmNerModel.tag_indexer m) in
       let V := Indexer.len (HmmNerModel.word_indexer m) in
       shaped (HmmNerModel.transition_log_probs m) T T
       /\ shaped (HmmNerModel.emission_log_probs m) T V
       /\ Forall distribution_row (HmmNerModel.transition_log_probs m)
       /\ Forall distribution_row (HmmNerModel.emission_log_probs m).
Proof.
  destruct (train_hmm_model_counts sentences) as [st [Hinv [HV Htrain]]].
  set (tix := fst (index_corpus sentences (count_words sentences))) in *.
  set (wix := snd (index_corpus sentences (count_words sentences))) in *.
  destruct Hinv as [Ht [Hw [_ [_ [Hpt [Hst [Hpe Hse]]]]]]].
  split.
  { rewrite Htrain. eexists. reflexivity. }
  assert (Hrows :
    forall word_indexer, word_indexer = wix ->
      let m := {| HmmNerModel.tag_indexer := c_tag_indexer st;
                  HmmNerModel.word_indexer := word_indexer;
                  HmmNerModel.init_log_probs := log_normalize (init_counts st);
                  HmmNerModel.transition_log_probs := map log_normalize (transition_counts st);
                  HmmNerModel.emission_log_probs := map log_normalize (emission_counts st) |} in
      shaped (HmmNerModel.transition_log_probs m)
        (Indexer.len (HmmNerModel.tag_indexer m)) (Indexer.len (HmmNerModel.tag_indexer m))
      /\ shaped (HmmNerModel.emission_log_probs m)
           (Indexer.len (HmmNerModel.tag_indexer m)) (Indexer.len (HmmNerModel.word_indexer m))
      /\ Forall distribution_row (HmmNerModel.transition_log_probs m)
      /\ Forall distribution_row (HmmNerModel.emission_log_probs m)).
  { intros word_indexer ->. simpl. rewrite Ht.
    destruct (log_normalize_rows HV Hse Hpe) as [H3 H4].
    destruct (Nat.eq_dec (Indexer.len tix) 0) as [E0|Hne].
    - destruct Hst as [Hl _]. destruct Hse as [Hl' _]. rewrite E0 in *.
      destruct (transition_counts st); [|simpl in Hl; lia].
      split; [split; [reflexivity|constructor]|].
      split; [exact H3|]. split; [constructor|exact H4].
    - destruct (@log_normalize_rows (transition_counts st) (Indexer.len tix)
                  (Indexer.len tix)) as [H1 H2]; [lia|exact Hst|exact Hpt|].
      auto. }
  intros silent m Hm. rewrite Htrain in Hm. cbv zeta in Hm.
  destruct silent.
  - injection Hm as <-. apply Hrows. exact Hw.
  - destruct (Indexer.add_and_get_index (c_word_indexer st) "India") as [wi1 india] eqn:E1.
    destruct (india <? Indexer.len wix) eqn:L1; [|discriminate].
    destruct (Indexer.add_and_get_index wi1 "Phil") as [wi2 phil] eqn:E2.
    destruct (phil <? Indexer.len wix) eqn:L2; [|discriminate].
    apply Nat.ltb_lt in L1. apply Nat.ltb_lt in L2.
    rewrite Hw in E1. apply add_and_get_index_below in E1; [|exact L1]. subst wi1.
    apply add_and_get_index_below in E2; [|exact L2]. subst wi2.
    injection Hm as <-. apply Hrows. reflexivity.
Qed.

(** On the two-sentence corpus of the specification the silent estimator
    returns a model over two tags and the sentinel alone: every word occurs
    once. *)
Example train_hmm_model_two_sentences :
  exists m,
    train_hmm_model two_sentences true = Ok m
    /\ HmmNerModel.tag_indexer m = ["B-PER"; "O"]%string
    /\ HmmNerModel.word_indexer m = ["UNK"]%string
    /\ length (HmmNerModel.transition_log_probs m) = 2
    /\ train_hmm_model two_sentences false = Raise array_index_out_of_bounds.
Proof.
  eexists. split; [reflexivity|]. repeat split.
Qed.

(* ================================================================== *)
(** * Further properties *)

(** ** Viterbi over equal potentials *)

Lemma tags_for_ext (T : nat) (trans trans' : nat -> nat -> Q) (c : list Q) (t : nat) :
  (forall p q, trans p q = trans' p q) -> tags_for T trans c t = tags_for T trans' c t.
Proof. intro H. unfold tags_for. apply map_ext. intro p. rewrite H. reflexivity. Qed.

Lemma forward_ext (T : nat) (trans trans' emis emis' : nat -> nat -> Q)
    (n : nat) (c : list Q) (token : nat) (prev : list (list nat)) :
  (forall p q, trans p q = trans' p q) ->
  (forall t k, emis t k = emis' t k) ->
  forward T trans emis c token n prev = forward T trans' emis' c token n prev.
Proof.
  intros Ht He. revert c token prev.
  induction n as [|n IH]; intros c token prev; simpl; [reflexivity|].
  assert (E1 : next_column T trans emis c token = next_column T trans' emis' c token).
  { unfold next_column. apply map_ext. intro t.
    rewrite (@tags_for_ext T trans trans' c t Ht), He. reflexivity. }
  assert (E2 : back_column T trans c = back_column T trans' c).
  { unfold back_column. apply map_ext. intro t.
    rewrite (@tags_for_ext T trans trans' c t Ht). reflexivity. }
  rewrite E1, E2. apply IH.
Qed.

Lemma viterbi_ext (T : nat) (init init' : nat -> Q) (trans trans' emis emis' : nat -> nat -> Q)
    (N : nat) :
  (forall i, init i = init' i) ->
  (forall p q, trans p q = trans' p q) ->
  (forall t k, emis t k = emis' t k) ->
  viterbi T init trans emis N = viterbi T init' trans' emis' N.
Proof.
  intros Hi Ht He. unfold viterbi. destruct N as [|n]; [reflexivity|].
  assert (E : first_column T init emis = first_column T init' emis').
  { unfold first_column. apply map_ext. intro t. rewrite Hi, He. reflexivity. }
  rewrite E, (@forward_ext T trans trans' emis emis' n (first_column T init' emis') 1 [] Ht He). reflexivity.
Qed.

(** X1.  [HmmNerModel.decode] computes its potentials inline; they are the
    potentials of [ProbabilisticSequenceScorer], so the decoder is the
    Viterbi pass over that scorer ([index_of(word) == -1] in the decoder and
    [contains(word)] in the scorer select the same word index). *)
Theorem hmm_decode_is_viterbi_over_scorer (m : HmmNerModel.t Q) (sentence_tokens : list Token) :
  HmmNerModel.best_indices m sentence_tokens
  = viterbi (length (HmmNerModel.init_log_probs m))
      (ProbabilisticSequenceScorer.score_init (HmmNerModel.scorer m) sentence_tokens)
      (ProbabilisticSequenceScorer.score_transition (HmmNerModel.scorer m) sentence_tokens)
      (ProbabilisticSequenceScorer.score_emission (HmmNerModel.scorer m) sentence_tokens)
      (length sentence_tokens).
Proof.
  unfold HmmNerModel.best_indices. apply viterbi_ext.
  - intro i. reflexivity.
  - intros p q. reflexivity.
  - intros t k. unfold ProbabilisticSequenceScorer.score_emission. simpl.
    destruct (nth_error sentence_tokens k) as [tk|]; [|reflexivity].
    rewrite hmm_word_index. reflexivity.
Qed.

Lemma word_index_unknown (m : HmmNerModel.t Q) (a b : Token) :
  word a = word b
  \/ (Indexer.contains (HmmNerModel.word_indexer m) (word a) = false
      /\ Indexer.contains (HmmNerModel.word_indexer m) (word b) = false) ->
  HmmNerModel.word_index m a = HmmNerModel.word_index m b.
Proof.
  intros [E|[Ha Hb]]; rewrite !hmm_word_index.
  - rewrite E. reflexivity.
  - rewrite Ha, Hb. reflexivity.
Qed.

(** X2.  An out-of-vocabulary word is decoded as the sentinel: two sentences
    that differ only in words the vocabulary does not hold are given the
    same tags by [HmmNerModel.decode]. *)
Theorem hmm_decode_ignores_unknown_words
    (m : HmmNerModel.t Q) (tokens1 tokens2 : list Token) :
  same_up_to_unknown_words m tokens1 tokens2 ->
  HmmNerModel.decode m tokens1 = HmmNerModel.decode m tokens2.
Proof.
  intro H. unfold HmmNerModel.decode. f_equal.
  unfold HmmNerModel.best_indices.
  rewrite (Forall2_length H).
  apply viterbi_ext; [reflexivity|reflexivity|].
  intros t k. revert k. induction H as [|a b l1 l2 Hab _ IH]; intro k.
  - destruct k; reflexivity.
  - destruct k as [|k]; simpl.
    + rewrite (word_index_unknown m a b Hab). reflexivity.
    + apply IH.
Qed.

Lemma hmm_decode_ignores_unknown_words_witness :
  HmmNerModel.decode small_hmm [tok "Alice" "NNP"; tok "works" "VBZ"]
  = HmmNerModel.decode small_hmm [tok "Bob" "NNP"; tok "works" "VBZ"].
Proof.
  apply (@hmm_decode_ignores_unknown_words small_hmm).
  constructor; [right; split; reflexivity|].
  constructor; [left; reflexivity|constructor].
Defined.

(** ** The score matrix *)

Lemma rev_cons_last (p : list nat) (t : nat) :
  p <> [] -> last p 0 = t -> exists r, rev p = t :: r.
Proof.
  intros Hne Hl. destruct (rev p) as [|x r] eqn:E.
  - exfalso. apply Hne. rewrite <- (rev_involutive p), E. reflexivity.
  - exists r. f_equal.
    assert (Ep : p = rev r ++ [x]) by (rewrite <- (rev_involutive p), E; reflexivity).
    rewrite Ep, last_last in Hl. exact Hl.
Qed.

(** X3.  Every entry of the last column of the score matrix is the maximum
    of the path score over the tag sequences ending in that tag: some
    sequence attains it, and none exceeds it. *)
Theorem viterbi_matrix_holds_maxima
    (T : nat) (init : nat -> Q) (trans emis : nat -> nat -> Q) (n t : nat) :
  t < T ->
  (exists p,
     length p = S n /\ below T p /\ last p 0 = t
     /\ Qeq (path_score init trans emis p) (nth t (last_column T init trans emis n) 0%Q))
  /\ (forall p,
        length p = S n -> below T p -> last p 0 = t ->
        (path_score init trans emis p <= nth t (last_column T init trans emis n) 0)%Q).
Proof.
  intro Ht. assert (HT : 0 < T) by lia.
  assert (E : nth t (last_column T init trans emis n) 0%Q = best T init trans emis n t).
  { unfold last_column.
    change (first_column T init emis) with (column T init trans emis 0).
    rewrite (forward_columns init trans emis HT n 0 []). reflexivity. }
  rewrite E. split.
  - exists (rev (rpath T init trans emis n t)).
    split; [rewrite length_rev; apply length_rpath|].
    split; [apply below_rev; apply below_rpath; assumption|].
    split.
    + destruct (rpath_head T init trans emis n t) as [rest ->].
      simpl. apply last_last.
    + rewrite path_score_rev, (best_rpath init trans emis HT n Ht). reflexivity.
  - intros p Hl Hb Hlast.
    destruct (@rev_cons_last p t) as [r Er]; [destruct p; [discriminate|congruence]|exact Hlast|].
    rewrite <- (rev_involutive p), path_score_rev, Er.
    apply (rscore_best init trans emis HT).
    + rewrite <- Er. apply below_rev. exact Hb.
    + assert (H : length (rev p) = S n) by (rewrite length_rev; exact Hl).
      rewrite Er in H. simpl in H. lia.
Qed.

Lemma viterbi_matrix_holds_maxima_witness :
  (exists p,
     length p = 3 /\ below 2 p /\ last p 0 = 1
     /\ Qeq (path_score (fun _ => 0%Q) (fun a b => inject_Z (Z.of_nat (a + b)))
               (fun _ _ => 0%Q) p)
            (nth 1 (last_column 2 (fun _ => 0%Q) (fun a b => inject_Z (Z.of_nat (a + b)))
                      (fun _ _ => 0%Q) 2) 0%Q))
  /\ (forall p,
        length p = 3 -> below 2 p -> last p 0 = 1 ->
        (path_score (fun _ => 0%Q) (fun a b => inject_Z (Z.of_nat (a + b)))
           (fun _ _ => 0%Q) p
         <= nth 1 (last_column 2 (fun _ => 0%Q) (fun a b => inject_Z (Z.of_nat (a + b)))
                     (fun _ _ => 0%Q) 2) 0)%Q).
Proof.
  apply (@viterbi_matrix_holds_maxima 2 (fun _ => 0%Q)
           (fun a b => inject_Z (Z.of_nat (a + b))) (fun _ _ => 0%Q) 2 1).
  lia.
Defined.

(** ** Decoding without tags, and with an empty word *)

Lemma viterbi_no_tags (init : nat -> Q) (trans emis : nat -> nat -> Q) (n : nat) :
  viterbi 0 init trans emis (S n) = Raise argmax_of_empty.
Proof.
  unfold viterbi. destruct (forward 0 trans emis (first_column 0 init emis) 1 n []).
  reflexivity.
Qed.

(** X4.  A model without tags cannot decode: on a non-empty sentence both
    Viterbi decoders raise the [ValueError] of [np.argmax] over an empty
    column. *)
Theorem decode_without_tags_raises
    (hmm : HmmNerModel.t Q) (crf : CrfNerModel.t) (sentence_tokens : list Token) :
  sentence_tokens <> [] ->
  HmmNerModel.init_log_probs hmm = [] ->
  CrfNerModel.tag_indexer crf = [] ->
  HmmNerModel.decode hmm sentence_tokens = Raise argmax_of_empty
  /\ CrfNerModel.decode crf sentence_tokens = (crf, Raise argmax_of_empty).
Proof.
  intros Hne Hh Hc.
  destruct sentence_tokens as [|tk rest]; [congruence|]. split.
  - unfold HmmNerModel.decode, HmmNerModel.best_indices. rewrite Hh.
    simpl length. rewrite viterbi_no_tags. reflexivity.
  - unfold CrfNerModel.decode.
    destruct (@build_feature_cache_no_tags (CrfNerModel.tag_indexer crf) (tk :: rest))
      with (ix := CrfNerModel.feature_indexer crf) as [cache ->].
    { rewrite Hc. reflexivity. }
    rewrite with_feature_indexer_same.
    unfold CrfNerModel.best_indices. rewrite Hc. simpl length.
    change (Indexer.len []) with 0. unfold bind_result at 1. cbv beta iota.
    rewrite viterbi_no_tags. reflexivity.
Qed.

Lemma decode_without_tags_raises_witness :
  HmmNerModel.decode no_tag_hmm two_words = Raise argmax_of_empty
  /\ CrfNerModel.decode no_tag_crf two_words = (no_tag_crf, Raise argmax_of_empty).
Proof.
  apply (@decode_without_tags_raises no_tag_hmm no_tag_crf two_words).
  - discriminate.
  - reflexivity.
  - reflexivity.
Defined.

Lemma returns_then_raises {A B} (c : IxM A) (k : A -> IxM B) (e : exn) :
  returns c ->
  (forall a ix, k a ix = (ix, Raise e)) ->
  forall ix, ix_bind c k ix = (ix, Raise e).
Proof.
  intros Hc Hk ix. unfold ix_bind. destruct (Hc ix) as [a ->]. apply Hk.
Qed.

Lemma extract_empty_word (sentence_tokens : list Token) (word_index : nat) (tag : string)
    (tk : Token) :
  nth_error sentence_tokens word_index = Some tk ->
  word tk = EmptyString ->
  forall ix,
    extract_emission_features sentence_tokens word_index tag false ix
    = (ix, Raise string_index_out_of_range).
Proof.
  intros Hn Hw ix. unfold extract_emission_features. rewrite Hn. cbv zeta.
  apply returns_then_raises.
  { apply returns_fold. intros b a. apply returns_bind.
    - apply returns_maybe_add_feature.
    - intro. apply returns_maybe_add_feature. }
  intros feats ix1. apply returns_then_raises.
  { apply returns_fold. intros b a. apply returns_bind.
    - apply returns_maybe_add_feature.
    - intro. apply returns_maybe_add_feature. }
  intros feats' ix2. rewrite Hw. reflexivity.
Qed.

Lemma ix_map_raise_at {A B} (f : A -> IxM B) (l1 l2 : list A) (a : A) (e : exn) :
  (forall x, In x l1 -> returns (f x)) ->
  (forall ix, f a ix = (ix, Raise e)) ->
  forall ix, ix_map f (l1 ++ a :: l2) ix = (ix, Raise e).
Proof.
  intros H1 Ha ix. induction l1 as [|x l1 IH]; simpl; unfold ix_bind.
  - rewrite Ha. reflexivity.
  - destruct (H1 x (or_introl eq_refl) ix) as [b ->].
    fold (@ix_bind (list B) (list B)).
    rewrite IH by (intros y Hy; apply H1; right; exact Hy). reflexivity.
Qed.

Lemma first_empty_word (sentence_tokens : list Token) :
  nonempty_words sentence_tokens = false ->
  exists k tk,
    nth_error sentence_tokens k = Some tk /\ word tk = EmptyString
    /\ nonempty_words (firstn k sentence_tokens) = true.
Proof.
  induction sentence_tokens as [|tk0 rest IH]; simpl; [discriminate|].
  destruct (String.eqb (word tk0) EmptyString) eqn:E; simpl.
  - intros _. exists 0, tk0. apply String.eqb_eq in E. auto.
  - intro H. destruct (IH H) as [k [tk [Hn [Hw Hf]]]].
    exists (S k), tk. simpl. rewrite E. simpl. auto.
Qed.

Lemma seq_split_at (n k : nat) :
  k < n -> seq 0 n = seq 0 k ++ k :: seq (S k) (n - S k).
Proof.
  intro H. assert (E : n = k + S (n - S k)) by lia.
  rewrite E at 1. rewrite seq_app. reflexivity.
Qed.

Lemma build_feature_cache_empty_word (tag_indexer : Indexer.t) (sentence_tokens : list Token) :
  0 < Indexer.len tag_indexer ->
  nonempty_words sentence_tokens = false ->
  forall ix,
    build_feature_cache tag_indexer sentence_tokens false ix
    = (ix, Raise string_index_out_of_range).
Proof.
  intros HT Hw ix.
  destruct (first_empty_word sentence_tokens Hw) as [k [tk [Hn [Hempty Hbefore]]]].
  assert (Hk : k < length sentence_tokens) by (apply nth_error_Some; congruence).
  unfold build_feature_cache.
  rewrite (seq_split_at Hk).
  apply ix_map_raise_at.
  - intros x Hx ix'. apply in_seq in Hx.
    destruct (nth_error sentence_tokens x) as [tx|] eqn:Hnx.
    2:{ apply nth_error_None in Hnx. lia. }
    assert (Htx : word tx <> EmptyString).
    { unfold nonempty_words in Hbefore. rewrite forallb_forall in Hbefore.
      assert (Hin : In tx (firstn k sentence_tokens)).
      { apply nth_error_In with (n := x). rewrite nth_error_firstn.
        replace (x <? k) with true by (symmetry; apply Nat.ltb_lt; lia). exact Hnx. }
      specialize (Hbefore tx Hin). apply negb_true_iff in Hbefore.
      apply String.eqb_neq in Hbefore. exact Hbefore. }
    destruct (returns_map_in
                (fun tag_idx =>
                   match Indexer.get_object tag_indexer tag_idx with
                   | Some tag => extract_emission_features sentence_tokens x tag false
                   | None => ix_raise none_is_not_a_string
                   end)
                (seq 0 (Indexer.len tag_indexer))) with (ix := ix') as [row [E _]].
    + intros tag_idx Hin'. apply in_seq in Hin'.
      unfold Indexer.get_object, Indexer.len in *.
      destruct (nth_error tag_indexer tag_idx) as [tag|] eqn:Ht.
      * eapply returns_extract; eassumption.
      * apply nth_error_None in Ht. lia.
    + exists row. exact E.
  - intro ix'. unfold Indexer.len in *.
    destruct tag_indexer as [|tag0 tags]; [simpl in HT; lia|].
    simpl. unfold ix_bind. rewrite (extract_empty_word _ _ tag0 Hn Hempty). reflexivity.
Qed.

(** X5.  A sentence with an empty word cannot be decoded by the CRF: with at
    least one tag, [decode] and [decode_beam] raise the [IndexError] of
    [curr_word[0]] in [extract_emission_features], and leave the model as
    it was. *)
Theorem crf_decode_empty_word_raises (m : CrfNerModel.t) (sentence_tokens : list Token) :
  0 < Indexer.len (CrfNerModel.tag_indexer m) ->
  nonempty_words sentence_tokens = false ->
  CrfNerModel.decode m sentence_tokens = (m, Raise string_index_out_of_range)
  /\ CrfNerModel.decode_beam m sentence_tokens = (m, Raise string_index_out_of_range).
Proof.
  intros HT Hw. unfold CrfNerModel.decode, CrfNerModel.decode_beam.
  rewrite (build_feature_cache_empty_word _ _ HT Hw). simpl.
  rewrite with_feature_indexer_same. split; reflexivity.
Qed.

Lemma crf_decode_empty_word_raises_witness :
  CrfNerModel.decode heavy_model with_empty_word
  = (heavy_model, Raise string_index_out_of_range)
  /\ CrfNerModel.decode_beam heavy_model with_empty_word
     = (heavy_model, Raise string_index_out_of_range).
Proof.
  apply (@crf_decode_empty_word_raises heavy_model with_empty_word).
  - simpl. lia.
  - reflexivity.
Defined.

(** ** Feature extraction in both modes *)

Lemma extends_refl (ix : Indexer.t) : extends ix ix.
Proof. exists []. symmetry. apply app_nil_r. Qed.

Lemma extends_trans (ix1 ix2 ix3 : Indexer.t) :
  extends ix1 ix2 -> extends ix2 ix3 -> extends ix1 ix3.
Proof.
  intros [l1 ->] [l2 ->]. exists (l1 ++ l2). symmetry. apply app_assoc.
Qed.

Lemma extends_in (ix ix' : Indexer.t) (s : string) :
  extends ix ix' -> In s ix -> In s ix'.
Proof. intros [l ->] H. apply in_or_app. left. exact H. Qed.

Lemma extends_position (ix ix' : Indexer.t) (s : string) (i : nat) :
  extends ix ix' -> Indexer.position ix s 0 = Some i -> Indexer.position ix' s 0 = Some i.
Proof. intros [l ->] H. apply position_app_some. exact H. Qed.

Lemma add_extends (ix : Indexer.t) (s : string) :
  extends ix (fst (Indexer.add_and_get_index ix s)).
Proof.
  unfold Indexer.add_and_get_index.
  destruct (Indexer.position ix s 0); simpl.
  - apply extends_refl.
  - exists [s]. reflexivity.
Qed.

Lemma add_position (ix : Indexer.t) (s : string) :
  Indexer.position (fst (Indexer.add_and_get_index ix s)) s 0
  = Some (snd (Indexer.add_and_get_index ix s)).
Proof. apply (add_and_get_index_spec ix s). Qed.

Lemma add_all_extends (strs : list string) (ix : Indexer.t) : extends ix (add_all ix strs).
Proof.
  revert ix. induction strs as [|s strs IH]; intro ix; simpl.
  - apply extends_refl.
  - eapply extends_trans; [apply add_extends|apply IH].
Qed.

Lemma add_all_in (strs : list string) (ix : Indexer.t) :
  Forall (fun s => In s (add_all ix strs)) strs.
Proof.
  revert ix. induction strs as [|s strs IH]; intro ix; simpl; constructor.
  - eapply extends_in; [apply add_all_extends|].
    apply (add_and_get_index_grows ix s).
  - apply IH.
Qed.

Lemma add_all_from (strs : list string) (ix : Indexer.t) (s : string) :
  In s (add_all ix strs) -> In s ix \/ In s strs.
Proof.
  revert ix. induction strs as [|s0 strs IH]; intro ix; simpl; [auto|].
  intro H. destruct (IH _ H) as [H1|H1]; [|auto].
  destruct (add_and_get_index_spec ix s0) as [_ [_ [E|[E _]]]]; rewrite E in H1.
  - auto.
  - apply in_app_or in H1. destruct H1 as [H1|[H1|[]]]; auto.
Qed.

Lemma add_all_known (strs : list string) (ix : Indexer.t) :
  Forall (fun s => In s ix) strs -> add_all ix strs = ix.
Proof.
  induction 1 as [|s strs Hs _ IH]; simpl; [reflexivity|].
  destruct (add_and_get_index_known ix s Hs) as [i [-> _]]. exact IH.
Qed.

Lemma ids_of_extends (strs : list string) (ix ix' : Indexer.t) :
  Forall (fun s => In s ix) strs -> extends ix ix' -> ids_of ix' strs = ids_of ix strs.
Proof.
  intros H Hext. induction H as [|s strs Hs _ IH]; simpl; [reflexivity|].
  apply (position_in ix s 0) in Hs. destruct Hs as [i Hi].
  rewrite Hi, (@extends_position ix ix' s i Hext Hi). f_equal. exact IH.
Qed.

Lemma ids_of_app (ix : Indexer.t) (l1 l2 : list string) :
  ids_of ix (l1 ++ l2) = ids_of ix l1 ++ ids_of ix l2.
Proof. unfold ids_of. apply flat_map_app. Qed.

Lemma ids_of_below (strs : list string) (ix : Indexer.t) :
  Forall (fun f => f < Indexer.len ix) (ids_of ix strs)
  /\ length (ids_of ix strs) <= length strs.
Proof.
  induction strs as [|s strs [IH1 IH2]]; simpl; [split; [constructor|lia]|].
  destruct (Indexer.position ix s 0) as [i|] eqn:E; simpl.
  - split; [|lia]. constructor; [|exact IH1].
    apply position_bound in E. unfold Indexer.len. lia.
  - split; [exact IH1|lia].
Qed.

Lemma ids_of_known (strs : list string) (ix : Indexer.t) :
  Forall (fun s => In s ix) strs ->
  Forall2 (fun f s => Indexer.get_object ix f = Some s) (ids_of ix strs) strs.
Proof.
  induction 1 as [|s strs Hs _ IH]; simpl; [constructor|].
  apply (position_in ix s 0) in Hs. destruct Hs as [i Hi]. rewrite Hi. simpl.
  constructor; [|exact IH].
  apply position_nth in Hi. rewrite Nat.sub_0_r in Hi. exact Hi.
Qed.

Lemma maybe_add_feature_inference (feats : list nat) (feat : string) (ix : Indexer.t) :
  maybe_add_feature feats false feat ix = (ix, Ok (feats ++ ids_of ix [feat])).
Proof.
  unfold maybe_add_feature, Indexer.index_of. simpl.
  destruct (Indexer.position ix feat 0) as [i|]; simpl.
  - destruct (Z.of_nat i =? -1)%Z eqn:E; [apply Z.eqb_eq in E; lia|].
    rewrite Nat2Z.id. reflexivity.
  - rewrite app_nil_r. reflexivity.
Qed.

Lemma maybe_add_feature_training (feats : list nat) (feat : string) (ix : Indexer.t) :
  maybe_add_feature feats true feat ix
  = (add_all ix [feat], Ok (feats ++ ids_of (add_all ix [feat]) [feat])).
Proof.
  unfold maybe_add_feature. simpl. rewrite add_position. simpl.
  destruct (Indexer.add_and_get_index ix feat). reflexivity.
Qed.

Lemma features_inference (strs : list string) (feats : list nat) (ix : Indexer.t) :
  ix_fold (fun feats s => maybe_add_feature feats false s) strs feats ix
  = (ix, Ok (feats ++ ids_of ix strs)).
Proof.
  revert feats. induction strs as [|s strs IH]; intro feats.
  - simpl. unfold ix_ret. rewrite app_nil_r. reflexivity.
  - cbn [ix_fold]. unfold ix_bind. rewrite maybe_add_feature_inference.
    rewrite IH. rewrite <- app_assoc, <- ids_of_app. reflexivity.
Qed.

Lemma features_training (strs : list string) (feats : list nat) (ix : Indexer.t) :
  ix_fold (fun feats s => maybe_add_feature feats true s) strs feats ix
  = (add_all ix strs, Ok (feats ++ ids_of (add_all ix strs) strs)).
Proof.
  revert feats ix. induction strs as [|s strs IH]; intros feats ix.
  - simpl. unfold ix_ret. rewrite app_nil_r. reflexivity.
  - cbn [ix_fold]. unfold ix_bind. rewrite maybe_add_feature_training.
    rewrite IH. change (add_all (add_all ix [s]) strs) with (add_all ix (s :: strs)).
    rewrite <- app_assoc. f_equal. f_equal. f_equal.
    change (s :: strs) with ([s] ++ strs) at 3. rewrite ids_of_app. f_equal.
    symmetry. apply ids_of_extends.
    + apply (add_all_in [s] ix).
    + apply (add_all_extends strs).
Qed.

Lemma maybe_add_feature_returns (feats : list nat) (b : bool) (feat : string)
    (ix : Indexer.t) :
  exists ix' feats', maybe_add_feature feats b feat ix = (ix', Ok feats').
Proof.
  destruct b.
  - rewrite maybe_add_feature_training. eauto.
  - rewrite maybe_add_feature_inference. eauto.
Qed.

Ltac step_features :=
  match goal with
  | |- context [match maybe_add_feature ?f ?b ?s ?i with _ => _ end] =>
      let ix' := fresh "ix" in
      let feats' := fresh "feats" in
      let E := fresh "E" in
      destruct (maybe_add_feature_returns f b s i) as [ix' [feats' E]];
      rewrite E; clear E
  end.

(** [extract_emission_features] is a run of [maybe_add_feature] over the
    feature strings of the word and the tag. *)
Lemma extract_as_features (sentence_tokens : list Token) (word_index : nat)
    (tag : string) (b : bool) (ix : Indexer.t) :
  extract_emission_features sentence_tokens word_index tag b ix
  = match nth_error sentence_tokens word_index with
    | None => (ix, Raise list_index_out_of_range)
    | Some tok =>
        let r :=
          ix_fold (fun feats s => maybe_add_feature feats b s)
                  (feature_strings sentence_tokens word_index tag) [] ix in
        match word tok with
        | EmptyString => (fst r, Raise string_index_out_of_range)
        | String _ _ => r
        end
    end.
Proof.
  unfold extract_emission_features, feature_strings.
  destruct (nth_error sentence_tokens word_index) as [tok|]; [|reflexivity].
  cbv zeta. destruct (word tok) as [|c0 w'];
    cbn [flat_map app ix_fold]; unfold ix_bind, ix_ret, ix_raise;
    repeat step_features; reflexivity.
Qed.

Lemma length_feature_strings (sentence_tokens : list Token) (word_index : nat)
    (tag : string) (tk : Token) :
  nth_error sentence_tokens word_index = Some tk ->
  length (feature_strings sentence_tokens word_index tag)
  = match word tk with EmptyString => 12 | String _ _ => 14 end.
Proof.
  intro Hn. unfold feature_strings. rewrite Hn. cbv zeta.
  destruct (word tk); reflexivity.
Qed.

(** X6.  In inference mode, on a non-empty word of the sentence,
    [extract_emission_features] returns the ids of those of the fourteen
    feature strings of the word and the tag that the indexer holds, in the
    order of the strings: at most fourteen ids, every one an id in use, and
    the indexer is left as it was. *)
Theorem extract_inference_returns_known_ids
    (sentence_tokens : list Token) (word_index : nat) (tag : string) (tk : Token)
    (ix : Indexer.t) :
  nth_error sentence_tokens word_index = Some tk ->
  word tk <> EmptyString ->
  let feats := ids_of ix (feature_strings sentence_tokens word_index tag) in
  extract_emission_features sentence_tokens word_index tag false ix = (ix, Ok feats)
  /\ length (feature_strings sentence_tokens word_index tag) = 14
  /\ length feats <= 14
  /\ Forall (fun f => f < Indexer.len ix) feats.
Proof.
  intros Hn Hw feats.
  pose proof (length_feature_strings sentence_tokens word_index tag Hn) as Hlen.
  rewrite extract_as_features, Hn. cbv zeta. rewrite features_inference.
  destruct (word tk) as [|c0 w']; [congruence|].
  destruct (ids_of_below (feature_strings sentence_tokens word_index tag) ix) as [Hb Hl].
  repeat split; auto. fold feats. unfold feats. lia.
Qed.

Lemma extract_inference_returns_known_ids_witness :
  let feats := ids_of (CrfNerModel.feature_indexer heavy_model)
                 (feature_strings two_words 0 "O") in
  extract_emission_features two_words 0 "O" false (CrfNerModel.feature_indexer heavy_model)
  = (CrfNerModel.feature_indexer heavy_model, Ok feats)
  /\ length (feature_strings two_words 0 "O") = 14
  /\ length feats <= 14
  /\ Forall (fun f => f < Indexer.len (CrfNerModel.feature_indexer heavy_model)) feats.
Proof.
  apply (@extract_inference_returns_known_ids two_words 0 "O" (tok "Alice" "NNP")
           (CrfNerModel.feature_indexer heavy_model)).
  - reflexivity.
  - discriminate.
Defined.

(** X7.  In training mode, on a non-empty word of the sentence,
    [extract_emission_features] returns exactly fourteen ids; the indexer
    has only grown, every string it gained is one of the feature strings of
    the word and the tag, and the k-th id returned is the id of the k-th
    feature string in the indexer the call leaves. *)
Theorem extract_training_returns_fourteen_ids
    (sentence_tokens : list Token) (word_index : nat) (tag : string) (tk : Token)
    (ix : Indexer.t) :
  nth_error sentence_tokens word_index = Some tk ->
  word tk <> EmptyString ->
  exists ix' feats,
    extract_emission_features sentence_tokens word_index tag true ix = (ix', Ok feats)
    /\ extends ix ix'
    /\ (forall s, In s ix' -> In s ix \/ In s (feature_strings sentence_tokens word_index tag))
    /\ length feats = 14
    /\ Forall2 (fun f s => Indexer.get_object ix' f = Some s)
               feats (feature_strings sentence_tokens word_index tag).
Proof.
  intros Hn Hw.
  pose proof (length_feature_strings sentence_tokens word_index tag Hn) as Hlen.
  set (strs := feature_strings sentence_tokens word_index tag) in *.
  exists (add_all ix strs), (ids_of (add_all ix strs) strs).
  assert (Hk : Forall2 (fun f s => Indexer.get_object (add_all ix strs) f = Some s)
                       (ids_of (add_all ix strs) strs) strs)
    by (apply ids_of_known, add_all_in).
  rewrite extract_as_features, Hn. cbv zeta. fold strs. rewrite features_training.
  destruct (word tk) as [|c0 w']; [congruence|].
  split; [reflexivity|]. split; [apply add_all_extends|].
  split; [intros s Hs; apply (add_all_from strs ix s Hs)|].
  split; [|exact Hk].
  apply Forall2_length in Hk. lia.
Qed.

Lemma extract_training_returns_fourteen_ids_witness :
  exists ix' feats,
    extract_emission_features two_words 1 "B-PER" true ["B-PER:Pos0=VBZ"]%string
    = (ix', Ok feats)
    /\ extends ["B-PER:Pos0=VBZ"]%string ix'
    /\ (forall s, In s ix' ->
          In s ["B-PER:Pos0=VBZ"]%string \/ In s (feature_strings two_words 1 "B-PER"))
    /\ length feats = 14
    /\ Forall2 (fun f s => Indexer.get_object ix' f = Some s)
               feats (feature_strings two_words 1 "B-PER").
Proof.
  apply (@extract_training_returns_fourteen_ids two_words 1 "B-PER" (tok "works" "VBZ")
           ["B-PER:Pos0=VBZ"]%string).
  - reflexivity.
  - discriminate.
Defined.

(** X8.  Features extracted in training mode are reproduced afterwards:
    on the indexer a training-mode call leaves, and on any indexer grown
    from it, [extract_emission_features] gives the same result in either
    mode (the same ids, or the same exception) and registers nothing. *)
Theorem extract_training_then_any_mode
    (sentence_tokens : list Token) (word_index : nat) (tag : string)
    (ix ix1 ix2 : Indexer.t) (r : result (list nat)) (b : bool) :
  extract_emission_features sentence_tokens word_index tag true ix = (ix1, r) ->
  extends ix1 ix2 ->
  extract_emission_features sentence_tokens word_index tag b ix2 = (ix2, r).
Proof.
  set (strs := feature_strings sentence_tokens word_index tag).
  rewrite !extract_as_features.
  destruct (nth_error sentence_tokens word_index) as [tk|] eqn:Hn.
  - cbv zeta. fold strs. rewrite features_training. intros E Hext.
    assert (E1 : ix1 = add_all ix strs) by (destruct (word tk); simpl in E; congruence).
    subst ix1.
    assert (Hknown : Forall (fun s => In s ix2) strs).
    { eapply Forall_impl; [|apply (add_all_in strs ix)].
      intros s Hs. eapply extends_in; eassumption. }
    assert (Hids : ids_of ix2 strs = ids_of (add_all ix strs) strs)
      by (apply ids_of_extends; [apply add_all_in|exact Hext]).
    destruct b.
    + rewrite features_training, (@add_all_known strs ix2 Hknown), Hids.
      destruct (word tk); simpl in E |- *; congruence.
    + rewrite features_inference, Hids.
      destruct (word tk); simpl in E |- *; congruence.
  - intros E _. inversion E. reflexivity.
Qed.

Lemma extract_training_then_any_mode_witness :
  extract_emission_features two_words 0 "O" false
    (fst (extract_emission_features two_words 0 "O" true []) ++ ["B-PER:Word0=Alice"]%string)
  = (fst (extract_emission_features two_words 0 "O" true []) ++ ["B-PER:Word0=Alice"]%string,
     snd (extract_emission_features two_words 0 "O" true [])).
Proof.
  apply (@extract_training_then_any_mode two_words 0 "O" []
           (fst (extract_emission_features two_words 0 "O" true []))
           (fst (extract_emission_features two_words 0 "O" true []) ++ ["B-PER:Word0=Alice"]%string)
           (snd (extract_emission_features two_words 0 "O" true [])) false).
  - apply surjective_pairing.
  - exists ["B-PER:Word0=Alice"]%string. reflexivity.
Defined.

(** X9.  On an empty word, training-mode extraction raises the [IndexError]
    of [curr_word[0]] only after the twelve context and n-gram feature
    strings were registered: the failed call leaves the indexer grown by
    the strings among them it did not hold. *)
Theorem extract_training_empty_word_registers
    (sentence_tokens : list Token) (word_index : nat) (tag : string) (tk : Token)
    (ix : Indexer.t) :
  nth_error sentence_tokens word_index = Some tk ->
  word tk = EmptyString ->
  let strs := feature_strings sentence_tokens word_index tag in
  extract_emission_features sentence_tokens word_index tag true ix
  = (add_all ix strs, Raise string_index_out_of_range)
  /\ length strs = 12
  /\ Forall (fun s => Indexer.contains (add_all ix strs) s = true) strs
  /\ extends ix (add_all ix strs).
Proof.
  intros Hn Hw strs.
  pose proof (length_feature_strings sentence_tokens word_index tag Hn) as Hlen.
  rewrite Hw in Hlen.
  rewrite extract_as_features, Hn. cbv zeta. fold strs. rewrite features_training, Hw.
  split; [reflexivity|]. split; [exact Hlen|]. split; [|apply add_all_extends].
  eapply Forall_impl; [|apply (add_all_in strs ix)].
  intros s Hs. apply contains_in. exact Hs.
Qed.

Lemma extract_training_empty_word_registers_witness :
  let strs := feature_strings with_empty_word 1 "O" in
  extract_emission_features with_empty_word 1 "O" true []
  = (add_all [] strs, Raise string_index_out_of_range)
  /\ length strs = 12
  /\ Forall (fun s => Indexer.contains (add_all [] strs) s = true) strs
  /\ extends [] (add_all [] strs).
Proof.
  apply (@extract_training_empty_word_registers with_empty_word 1 "O"
           (tok EmptyString "VBZ") []).
  - reflexivity.
  - reflexivity.
Defined.

(** ** The feature phase of CRF training *)

Lemma trains_weaken {A} (P Q : A -> Prop) (c c' : IxM A) :
  (forall a, P a -> Q a) -> trains P c c' -> trains Q c c'.
Proof.
  intros HPQ H ix. destruct (H ix) as [ix1 [a [E [Hext [HP Hre]]]]].
  exists ix1, a. auto.
Qed.

Lemma trains_map {A B} (P : A -> B -> Prop) (f f' : A -> IxM B) (l : list A) :
  (forall a, In a l -> trains (P a) (f a) (f' a)) ->
  trains (Forall2 P l) (ix_map f l) (ix_map f' l).
Proof.
  induction l as [|a l IH]; intros Hf ix.
  - exists ix, []. simpl. unfold ix_ret.
    split; [reflexivity|]. split; [apply extends_refl|]. split; [constructor|].
    reflexivity.
  - destruct (Hf a (or_introl eq_refl) ix) as [ix1 [b [E [Hext [HP Hre]]]]].
    destruct (IH (fun x Hx => Hf x (or_intror Hx)) ix1)
      as [ix2 [bs [E' [Hext' [HP' Hre']]]]].
    exists ix2, (b :: bs). simpl. unfold ix_bind, ix_ret. rewrite E, E'.
    split; [reflexivity|]. split; [eapply extends_trans; eassumption|].
    split; [constructor; assumption|].
    intros ix3 Hext3.
    rewrite (Hre ix3) by (eapply extends_trans; eassumption).
    rewrite (Hre' ix3 Hext3). reflexivity.
Qed.

Lemma trains_extract (sentence_tokens : list Token) (word_index : nat) (tag : string)
    (tk : Token) :
  nth_error sentence_tokens word_index = Some tk ->
  word tk <> EmptyString ->
  trains (fun feats => length feats = 14)
         (extract_emission_features sentence_tokens word_index tag true)
         (extract_emission_features sentence_tokens word_index tag false).
Proof.
  intros Hn Hw ix.
  pose proof (length_feature_strings sentence_tokens word_index tag Hn) as Hlen.
  set (strs := feature_strings sentence_tokens word_index tag) in *.
  assert (Hk : Forall2 (fun f s => Indexer.get_object (add_all ix strs) f = Some s)
                       (ids_of (add_all ix strs) strs) strs)
    by (apply ids_of_known, add_all_in).
  apply Forall2_length in Hk.
  exists (add_all ix strs), (ids_of (add_all ix strs) strs).
  rewrite extract_as_features, Hn. cbv zeta. fold strs. rewrite features_training.
  destruct (word tk) as [|c0 w'] eqn:Ew; [congruence|].
  split; [reflexivity|]. split; [apply add_all_extends|]. split; [lia|].
  intros ix2 Hext. rewrite extract_as_features, Hn. cbv zeta. fold strs.
  rewrite features_inference, Ew.
  rewrite (@ids_of_extends strs (add_all ix strs) ix2); [reflexivity| |exact Hext].
  apply add_all_in.
Qed.

Lemma nonempty_words_nth (sentence_tokens : list Token) (word_idx : nat) :
  nonempty_words sentence_tokens = true ->
  word_idx < length sentence_tokens ->
  exists tk, nth_error sentence_tokens word_idx = Some tk /\ word tk <> EmptyString.
Proof.
  intros Hw Hi. destruct (nth_error sentence_tokens word_idx) as [tk|] eqn:Hn.
  - exists tk. split; [reflexivity|].
    unfold nonempty_words in Hw. rewrite forallb_forall in Hw.
    specialize (Hw tk (nth_error_In _ _ Hn)).
    apply negb_true_iff, String.eqb_neq in Hw. exact Hw.
  - apply nth_error_None in Hn. lia.
Qed.

Lemma Forall2_shape {A B} (P : B -> Prop) (l : list A) (bs : list B) :
  Forall2 (fun _ b => P b) l bs -> length bs = length l /\ Forall P bs.
Proof.
  induction 1 as [|a b l bs HP _ [IH1 IH2]]; simpl.
  - split; [reflexivity|constructor].
  - split; [congruence|constructor; assumption].
Qed.

(** The cache of a sentence without empty words, filled in training mode,
    and its replay in inference mode. *)
Lemma trains_build_feature_cache (tag_indexer : Indexer.t) (sentence_tokens : list Token) :
  nonempty_words sentence_tokens = true ->
  trains (fun cache =>
            cache_shaped cache (length sentence_tokens) (Indexer.len tag_indexer)
            /\ Forall (Forall (fun feats => length feats = 14)) cache)
         (build_feature_cache tag_indexer sentence_tokens true)
         (build_feature_cache tag_indexer sentence_tokens false).
Proof.
  intro Hw. unfold build_feature_cache.
  eapply trains_weaken;
    [|apply trains_map
        with (P := fun (_ : nat) (row : list (list nat)) =>
                     length row = Indexer.len tag_indexer
                     /\ Forall (fun feats => length feats = 14) row)].
  - intros cache H. apply Forall2_shape in H. destruct H as [Hl H].
    rewrite length_seq in Hl. unfold cache_shaped.
    split; [split; [exact Hl|]|].
    + eapply Forall_impl; [|exact H]. intros row [Hr _]. exact Hr.
    + eapply Forall_impl; [|exact H]. intros row [_ Hr]. exact Hr.
  - intros word_idx Hin. apply in_seq in Hin.
    destruct (@nonempty_words_nth sentence_tokens word_idx Hw) as [tk [Hn Htk]]; [lia|].
    eapply trains_weaken;
      [|apply trains_map with (P := fun (_ : nat) (feats : list nat) => length feats = 14)].
    + intros row H. apply Forall2_shape in H. rewrite length_seq in H. exact H.
    + intros tag_idx Hin'. apply in_seq in Hin'.
      unfold Indexer.get_object, Indexer.len in *.
      destruct (nth_error tag_indexer tag_idx) as [tag|] eqn:Ht.
      * eapply trains_extract; eassumption.
      * apply nth_error_None in Ht. lia.
Qed.

Lemma ix_map_inference {A B} (Q : B -> Prop) (f : A -> IxM B) (l : list A)
    (ix : Indexer.t) :
  (forall a ix' b, f a ix = (ix', Ok b) -> ix' = ix /\ Q b) ->
  forall ix' bs,
    ix_map f l ix = (ix', Ok bs) ->
    ix' = ix /\ Forall2 (fun a b => f a ix = (ix, Ok b) /\ Q b) l bs.
Proof.
  intro Hf. induction l as [|a l IH]; intros ix' bs E; simpl in E.
  - inversion E. split; [reflexivity|constructor].
  - unfold ix_bind in E. destruct (f a ix) as [ix1 [b|e]] eqn:Ea; [|discriminate].
    destruct (Hf a ix1 b Ea) as [-> HQ].
    destruct (ix_map f l ix) as [ix2 [bs'|e]] eqn:El; [|discriminate].
    destruct (IH ix2 bs' eq_refl) as [-> IH'].
    inversion E; subst. split; [reflexivity|].
    constructor; [split; [exact Ea|exact HQ]|exact IH'].
Qed.

Lemma extract_inference_below (sentence_tokens : list Token) (word_index : nat)
    (tag : string) (ix ix' : Indexer.t) (feats : list nat) :
  extract_emission_features sentence_tokens word_index tag false ix = (ix', Ok feats) ->
  ix' = ix /\ Forall (fun f => f < Indexer.len ix) feats.
Proof.
  rewrite extract_as_features.
  destruct (nth_error sentence_tokens word_index) as [tk|]; [|discriminate].
  cbv zeta. rewrite features_inference.
  destruct (word tk); [discriminate|].
  intro E. inversion E. split; [reflexivity|]. apply ids_of_below.
Qed.

Lemma build_feature_cache_below (tag_indexer : Indexer.t) (sentence_tokens : list Token)
    (ix ix' : Indexer.t) (cache : list (list (list nat))) :
  build_feature_cache tag_indexer sentence_tokens false ix = (ix', Ok cache) ->
  ix' = ix /\ Forall (Forall (Forall (fun f => f < Indexer.len ix))) cache.
Proof.
  unfold build_feature_cache. intro E.
  apply ix_map_inference
    with (Q := Forall (Forall (fun f => f < Indexer.len ix))) in E.
  - destruct E as [-> H]. split; [reflexivity|].
    clear - H. induction H as [|a b l bs [_ Hb] _ IH]; constructor; assumption.
  - intros word_idx ix1 row Erow.
    apply ix_map_inference with (Q := Forall (fun f => f < Indexer.len ix)) in Erow.
    + destruct Erow as [-> H]. split; [reflexivity|].
      clear - H. induction H as [|a b l bs [_ Hb] _ IH]; constructor; assumption.
    + intros tag_idx ix2 feats Ef.
      destruct (Indexer.get_object tag_indexer tag_idx) as [tag|]; [|discriminate].
      eapply extract_inference_below. exact Ef.
Qed.

Lemma add_all_app (l1 l2 : list string) (ix : Indexer.t) :
  add_all ix (l1 ++ l2) = add_all (add_all ix l1) l2.
Proof. unfold add_all. apply fold_left_app. Qed.

Lemma train_crf_model_tag_indexer_concat (sentences : list LabeledSentence) :
  train_crf_model_tag_indexer sentences
  = add_all Indexer.empty (concat (map get_bio_tags sentences)).
Proof.
  unfold train_crf_model_tag_indexer. generalize Indexer.empty.
  induction sentences as [|s sentences IH]; intro ix; simpl; [reflexivity|].
  rewrite add_all_app. apply IH.
Qed.

Lemma add_all_nodup (strs : list string) (ix : Indexer.t) :
  NoDup ix -> NoDup (add_all ix strs).
Proof.
  revert ix. induction strs as [|s strs IH]; intros ix H; simpl; [exact H|].
  apply IH. destruct (add_and_get_index_spec ix s) as [_ [_ [E|[E Hnew]]]]; rewrite E.
  - exact H.
  - apply NoDup_app; [exact H|repeat constructor; intros []|].
    intros x Hx [<-|[]]. exact (Hnew Hx).
Qed.

Lemma train_crf_model_tags_indexed (sentences : list LabeledSentence)
    (sentence : LabeledSentence) :
  In sentence sentences ->
  Forall (fun tag => In tag (train_crf_model_tag_indexer sentences))
         (get_bio_tags sentence).
Proof.
  intro Hin. rewrite train_crf_model_tag_indexer_concat.
  apply Forall_forall. intros tag Htag.
  pose proof (add_all_in (concat (map get_bio_tags sentences)) Indexer.empty) as H.
  rewrite Forall_forall in H. apply H.
  apply in_concat. exists (get_bio_tags sentence). split; [|exact Htag].
  apply in_map. exact Hin.
Qed.

Lemma forallb_first_false {A} (f : A -> bool) (l : list A) :
  forallb f l = false ->
  exists l1 a l2, l = l1 ++ a :: l2 /\ forallb f l1 = true /\ f a = false.
Proof.
  induction l as [|x l IH]; simpl; [discriminate|].
  destruct (f x) eqn:E; simpl.
  - intro H. destruct (IH H) as [l1 [a [l2 [-> [H1 Ha]]]]].
    exists (x :: l1), a, l2. simpl. rewrite E. auto.
  - intros _. exists [], x, l. auto.
Qed.

Lemma ix_map_raises_at {A B} (f : A -> IxM B) (l1 l2 : list A) (a : A) (e : exn) :
  (forall x, In x l1 -> forall ix, exists ix' b, f x ix = (ix', Ok b)) ->
  (forall ix, exists ix', f a ix = (ix', Raise e)) ->
  forall ix, exists ix', ix_map f (l1 ++ a :: l2) ix = (ix', Raise e).
Proof.
  intros H1 Ha. induction l1 as [|x l1 IH]; intro ix; simpl; unfold ix_bind.
  - destruct (Ha ix) as [ix' ->]. eauto.
  - destruct (H1 x (or_introl eq_refl) ix) as [ix1 [b ->]].
    fold (@ix_bind (list B) (list B)).
    destruct (IH (fun y Hy => H1 y (or_intror Hy)) ix1) as [ix' E].
    unfold ix_bind. rewrite E. eauto.
Qed.

Lemma nonempty_words_firstn (sentence_tokens : list Token) (k : nat) :
  nonempty_words (firstn k sentence_tokens) = true ->
  forall x tx, x < k -> nth_error sentence_tokens x = Some tx -> word tx <> EmptyString.
Proof.
  intros Hbefore x tx Hx Hnx.
  unfold nonempty_words in Hbefore. rewrite forallb_forall in Hbefore.
  assert (Hin : In tx (firstn k sentence_tokens)).
  { apply nth_error_In with (n := x). rewrite nth_error_firstn.
    replace (x <? k) with true by (symmetry; apply Nat.ltb_lt; lia). exact Hnx. }
  specialize (Hbefore tx Hin). apply negb_true_iff in Hbefore.
  apply String.eqb_neq in Hbefore. exact Hbefore.
Qed.

Lemma build_feature_cache_training_empty_word (tag_indexer : Indexer.t)
    (sentence_tokens : list Token) :
  0 < Indexer.len tag_indexer ->
  nonempty_words sentence_tokens = false ->
  forall ix, exists ix',
    build_feature_cache tag_indexer sentence_tokens true ix
    = (ix', Raise string_index_out_of_range).
Proof.
  intros HT Hw.
  destruct (first_empty_word sentence_tokens Hw) as [k [tk [Hn [Hempty Hbefore]]]].
  assert (Hk : k < length sentence_tokens) by (apply nth_error_Some; congruence).
  unfold build_feature_cache. rewrite (seq_split_at Hk).
  apply ix_map_raises_at.
  - intros x Hx ix. apply in_seq in Hx.
    destruct (nth_error sentence_tokens x) as [tx|] eqn:Hnx.
    2:{ apply nth_error_None in Hnx. lia. }
    assert (Htx : word tx <> EmptyString)
      by (eapply nonempty_words_firstn; [exact Hbefore| |exact Hnx]; lia).
    destruct (@trains_map nat (list nat)
                (fun _ feats => length feats = 14)
                (fun tag_idx =>
                   match Indexer.get_object tag_indexer tag_idx with
                   | Some tag => extract_emission_features sentence_tokens x tag true
                   | None => ix_raise none_is_not_a_string
                   end)
                (fun tag_idx =>
                   match Indexer.get_object tag_indexer tag_idx with
                   | Some tag => extract_emission_features sentence_tokens x tag false
                   | None => ix_raise none_is_not_a_string
                   end)
                (seq 0 (Indexer.len tag_indexer))) with (ix := ix)
      as [ix1 [row [E _]]].
    + intros tag_idx Hin'. apply in_seq in Hin'.
      unfold Indexer.get_object, Indexer.len in *.
      destruct (nth_error tag_indexer tag_idx) as [tag|] eqn:Ht.
      * eapply trains_extract; eassumption.
      * apply nth_error_None in Ht. lia.
    + eauto.
  - intro ix. unfold Indexer.len in *.
    destruct tag_indexer as [|tag0 tags]; [simpl in HT; lia|].
    simpl. unfold ix_bind. rewrite extract_as_features, Hn. cbv zeta.
    rewrite features_training, Hempty. simpl. eauto.
Qed.

Lemma Forall2_both {A B} (P Q R : A -> B -> Prop) (l : list A) (bs : list B) :
  Forall2 P l bs -> Forall2 Q l bs ->
  (forall a b, P a b -> Q a b -> R a b) ->
  Forall2 R l bs.
Proof.
  intros HP HQ H. induction HP as [|a b l bs Hab _ IH]; inversion HQ; subst;
    constructor; auto.
Qed.

Lemma feature_phase_trains (sentences : list LabeledSentence) :
  Forall (fun sentence => nonempty_words (tokens sentence) = true) sentences ->
  let tag_indexer := train_crf_model_tag_indexer sentences in
  exists feature_indexer feature_cache,
    train_crf_model_feature_cache sentences = (feature_indexer, Ok feature_cache)
    /\ Forall2 (fun sentence cache =>
                  cache_shaped cache (length (tokens sentence)) (Indexer.len tag_indexer)
                  /\ Forall (Forall (fun feats => length feats = 14)) cache)
               sentences feature_cache
    /\ Forall2 (fun sentence cache =>
                  build_feature_cache tag_indexer (tokens sentence) false feature_indexer
                  = (feature_indexer, Ok cache)
                  /\ Forall (Forall (Forall (fun f => f < Indexer.len feature_indexer))) cache)
               sentences feature_cache.
Proof.
  intros Hw tag_indexer. unfold train_crf_model_feature_cache. cbv zeta.
  fold tag_indexer.
  destruct (@trains_map LabeledSentence (list (list (list nat)))
              (fun sentence cache =>
                 cache_shaped cache (length (tokens sentence)) (Indexer.len tag_indexer)
                 /\ Forall (Forall (fun feats => length feats = 14)) cache)
              (fun sentence => build_feature_cache tag_indexer (tokens sentence) true)
              (fun sentence => build_feature_cache tag_indexer (tokens sentence) false)
              sentences) with (ix := Indexer.empty)
    as [ixf [caches [E [_ [Hshape Hreplay]]]]].
  { intros s Hs. apply trains_build_feature_cache.
    rewrite Forall_forall in Hw. apply Hw. exact Hs. }
  exists ixf, caches. split; [exact E|]. split; [exact Hshape|].
  specialize (Hreplay ixf (extends_refl ixf)).
  apply ix_map_inference
    with (Q := Forall (Forall (Forall (fun f => f < Indexer.len ixf)))) in Hreplay.
  - destruct Hreplay as [_ Hbelow]. exact Hbelow.
  - intros s ix' cache Ec. eapply build_feature_cache_below. exact Ec.
Qed.

Lemma fourteen_known_intro (bound : nat) (cache : list (list (list nat))) :
  Forall (Forall (fun feats => length feats = 14)) cache ->
  Forall (Forall (Forall (fun f => f < bound))) cache ->
  fourteen_known bound cache.
Proof.
  intros H14 Hb. unfold fourteen_known.
  eapply Forall_impl; [|apply (Forall_and H14 Hb)].
  intros row [Hrow Hbrow]. apply (Forall_and Hrow Hbrow).
Qed.

(** X10.  When no word of the corpus is empty, the feature phase of
    [train_crf_model] returns, with one cache per sentence; the cache of a
    sentence has one row per word and one feature list per tag, and every
    feature list holds fourteen ids of the feature indexer the phase
    leaves. *)
Theorem train_crf_model_caches_fourteen_features (sentences : list LabeledSentence) :
  Forall (fun sentence => nonempty_words (tokens sentence) = true) sentences ->
  exists feature_indexer feature_cache,
    train_crf_model_feature_cache sentences = (feature_indexer, Ok feature_cache)
    /\ Forall2 (fun sentence cache =>
                  cache_shaped cache (length sentence)
                    (Indexer.len (train_crf_model_tag_indexer sentences))
                  /\ fourteen_known (Indexer.len feature_indexer) cache)
               sentences feature_cache.
Proof.
  intro Hw.
  destruct (feature_phase_trains Hw) as [ixf [caches [E [Hshape Hbelow]]]].
  exists ixf, caches. split; [exact E|].
  eapply Forall2_both; [exact Hshape|exact Hbelow|].
  intros s cache [Hs H14] [_ Hb]. split.
  - unfold tokens in Hs. rewrite length_map in Hs. exact Hs.
  - apply fourteen_known_intro; assumption.
Qed.

Lemma train_crf_model_caches_fourteen_features_witness :
  exists feature_indexer feature_cache,
    train_crf_model_feature_cache two_sentences = (feature_indexer, Ok feature_cache)
    /\ Forall2 (fun sentence cache =>
                  cache_shaped cache (length sentence)
                    (Indexer.len (train_crf_model_tag_indexer two_sentences))
                  /\ fourteen_known (Indexer.len feature_indexer) cache)
               two_sentences feature_cache.
Proof.
  apply (@train_crf_model_caches_fourteen_features two_sentences).
  repeat constructor.
Defined.

Lemma feature_phase_empty_word (sentences : list LabeledSentence) :
  forallb (fun sentence => nonempty_words (tokens sentence)) sentences = false ->
  exists feature_indexer,
    train_crf_model_feature_cache sentences
    = (feature_indexer, Raise string_index_out_of_range).
Proof.
  intro H. destruct (forallb_first_false _ _ H) as [l1 [s [l2 [E [H1 Hs]]]]].
  unfold train_crf_model_feature_cache. cbv zeta.
  assert (HT : 0 < Indexer.len (train_crf_model_tag_indexer sentences)).
  { assert (Hin : In s sentences) by (rewrite E; apply in_elt).
    pose proof (train_crf_model_tags_indexed sentences s Hin) as Htags.
    destruct s as [|[tk tag] rest]; [discriminate|].
    pose proof (Forall_inv Htags) as Htag. simpl in Htag. revert Htag.
    unfold Indexer.len.
    destruct (train_crf_model_tag_indexer sentences); [intros []|intros _; simpl; lia]. }
  set (tag_indexer := train_crf_model_tag_indexer sentences) in *. clearbody tag_indexer.
  rewrite E. apply ix_map_raises_at.
  - intros x Hx ix. rewrite forallb_forall in H1.
    destruct (@trains_build_feature_cache tag_indexer (tokens x) (H1 x Hx) ix)
      as [ix1 [cache [Ec _]]].
    eauto.
  - intro ix. apply build_feature_cache_training_empty_word; assumption.
Qed.

(** X11.  When a sentence of the corpus contains an empty word, the feature
    phase of [train_crf_model] raises the [IndexError] of [curr_word[0]],
    and no model is trained. *)
Theorem train_crf_model_raises_on_empty_word (sentences : list LabeledSentence) :
  Exists (fun sentence => nonempty_words (tokens sentence) = false) sentences ->
  exists feature_indexer,
    train_crf_model_feature_cache sentences
    = (feature_indexer, Raise string_index_out_of_range).
Proof.
  intro H. apply feature_phase_empty_word.
  apply Exists_exists in H. destruct H as [s [Hin Hs]].
  destruct (forallb (fun sentence => nonempty_words (tokens sentence)) sentences) eqn:E;
    [|reflexivity].
  rewrite forallb_forall in E. rewrite (E s Hin) in Hs. discriminate.
Qed.

Lemma train_crf_model_raises_on_empty_word_witness :
  exists feature_indexer,
    train_crf_model_feature_cache
      [[(tok "Alice" "NNP", "B-PER"%string); (tok EmptyString "VBZ", "O"%string)]]
    = (feature_indexer, Raise string_index_out_of_range).
Proof.
  apply (@train_crf_model_raises_on_empty_word
           [[(tok "Alice" "NNP", "B-PER"%string); (tok EmptyString "VBZ", "O"%string)]]).
  apply Exists_cons_hd. reflexivity.
Defined.

(** X12.  The model [train_crf_model] returns sees a training sentence as
    training saw it: whatever the weights, the feature cache [decode] fills
    for the tokens of a training sentence, in inference mode over the
    trained feature indexer, is the cache the feature phase stored for that
    sentence. *)
Theorem trained_model_reproduces_training_features
    (sentences : list LabeledSentence) (feature_indexer : Indexer.t)
    (feature_cache : list (list (list (list nat)))) (weights : list Q) :
  train_crf_model_feature_cache sentences = (feature_indexer, Ok feature_cache) ->
  Forall2 (fun sentence cache =>
             feature_cache_of (crf_model_of sentences weights) (tokens sentence) = Ok cache)
          sentences feature_cache.
Proof.
  intro E.
  assert (Hw : Forall (fun sentence => nonempty_words (tokens sentence) = true) sentences).
  { apply Forall_forall. intros s Hs.
    destruct (forallb (fun sentence => nonempty_words (tokens sentence)) sentences) eqn:Hw.
    - rewrite forallb_forall in Hw. apply Hw. exact Hs.
    - destruct (feature_phase_empty_word sentences Hw) as [ix E'].
      rewrite E in E'. discriminate. }
  destruct (feature_phase_trains Hw) as [ixf [caches [E' [_ Hbelow]]]].
  rewrite E in E'. inversion E'; subst ixf caches. clear E'.
  unfold feature_cache_of, crf_model_of. simpl. rewrite E. simpl.
  eapply Forall2_impl; [|exact Hbelow].
  intros s cache [Ec _]. rewrite Ec. reflexivity.
Qed.

Lemma trained_model_reproduces_training_features_witness :
  exists feature_indexer feature_cache,
    train_crf_model_feature_cache two_sentences = (feature_indexer, Ok feature_cache)
    /\ Forall2 (fun sentence cache =>
                  feature_cache_of (crf_model_of two_sentences [inject_Z 1])
                    (tokens sentence) = Ok cache)
               two_sentences feature_cache.
Proof.
  eexists. eexists. split.
  - vm_compute. reflexivity.
  - eapply trained_model_reproduces_training_features.
    vm_compute. reflexivity.
Defined.

(** ** The value [compute_gradient] returns *)

Lemma fold_left_ext_in {A B} (f g : A -> B -> A) (l : list B) (a : A) :
  (forall x acc, In x l -> f acc x = g acc x) ->
  fold_left f l a = fold_left g l a.
Proof.
  revert a. induction l as [|x l IH]; intros a H; simpl; [reflexivity|].
  rewrite H by (left; reflexivity). apply IH.
  intros y acc Hy. apply H. right. exact Hy.
Qed.

Lemma fold_right_ext_in {A B} (f g : B -> A -> A) (l : list B) (a : A) :
  (forall x acc, In x l -> f x acc = g x acc) ->
  fold_right f a l = fold_right g a l.
Proof.
  induction l as [|x l IH]; intro H; simpl; [reflexivity|].
  rewrite IH by (intros y acc Hy; apply H; right; exact Hy).
  apply H. left. reflexivity.
Qed.

(** [compute_gradient] in closed form, where the gold feature lists are
    read. *)
Lemma compute_gradient_explicit (sentence : LabeledSentence) (tag_indexer : Indexer.t)
    (scorer : FeatureBasedSequenceScorer.t R) :
  0 < length sentence ->
  0 < Indexer.len tag_indexer ->
  (forall i, i < length sentence ->
     py_index (nth i (FeatureBasedSequenceScorer.feat_cache scorer) [])
       (Indexer.index_of tag_indexer (nth i (get_bio_tags sentence) EmptyString))
     = Some (gold_features sentence tag_indexer
               (FeatureBasedSequenceScorer.feat_cache scorer) i)) ->
  compute_gradient sentence tag_indexer scorer
  = Ok (logsumexp (map (gold_score sentence tag_indexer scorer) (seq 0 (length sentence))),
        counter_subtract
          (counter_of_list
             (concat (map (gold_features sentence tag_indexer
                             (FeatureBasedSequenceScorer.feat_cache scorer))
                          (seq 0 (length sentence)))))
          (expected_features (Indexer.len tag_indexer) (length sentence)
             (marginal (Indexer.len tag_indexer)
                (FeatureBasedSequenceScorer.score_transition scorer)
                (FeatureBasedSequenceScorer.score_emission scorer)
                (length sentence))
             (FeatureBasedSequenceScorer.feat_cache scorer))).
Proof.
  intros HN HT Hgold.
  set (cache := FeatureBasedSequenceScorer.feat_cache scorer) in *.
  set (N := length sentence) in *.
  set (T := Indexer.len tag_indexer) in *.
  unfold compute_gradient, expected_features. fold N. fold T. fold cache.
  unfold counter in *.
  destruct T as [|T'] eqn:ET; [lia|]. destruct N as [|N'] eqn:EN; [lia|].
  rewrite <- ET, <- EN in *. clear ET EN T' N'.
  match goal with
  | |- context [fold_left ?step (seq 0 N) (Ok ([], []))] => set (loop := step)
  end.
  match goal with
  | |- context [fold_left ?step (seq 0 N) []] => set (pure := step)
  end.
  assert (Hloop : forall l (ff : list nat) (fs : list (nat * R)),
            (forall i, In i l -> i < N) ->
            fold_left loop l (Ok (ff, fs))
            = Ok (ff ++ concat (map (gold_features sentence tag_indexer cache) l),
                  fold_left pure l fs)).
  { induction l as [|i l IH]; intros ff fs Hl.
    - simpl. rewrite app_nil_r. reflexivity.
    - assert (Estep : loop (Ok (ff, fs)) i
                      = @Ok (list nat * list (nat * R))
                          (ff ++ gold_features sentence tag_indexer cache i, pure fs i)).
      { unfold loop. simpl bind_result.
        rewrite Hgold by (apply Hl; left; reflexivity). reflexivity. }
      change (fold_left loop (i :: l) (Ok (ff, fs)))
        with (fold_left loop l (loop (Ok (ff, fs)) i)).
      etransitivity; [apply f_equal; exact Estep|].
      etransitivity; [apply IH; intros j Hj; apply Hl; right; exact Hj|].
      simpl. rewrite <- app_assoc. reflexivity. }
  match goal with
  | |- context [bind_result ?x _] =>
      replace x
        with (@Ok (list nat * list (nat * R))
                ([] ++ concat (map (gold_features sentence tag_indexer cache) (seq 0 N)),
                 fold_left pure (seq 0 N) []))
        by (symmetry; apply Hloop; intros i Hi; apply in_seq in Hi; lia)
  end.
  simpl bind_result.
  match goal with
  | |- context [fold_right ?step (Ok []) (seq 0 N)] => set (gold_scores := step)
  end.
  assert (Hscores : forall l, (forall i, In i l -> i < N) ->
            fold_right gold_scores (Ok []) l
            = Ok (map (gold_score sentence tag_indexer scorer) l)).
  { induction l as [|i l IH]; intro Hl; simpl; [reflexivity|].
    rewrite IH by (intros j Hj; apply Hl; right; exact Hj).
    unfold gold_scores at 1. simpl.
    rewrite Hgold by (apply Hl; left; reflexivity). reflexivity. }
  rewrite Hscores by (intros i Hi; apply in_seq in Hi; lia).
  reflexivity.
Qed.

Lemma gold_features_read (sentence : LabeledSentence) (tag_indexer : Indexer.t)
    (cache : list (list (list nat))) :
  Forall (fun tag => In tag tag_indexer) (get_bio_tags sentence) ->
  cache_shaped cache (length sentence) (Indexer.len tag_indexer) ->
  forall i, i < length sentence ->
    py_index (nth i cache [])
      (Indexer.index_of tag_indexer (nth i (get_bio_tags sentence) EmptyString))
    = Some (gold_features sentence tag_indexer cache i).
Proof.
  intros Htags [Hrows Hcols] i Hi. unfold gold_features. apply gold_lookup.
  - rewrite Forall_forall in Htags. apply Htags. apply nth_In.
    unfold get_bio_tags. rewrite length_map. exact Hi.
  - rewrite Forall_forall in Hcols. apply Hcols. apply nth_In. lia.
Qed.

Lemma gold_tags_positive (sentence : LabeledSentence) (tag_indexer : Indexer.t) :
  sentence <> [] ->
  Forall (fun tag => In tag tag_indexer) (get_bio_tags sentence) ->
  0 < length sentence /\ 0 < Indexer.len tag_indexer.
Proof.
  intros Hne Htags. destruct sentence as [|[tk tg] rest]; [congruence|].
  split; [simpl; lia|].
  pose proof (Forall_inv Htags) as Hin. simpl in Hin.
  unfold Indexer.len. destruct tag_indexer; [destruct Hin|simpl; lia].
Qed.

Lemma sum_R_member {A} (f : A -> R) (l : list A) (a : A) :
  (forall x, In x l -> (0 <= f x)%R) -> In a l -> (f a <= sum_R (map f l))%R.
Proof.
  induction l as [|x l IH]; intros Hpos Hin; [destruct Hin|]. simpl.
  assert (Hrest : (0 <= sum_R (map f l))%R).
  { clear - Hpos. induction l as [|y l IH]; simpl; [lra|].
    assert (0 <= f y)%R by (apply Hpos; right; left; reflexivity).
    assert (0 <= sum_R (map f l))%R.
    { apply IH. intros z [Hz|Hz]; apply Hpos; [left|right; right]; assumption. }
    lra. }
  destruct Hin as [<-|Hin].
  - lra.
  - assert (0 <= f x)%R by (apply Hpos; left; reflexivity).
    assert (f a <= sum_R (map f l))%R
      by (apply IH; [intros y Hy; apply Hpos; right; exact Hy|exact Hin]).
    lra.
Qed.

(** X13.  The first component [compute_gradient] returns is the logarithm
    of the sum, over the positions, of the exponentials of the emission
    scores of the gold tags.  It reads no transition score and no feature
    list of another tag, and it is at least the gold emission score of every
    position. *)
Theorem compute_gradient_objective_is_gold_logsumexp
    (sentence : LabeledSentence) (tag_indexer : Indexer.t)
    (scorer : FeatureBasedSequenceScorer.t R) :
  sentence <> [] ->
  Forall (fun tag => In tag tag_indexer) (get_bio_tags sentence) ->
  cache_shaped (FeatureBasedSequenceScorer.feat_cache scorer)
    (length sentence) (Indexer.len tag_indexer) ->
  exists probs gradient,
    compute_gradient sentence tag_indexer scorer = Ok (probs, gradient)
    /\ probs = ln (sum_R (map (fun i => exp (gold_score sentence tag_indexer scorer i))
                              (seq 0 (length sentence))))
    /\ forall i, i < length sentence ->
         (gold_score sentence tag_indexer scorer i <= probs)%R.
Proof.
  intros Hne Htags Hshape.
  destruct (@gold_tags_positive sentence tag_indexer Hne Htags) as [HN HT].
  eexists. eexists. split.
  - apply compute_gradient_explicit; [exact HN|exact HT|].
    apply gold_features_read; assumption.
  - assert (Hln : logsumexp (map (gold_score sentence tag_indexer scorer)
                               (seq 0 (length sentence)))
                  = ln (sum_R (map (fun i => exp (gold_score sentence tag_indexer scorer i))
                                   (seq 0 (length sentence))))).
    { rewrite logsumexp_ln.
      - rewrite map_map. reflexivity.
      - destruct (length sentence); [lia|]. discriminate. }
    split; [exact Hln|].
    intros i Hi. rewrite Hln.
    rewrite <- (ln_exp (gold_score sentence tag_indexer scorer i)) at 1.
    assert (Hle : (exp (gold_score sentence tag_indexer scorer i)
                   <= sum_R (map (fun i => exp (gold_score sentence tag_indexer scorer i))
                                 (seq 0 (length sentence))))%R).
    { apply (sum_R_member (fun i => exp (gold_score sentence tag_indexer scorer i))).
      - intros x _. left. apply exp_pos.
      - apply in_seq. lia. }
    destruct Hle as [Hlt|Heq].
    + left. apply ln_increasing; [apply exp_pos|exact Hlt].
    + right. rewrite <- Heq. reflexivity.
Qed.

Lemma compute_gradient_objective_is_gold_logsumexp_witness :
  exists probs gradient,
    compute_gradient gold_sentence ["B-PER"; "O"]%string gold_scorer = Ok (probs, gradient)
    /\ probs = ln (sum_R (map (fun i => exp (gold_score gold_sentence ["B-PER"; "O"]%string
                                               gold_scorer i))
                              (seq 0 (length gold_sentence))))
    /\ forall i, i < length gold_sentence ->
         (gold_score gold_sentence ["B-PER"; "O"]%string gold_scorer i <= probs)%R.
Proof.
  apply (@compute_gradient_objective_is_gold_logsumexp
           gold_sentence ["B-PER"; "O"]%string gold_scorer).
  - discriminate.
  - constructor; [simpl; auto|constructor; [simpl; auto|constructor]].
  - split; [reflexivity|repeat constructor].
Defined.

Lemma counter_sum_add (d : counter) (k : nat) (v : R) :
  counter_sum (counter_add d k v) = (counter_sum d + v)%R.
Proof.
  unfold counter_sum. induction d as [|[k' v'] d IH]; simpl; [lra|].
  destruct (k =? k'); simpl; [lra|]. rewrite IH. lra.
Qed.

Lemma counter_sum_adds (l : list nat) (d : counter) (v : R) :
  counter_sum (fold_left (fun d k => counter_add d k v) l d)
  = (counter_sum d + v * INR (length l))%R.
Proof.
  revert d. induction l as [|k l IH]; intro d.
  - simpl. lra.
  - cbn [fold_left]. rewrite IH, counter_sum_add.
    change (length (k :: l)) with (S (length l)). rewrite S_INR. lra.
Qed.

Lemma counter_sum_of_list (l : list nat) :
  counter_sum (counter_of_list l) = INR (length l).
Proof.
  unfold counter_of_list. rewrite counter_sum_adds.
  unfold counter_sum. simpl. lra.
Qed.

Lemma counter_sum_subtract (other d : counter) :
  counter_sum (counter_subtract d other) = (counter_sum d - counter_sum other)%R.
Proof.
  unfold counter_subtract. revert d.
  induction other as [|[k v] other IH]; intro d.
  - change (counter_sum []) with 0%R. simpl. lra.
  - cbn [fold_left]. rewrite IH, counter_sum_add.
    change (counter_sum ((k, v) :: other)) with (v + counter_sum other)%R.
    simpl. lra.
Qed.

Lemma counter_sum_expected (T N : nat) (m : nat -> nat -> R)
    (cache : list (list (list nat))) :
  counter_sum (expected_features T N m cache)
  = sum_R (map (fun word_idx =>
                  sum_R (map (fun tag_idx =>
                                (m tag_idx word_idx
                                 * INR (length (nth tag_idx (nth word_idx cache []) [])))%R)
                             (seq 0 T)))
               (seq 0 N)).
Proof.
  unfold expected_features.
  assert (Htags : forall w l d,
            counter_sum
              (fold_left (fun features tag_idx =>
                            fold_left (fun features feature =>
                                         counter_add features feature (m tag_idx w))
                                      (nth tag_idx (nth w cache []) []) features)
                         l d)
            = (counter_sum d
               + sum_R (map (fun tag_idx =>
                               (m tag_idx w
                                * INR (length (nth tag_idx (nth w cache []) [])))%R) l))%R).
  { intros w l. induction l as [|t l IH]; intro d.
    - simpl. lra.
    - cbn [fold_left]. rewrite IH, counter_sum_adds. simpl. lra. }
  assert (Hwords : forall l d,
            counter_sum
              (fold_left (fun features word_idx =>
                            fold_left (fun features tag_idx =>
                                         fold_left (fun features feature =>
                                                      counter_add features feature
                                                        (m tag_idx word_idx))
                                                   (nth tag_idx (nth word_idx cache []) [])
                                                   features)
                                      (seq 0 T) features)
                         l d)
            = (counter_sum d
               + sum_R (map (fun word_idx =>
                               sum_R (map (fun tag_idx =>
                                             (m tag_idx word_idx
                                              * INR (length (nth tag_idx
                                                               (nth word_idx cache []) [])))%R)
                                          (seq 0 T))) l))%R).
  { induction l as [|w l IH]; intro d.
    - simpl. lra.
    - cbn [fold_left]. rewrite IH, Htags. simpl. lra. }
  rewrite Hwords. unfold counter_sum at 1. simpl. lra.
Qed.

Lemma sum_R_const {A} (c : R) (l : list A) :
  sum_R (map (fun _ => c) l) = (INR (length l) * c)%R.
Proof.
  induction l as [|x l IH]; [simpl; lra|].
  change (length (x :: l)) with (S (length l)). rewrite S_INR.
  simpl. rewrite IH. lra.
Qed.

Lemma length_concat_const {A} (L : nat) (ls : list (list A)) :
  Forall (fun l => length l = L) ls -> length (concat ls) = length ls * L.
Proof.
  induction 1 as [|l ls Hl _ IH]; simpl; [reflexivity|].
  rewrite length_app, IH, Hl. reflexivity.
Qed.

Lemma gold_index_below (tag_indexer : Indexer.t) (tag : string) :
  In tag tag_indexer ->
  Z.to_nat (Indexer.index_of tag_indexer tag) < Indexer.len tag_indexer.
Proof.
  intro Hin. apply (position_in tag_indexer tag 0) in Hin. destruct Hin as [k Hk].
  unfold Indexer.index_of. rewrite Hk. rewrite Nat2Z.id.
  apply position_bound in Hk. unfold Indexer.len. lia.
Qed.

Lemma cache_entry (P : list nat -> Prop) (cache : list (list (list nat)))
    (N T w t : nat) :
  cache_shaped cache N T ->
  Forall (Forall P) cache ->
  w < N -> t < T -> P (nth t (nth w cache []) []).
Proof.
  intros [Hrows Hcols] HP Hw Ht.
  rewrite Forall_forall in Hcols, HP.
  assert (Hin : In (nth w cache []) cache) by (apply nth_In; lia).
  specialize (Hcols _ Hin). specialize (HP _ Hin).
  rewrite Forall_forall in HP. apply HP. apply nth_In. lia.
Qed.

(** X14.  When every feature list of the cache has the same length, as the
    lists of [extract_emission_features] in training mode have, the values
    of the gradient [compute_gradient] returns sum to zero: the features of
    the gold tags count once per position, and the marginals that are
    subtracted sum to one per position. *)
Theorem compute_gradient_sums_to_zero
    (sentence : LabeledSentence) (tag_indexer : Indexer.t)
    (scorer : FeatureBasedSequenceScorer.t R) (L : nat) :
  sentence <> [] ->
  Forall (fun tag => In tag tag_indexer) (get_bio_tags sentence) ->
  cache_shaped (FeatureBasedSequenceScorer.feat_cache scorer)
    (length sentence) (Indexer.len tag_indexer) ->
  Forall (Forall (fun feats => length feats = L))
         (FeatureBasedSequenceScorer.feat_cache scorer) ->
  exists probs gradient,
    compute_gradient sentence tag_indexer scorer = Ok (probs, gradient)
    /\ counter_sum gradient = 0%R.
Proof.
  intros Hne Htags Hshape HL.
  destruct (@gold_tags_positive sentence tag_indexer Hne Htags) as [HN HT].
  set (cache := FeatureBasedSequenceScorer.feat_cache scorer) in *.
  set (N := length sentence) in *.
  set (T := Indexer.len tag_indexer) in *.
  eexists. eexists. split.
  - apply compute_gradient_explicit; [exact HN|exact HT|].
    apply gold_features_read; assumption.
  - fold cache N T.
    rewrite counter_sum_subtract, counter_sum_of_list, counter_sum_expected.
    rewrite (@length_concat_const nat L).
    2:{ apply Forall_forall. intros feats Hin. apply in_map_iff in Hin.
        destruct Hin as [i [<- Hi]]. apply in_seq in Hi. unfold gold_features.
        apply (@cache_entry (fun feats => length feats = L) cache N T); auto; [lia|].
        apply gold_index_below. rewrite Forall_forall in Htags. apply Htags.
        apply nth_In. unfold get_bio_tags. rewrite length_map. fold N. lia. }
    rewrite length_map, length_seq.
    rewrite (sum_R_ext
               (fun word_idx =>
                  sum_R (map (fun tag_idx =>
                                (marginal T (FeatureBasedSequenceScorer.score_transition scorer)
                                   (FeatureBasedSequenceScorer.score_emission scorer) N
                                   tag_idx word_idx
                                 * INR (length (nth tag_idx (nth word_idx cache []) [])))%R)
                             (seq 0 T)))
               (fun _ => INR L)).
    + rewrite sum_R_const, length_seq, mult_INR. lra.
    + intros w Hw. apply in_seq in Hw.
      rewrite (sum_R_ext
                 (fun tag_idx =>
                    (marginal T (FeatureBasedSequenceScorer.score_transition scorer)
                       (FeatureBasedSequenceScorer.score_emission scorer) N tag_idx w
                     * INR (length (nth tag_idx (nth w cache []) [])))%R)
                 (fun tag_idx =>
                    (marginal T (FeatureBasedSequenceScorer.score_transition scorer)
                       (FeatureBasedSequenceScorer.score_emission scorer) N tag_idx w
                     * INR L)%R)).
      * rewrite sum_R_scale, marginals_sum by lia. lra.
      * intros t Ht. apply in_seq in Ht.
        rewrite (@cache_entry (fun feats => length feats = L) cache N T w t); auto; lia.
Qed.

Lemma compute_gradient_sums_to_zero_witness :
  exists probs gradient,
    compute_gradient gold_sentence ["B-PER"; "O"]%string uniform_scorer = Ok (probs, gradient)
    /\ counter_sum gradient = 0%R.
Proof.
  apply (@compute_gradient_sums_to_zero gold_sentence ["B-PER"; "O"]%string
           uniform_scorer 2).
  - discriminate.
  - constructor; [simpl; auto|constructor; [simpl; auto|constructor]].
  - split; [reflexivity|repeat constructor].
  - repeat constructor.
Defined.

Lemma keys_add (d : counter) (k k' : nat) (v : R) :
  In k (map fst (counter_add d k' v)) -> k = k' \/ In k (map fst d).
Proof.
  induction d as [|[k0 v0] d IH]; simpl.
  - intros [<-|[]]. auto.
  - destruct (k' =? k0) eqn:E; simpl.
    + intros [<-|H]; auto.
    + intros [<-|H]; [auto|]. destruct (IH H); auto.
Qed.

Lemma keys_adds (l : list nat) (d : counter) (v : R) (k : nat) :
  In k (map fst (fold_left (fun d k => counter_add d k v) l d)) ->
  In k l \/ In k (map fst d).
Proof.
  revert d. induction l as [|k0 l IH]; intro d; simpl; [auto|].
  intro H. destruct (IH _ H) as [H1|H1]; [auto|].
  destruct (keys_add _ _ _ _ H1) as [->|H2]; auto.
Qed.

Lemma keys_subtract (other d : counter) (k : nat) :
  In k (map fst (counter_subtract d other)) ->
  In k (map fst d) \/ In k (map fst other).
Proof.
  unfold counter_subtract. revert d.
  induction other as [|[k0 v0] other IH]; intro d; simpl; [auto|].
  intro H. destruct (IH _ H) as [H1|H1]; [|auto].
  destruct (keys_add _ _ _ _ H1) as [->|H2]; auto.
Qed.

Lemma keys_expected (T N : nat) (m : nat -> nat -> R) (cache : list (list (list nat)))
    (k : nat) :
  In k (map fst (expected_features T N m cache)) ->
  exists w t, w < N /\ t < T /\ In k (nth t (nth w cache []) []).
Proof.
  unfold expected_features.
  assert (Htags : forall w l d,
            In k (map fst
                    (fold_left (fun features tag_idx =>
                                  fold_left (fun features feature =>
                                               counter_add features feature (m tag_idx w))
                                            (nth tag_idx (nth w cache []) []) features)
                               l d)) ->
            (exists t, In t l /\ In k (nth t (nth w cache []) [])) \/ In k (map fst d)).
  { intros w l. induction l as [|t l IH]; intro d; simpl; [auto|].
    intro H. destruct (IH _ H) as [[t' [Ht' Hk]]|H1]; [left; eauto|].
    destruct (keys_adds _ _ _ _ H1) as [H2|H2]; [left; eauto|auto]. }
  assert (Hwords : forall l d,
            In k (map fst
                    (fold_left (fun features word_idx =>
                                  fold_left (fun features tag_idx =>
                                               fold_left (fun features feature =>
                                                            counter_add features feature
                                                              (m tag_idx word_idx))
                                                         (nth tag_idx (nth word_idx cache []) [])
                                                         features)
                                            (seq 0 T) features)
                               l d)) ->
            (exists w t, In w l /\ t < T /\ In k (nth t (nth w cache []) []))
            \/ In k (map fst d)).
  { induction l as [|w l IH]; intro d; simpl; [auto|].
    intro H. destruct (IH _ H) as [[w' [t [Hw' [Ht Hk]]]]|H1].
    - left. exists w', t. auto.
    - destruct (Htags _ _ _ H1) as [[t [Ht Hk]]|H2]; [|auto].
      left. exists w, t. apply in_seq in Ht. repeat split; auto; lia. }
  intro H. destruct (Hwords _ _ H) as [[w [t [Hw [Ht Hk]]]]|[]].
  exists w, t. apply in_seq in Hw. repeat split; auto; lia.
Qed.

Lemma Forall2_with {A B} (P : A -> Prop) (Q : A -> B -> Prop) (l : list A) (bs : list B) :
  Forall P l -> Forall2 Q l bs -> Forall2 (fun a b => P a /\ Q a b) l bs.
Proof.
  intros HP HQ. induction HQ as [|a b l bs Hab _ IH]; constructor.
  - split; [exact (Forall_inv HP)|exact Hab].
  - apply IH. exact (Forall_inv_tail HP).
Qed.

(** X15.  The gradient step of the training loop of [train_crf_model] is
    safe on the caches of the feature phase: for any weights, on every
    non-empty sentence of the corpus [compute_gradient] returns, and every
    key of the gradient is a feature id below the length of the feature
    indexer; on an empty sentence of the corpus it raises. *)
Theorem train_crf_model_gradient_step
    (sentences : list LabeledSentence) (feature_indexer : Indexer.t)
    (feature_cache : list (list (list (list nat)))) :
  train_crf_model_feature_cache sentences = (feature_indexer, Ok feature_cache) ->
  let tag_indexer := train_crf_model_tag_indexer sentences in
  Forall2 (fun sentence cache =>
             forall weights,
               (sentence <> [] ->
                exists probs gradient,
                  compute_gradient sentence tag_indexer
                    (training_scorer tag_indexer weights cache) = Ok (probs, gradient)
                  /\ Forall (fun kv => fst kv < Indexer.len feature_indexer) gradient)
               /\ (sentence = [] ->
                   exists e,
                     compute_gradient sentence tag_indexer
                       (training_scorer tag_indexer weights cache) = Raise e))
          sentences feature_cache.
Proof.
  intros E tag_indexer.
  assert (Hw : Forall (fun sentence => nonempty_words (tokens sentence) = true) sentences).
  { apply Forall_forall. intros s Hs.
    destruct (forallb (fun sentence => nonempty_words (tokens sentence)) sentences) eqn:Hw.
    - rewrite forallb_forall in Hw. apply Hw. exact Hs.
    - destruct (feature_phase_empty_word sentences Hw) as [ix E'].
      rewrite E in E'. discriminate. }
  destruct (feature_phase_trains Hw) as [ixf [caches [E' [Hshape Hbelow]]]].
  rewrite E in E'. inversion E'; subst ixf caches. clear E'.
  fold tag_indexer in Hshape, Hbelow.
  assert (Hcaches : Forall2 (fun (sentence : LabeledSentence) cache =>
                               cache_shaped cache (length sentence) (Indexer.len tag_indexer)
                               /\ fourteen_known (Indexer.len feature_indexer) cache)
                            sentences feature_cache).
  { eapply Forall2_both; [exact Hshape|exact Hbelow|].
    intros s cache [Hs H14] [_ Hb]. split.
    - unfold tokens in Hs. rewrite length_map in Hs. exact Hs.
    - apply fourteen_known_intro; assumption. }
  clear Hshape Hbelow.
  assert (Hall : Forall (fun sentence =>
                           Forall (fun tag => In tag tag_indexer) (get_bio_tags sentence))
                        sentences).
  { apply Forall_forall. intros s Hs. apply train_crf_model_tags_indexed. exact Hs. }
  eapply Forall2_impl; [|exact (Forall2_with Hall Hcaches)].
  intros s cache [Hs [Hshape Hknown]] weights. split.
  - intro Hne.
    destruct (@gold_tags_positive s tag_indexer Hne Hs) as [HN HT].
    eexists. eexists. split.
    + apply compute_gradient_explicit; [exact HN|exact HT|].
      apply gold_features_read; assumption.
    + simpl FeatureBasedSequenceScorer.feat_cache.
      assert (Hentry : forall w t k,
                w < length s -> t < Indexer.len tag_indexer ->
                In k (nth t (nth w cache []) []) -> k < Indexer.len feature_indexer).
      { intros w t k Hw' Ht Hk.
        pose proof (@cache_entry
                      (fun feats => length feats = 14
                                    /\ Forall (fun f => f < Indexer.len feature_indexer) feats)
                      cache (length s) (Indexer.len tag_indexer) w t Hshape Hknown Hw' Ht)
          as [_ Hb].
        rewrite Forall_forall in Hb. apply Hb. exact Hk. }
      apply Forall_forall. intros [k v] Hkv. simpl.
      assert (Hk : In k (map fst
                           (counter_subtract
                              (counter_of_list
                                 (concat (map (gold_features s tag_indexer cache)
                                              (seq 0 (length s)))))
                              (expected_features (Indexer.len tag_indexer) (length s)
                                 (marginal (Indexer.len tag_indexer)
                                    (FeatureBasedSequenceScorer.score_transition
                                       (training_scorer tag_indexer weights cache))
                                    (FeatureBasedSequenceScorer.score_emission
                                       (training_scorer tag_indexer weights cache))
                                    (length s))
                                 cache))))
        by (apply in_map_iff; exists (k, v); split; [reflexivity|exact Hkv]).
      apply keys_subtract in Hk. destruct Hk as [Hk|Hk].
      * unfold counter_of_list in Hk. apply keys_adds in Hk.
        destruct Hk as [Hk|[]].
        apply in_concat in Hk. destruct Hk as [feats [Hf Hk]].
        apply in_map_iff in Hf. destruct Hf as [w [<- Hw']]. apply in_seq in Hw'.
        unfold gold_features in Hk.
        eapply Hentry; [| |exact Hk]; [lia|].
        apply gold_index_below. rewrite Forall_forall in Hs. apply Hs.
        apply nth_In. unfold get_bio_tags. rewrite length_map. lia.
      * apply keys_expected in Hk. destruct Hk as [w [t [Hw' [Ht Hk]]]].
        eapply Hentry; eassumption.
  - intros ->. unfold compute_gradient. simpl length.
    destruct (Indexer.len tag_indexer); eexists; reflexivity.
Qed.

Lemma train_crf_model_gradient_step_witness :
  exists feature_indexer feature_cache,
    train_crf_model_feature_cache two_sentences = (feature_indexer, Ok feature_cache)
    /\ let tag_indexer := train_crf_model_tag_indexer two_sentences in
       Forall2 (fun sentence cache =>
                  forall weights,
                    (sentence <> [] ->
                     exists probs gradient,
                       compute_gradient sentence tag_indexer
                         (training_scorer tag_indexer weights cache) = Ok (probs, gradient)
                       /\ Forall (fun kv => fst kv < Indexer.len feature_indexer) gradient)
                    /\ (sentence = [] ->
                        exists e,
                          compute_gradient sentence tag_indexer
                            (training_scorer tag_indexer weights cache) = Raise e))
               two_sentences feature_cache.
Proof.
  eexists. eexists. split.
  - vm_compute. reflexivity.
  - eapply train_crf_model_gradient_step.
    vm_compute. reflexivity.
Defined.

Lemma position_last (l : Indexer.t) (x : string) (k : nat) :
  NoDup (l ++ [x]) -> Indexer.position (l ++ [x]) x k = Some (k + length l).
Proof.
  revert k. induction l as [|a l IH]; intros k Hnd; simpl.
  - rewrite String.eqb_refl. f_equal. lia.
  - inversion Hnd as [|? ? Hnot Hnd']; subst.
    destruct (String.eqb a x) eqn:E.
    + apply String.eqb_eq in E. subst a. exfalso. apply Hnot.
      apply in_or_app. right. left. reflexivity.
    + rewrite (IH (S k) Hnd'). f_equal. lia.
Qed.

Lemma unknown_tag_read_as_last (tag_indexer : Indexer.t) (tag : string)
    (row : list (list nat)) :
  NoDup tag_indexer ->
  length row = Indexer.len tag_indexer ->
  py_index row (Indexer.index_of tag_indexer tag)
  = py_index row
      (Indexer.index_of tag_indexer
         (if Indexer.contains tag_indexer tag then tag else last tag_indexer EmptyString)).
Proof.
  intros Hnd Hrow. unfold Indexer.contains, Indexer.index_of at 1.
  destruct (Indexer.position tag_indexer tag 0) as [i|] eqn:E.
  - unfold Indexer.index_of. rewrite E. reflexivity.
  - destruct tag_indexer as [|t0 tl]; [reflexivity|].
    destruct (@exists_last _ (t0 :: tl)) as [l [x Hx]]; [discriminate|].
    rewrite Hx in *. clear Hx E.
    rewrite last_last. unfold Indexer.index_of.
    rewrite (position_last l x 0 Hnd). simpl Nat.add.
    unfold Indexer.len in Hrow. rewrite length_app in Hrow. simpl in Hrow.
    unfold py_index. rewrite Hrow.
    replace (0 <=? -1)%Z with false by reflexivity.
    replace (- Z.of_nat (length l + 1) <=? -1)%Z with true
      by (symmetry; apply Z.leb_le; lia).
    replace (0 <=? Z.of_nat (length l))%Z with true
      by (symmetry; apply Z.leb_le; lia).
    f_equal. lia.
Qed.

Lemma gold_tags_read_nth (tag_indexer : Indexer.t) (sentence : LabeledSentence) (i : nat) :
  i < length sentence ->
  nth i (get_bio_tags (gold_tags_read tag_indexer sentence)) EmptyString
  = let tag := nth i (get_bio_tags sentence) EmptyString in
    if Indexer.contains tag_indexer tag then tag else last tag_indexer EmptyString.
Proof.
  intro Hi. unfold get_bio_tags, gold_tags_read. rewrite map_map. simpl.
  revert i Hi. induction sentence as [|[tk tag] rest IH]; intros i Hi; simpl in *; [lia|].
  destruct i as [|i]; [reflexivity|]. apply IH. lia.
Qed.

Lemma gold_tags_read_indexed (tag_indexer : Indexer.t) (sentence : LabeledSentence) :
  0 < Indexer.len tag_indexer ->
  Forall (fun tag => In tag tag_indexer) (get_bio_tags (gold_tags_read tag_indexer sentence)).
Proof.
  intro HT. unfold get_bio_tags, gold_tags_read. rewrite map_map. simpl.
  apply Forall_forall. intros tag Hin. apply in_map_iff in Hin.
  destruct Hin as [[tk tg] [<- _]]. simpl.
  destruct (Indexer.contains tag_indexer tg) eqn:E.
  - apply contains_in. exact E.
  - destruct tag_indexer as [|t0 tl]; [simpl in HT; lia|].
    destruct (@exists_last _ (t0 :: tl)) as [l [x Hx]]; [discriminate|].
    rewrite Hx. rewrite last_last. apply in_or_app. right. left. reflexivity.
Qed.

(** X16.  [compute_gradient] does not fail on a gold tag the tag indexer
    does not hold: [index_of] answers -1, which the feature lists answer
    with their last entry, so the tag is read as the last tag of the
    indexer.  The call returns what it returns on the sentence in which
    every such tag is replaced by the last tag. *)
Theorem compute_gradient_reads_unknown_tag_as_last
    (sentence : LabeledSentence) (tag_indexer : Indexer.t)
    (scorer : FeatureBasedSequenceScorer.t R) :
  sentence <> [] ->
  0 < Indexer.len tag_indexer ->
  NoDup tag_indexer ->
  cache_shaped (FeatureBasedSequenceScorer.feat_cache scorer)
    (length sentence) (Indexer.len tag_indexer) ->
  exists probs gradient,
    compute_gradient sentence tag_indexer scorer = Ok (probs, gradient)
    /\ compute_gradient (gold_tags_read tag_indexer sentence) tag_indexer scorer
       = Ok (probs, gradient).
Proof.
  intros Hne HT Hnd Hshape.
  assert (Hlen : length (gold_tags_read tag_indexer sentence) = length sentence)
    by (unfold gold_tags_read; apply length_map).
  assert (HN : 0 < length sentence) by (destruct sentence; [congruence|simpl; lia]).
  assert (Hsame : compute_gradient sentence tag_indexer scorer
                  = compute_gradient (gold_tags_read tag_indexer sentence) tag_indexer scorer).
  { assert (Hg : forall i, i < length sentence ->
              py_index (nth i (FeatureBasedSequenceScorer.feat_cache scorer) [])
                (Indexer.index_of tag_indexer (nth i (get_bio_tags sentence) EmptyString))
              = py_index (nth i (FeatureBasedSequenceScorer.feat_cache scorer) [])
                  (Indexer.index_of tag_indexer
                     (nth i (get_bio_tags (gold_tags_read tag_indexer sentence))
                          EmptyString))).
    { intros i Hi. rewrite gold_tags_read_nth by exact Hi. cbv zeta.
      apply unknown_tag_read_as_last; [exact Hnd|].
      destruct Hshape as [Hrows Hcols]. rewrite Forall_forall in Hcols.
      apply Hcols. apply nth_In. lia. }
    unfold compute_gradient. rewrite Hlen. cbv zeta.
    destruct (Indexer.len tag_indexer) as [|T']; [reflexivity|].
    destruct (length sentence) as [|N'] eqn:EN; [reflexivity|].
    rewrite <- EN in *.
    match goal with
    | |- bind_result (fold_left ?f ?l ?a) _ = bind_result (fold_left ?g _ _) _ =>
        rewrite (@fold_left_ext_in _ _ f g l a)
    end.
    2:{ intros i acc Hi. apply in_seq in Hi. rewrite Hg by lia. reflexivity. }
    match goal with
    | |- bind_result ?x _ = _ => destruct x as [[ff fs]|e]; [|reflexivity]
    end.
    simpl bind_result.
    match goal with
    | |- bind_result (fold_right ?f ?a ?l) _ = bind_result (fold_right ?g _ _) _ =>
        rewrite (@fold_right_ext_in _ _ f g l a)
    end.
    - reflexivity.
    - intros i acc Hi. apply in_seq in Hi. rewrite Hg by lia. reflexivity. }
  assert (E : exists r, compute_gradient (gold_tags_read tag_indexer sentence)
                          tag_indexer scorer = Ok r).
  { eexists. apply compute_gradient_explicit.
    - lia.
    - exact HT.
    - apply gold_features_read.
      + apply gold_tags_read_indexed. exact HT.
      + rewrite Hlen. exact Hshape. }
  destruct E as [[probs gradient] E]. exists probs, gradient.
  rewrite Hsame. split; exact E.
Qed.

Lemma compute_gradient_reads_unknown_tag_as_last_witness :
  exists probs gradient,
    compute_gradient mislabeled_sentence ["B-PER"; "O"]%string gold_scorer
    = Ok (probs, gradient)
    /\ compute_gradient (gold_tags_read ["B-PER"; "O"]%string mislabeled_sentence)
         ["B-PER"; "O"]%string gold_scorer
       = Ok (probs, gradient).
Proof.
  apply (@compute_gradient_reads_unknown_tag_as_last mislabeled_sentence
           ["B-PER"; "O"]%string gold_scorer).
  - discriminate.
  - simpl. lia.
  - constructor; [simpl; intros [H|[]]; discriminate|].
    constructor; [simpl; intros []|constructor].
  - split; [reflexivity|repeat constructor].
Defined.

(** ** What the forward-backward pass computes *)

Section PosteriorFacts.

Local Open Scope R_scope.

Variable T : nat.
Variable trans emis : nat -> nat -> R.
Hypothesis T_pos : (0 < T)%nat.

Let chain := chain_score_R trans emis.
Let score := sequence_score trans emis.

Lemma sum_R_flat_map {A B} (f : B -> R) (g : A -> list B) (l : list A) :
  sum_R (map f (flat_map g l)) = sum_R (map (fun a => sum_R (map f (g a))) l).
Proof.
  induction l as [|a l IH]; simpl; [reflexivity|].
  rewrite map_app, sum_R_app, IH. reflexivity.
Qed.

Lemma sum_all_paths_cons (f : list nat -> R) (n : nat) :
  sum_R (map f (all_paths T (S n)))
  = sum_R (map (fun t => sum_R (map (fun p => f (t :: p)) (all_paths T n))) (seq 0 T)).
Proof.
  simpl. rewrite sum_R_flat_map. apply sum_R_ext. intros t _.
  rewrite map_map. reflexivity.
Qed.

Lemma sum_all_paths_snoc (n : nat) :
  forall f : list nat -> R,
    sum_R (map f (all_paths T (S n)))
    = sum_R (map (fun t => sum_R (map (fun p => f (p ++ [t])) (all_paths T n))) (seq 0 T)).
Proof.
  induction n as [|n IH]; intro f.
  - rewrite sum_all_paths_cons. apply sum_R_ext. intros t _. reflexivity.
  - rewrite sum_all_paths_cons.
    rewrite (sum_R_ext
               (fun t => sum_R (map (fun p => f (t :: p)) (all_paths T (S n))))
               (fun t => sum_R (map (fun c => sum_R (map (fun p => f (t :: p ++ [c]))
                                                         (all_paths T n)))
                                    (seq 0 T))))
      by (intros t _; apply (IH (fun p => f (t :: p)))).
    rewrite sum_R_swap. apply sum_R_ext. intros c _.
    rewrite sum_all_paths_cons. apply sum_R_ext. intros t _. reflexivity.
Qed.

Lemma chain_score_R_app (q1 q2 : list nat) (prev i : nat) :
  chain prev i (q1 ++ q2)
  = chain prev i q1 + chain (last q1 prev) (i + length q1)%nat q2.
Proof.
  revert prev i. induction q1 as [|t q1 IH]; intros prev i.
  - simpl. rewrite Nat.add_0_r. lra.
  - change (chain prev i ((t :: q1) ++ q2))
      with (trans prev t + emis t i + chain t (S i) (q1 ++ q2)).
    rewrite IH.
    change (chain prev i (t :: q1)) with (trans prev t + emis t i + chain t (S i) q1).
    rewrite (last_cons_default q1 t prev).
    replace (S i + length q1)%nat with (i + length (t :: q1))%nat by (simpl; lia).
    lra.
Qed.

(** The score of a sequence through the tag [t] at position [length pre]. *)
Lemma sequence_score_split (pre suf : list nat) (t : nat) :
  score (pre ++ t :: suf) = score (pre ++ [t]) + chain t (S (length pre)) suf.
Proof.
  destruct pre as [|t0 pre]; simpl.
  - unfold chain. lra.
  - fold chain. rewrite !chain_score_R_app.
    replace (last pre t0) with (last pre t0) by reflexivity.
    change (chain (last pre t0) (1 + length pre)%nat (t :: suf))
      with (trans (last pre t0) t + emis t (S (length pre))
            + chain t (S (S (length pre))) suf).
    change (chain (last pre t0) (1 + length pre)%nat [t])
      with (trans (last pre t0) t + emis t (S (length pre)) + 0).
    lra.
Qed.

Lemma sequence_score_snoc (q : list nat) (p t : nat) :
  score ((q ++ [p]) ++ [t])
  = score (q ++ [p]) + (trans p t + emis t (S (length q))).
Proof.
  rewrite <- app_assoc. simpl app. rewrite sequence_score_split. simpl. lra.
Qed.

Lemma length_all_paths_member (n : nat) (p : list nat) :
  In p (all_paths T n) -> length p = n.
Proof. intro H. apply in_all_paths in H. tauto. Qed.

(** The backward value of a tag: the total weight of the continuations. *)
Lemma beta_is_suffix_sum (k idx t : nat) :
  (t < T)%nat ->
  exp (nth t (beta_column T trans emis k idx) 0)
  = sum_R (map (fun p => exp (chain t (S idx) p)) (all_paths T k)).
Proof.
  revert idx t. induction k as [|k IH]; intros idx t Ht.
  - rewrite beta_last_zero by exact Ht. simpl. rewrite exp_0. lra.
  - rewrite (exp_beta_step trans emis T_pos k idx Ht).
    rewrite sum_all_paths_cons. apply sum_R_ext. intros c Hc. apply in_seq in Hc.
    rewrite IH by lia. rewrite <- sum_R_scale_l. apply sum_R_ext. intros p _.
    rewrite <- exp_plus. reflexivity.
Qed.

(** The forward value of a tag: the total weight of the sequences that end
    in it. *)
Lemma alpha_is_prefix_sum (i t : nat) :
  (t < T)%nat ->
  exp (nth t (alpha_column T trans emis i) 0)
  = sum_R (map (fun pre => exp (score (pre ++ [t]))) (all_paths T i)).
Proof.
  revert t. induction i as [|i IH]; intros t Ht.
  - simpl. unfold alpha_first. rewrite nth_map_seq by exact Ht.
    rewrite !Rplus_0_r. reflexivity.
  - rewrite (exp_alpha_step trans emis T_pos i Ht).
    rewrite (sum_all_paths_snoc i (fun q => exp (score (q ++ [t])))).
    apply sum_R_ext. intros p Hp. apply in_seq in Hp.
    rewrite IH by lia. rewrite <- sum_R_scale. apply sum_R_ext. intros q Hq.
    rewrite sequence_score_snoc, (length_all_paths_member _ _ Hq).
    rewrite <- exp_plus. reflexivity.
Qed.

Lemma partition_is_path_sum (N : nat) :
  (1 <= N)%nat ->
  partition_at T trans emis N 0 = partition_function T N trans emis.
Proof.
  intro HN. destruct N as [|n]; [lia|].
  unfold partition_at, partition_function.
  rewrite sum_all_paths_cons. apply sum_R_ext. intros t Ht. apply in_seq in Ht.
  rewrite exp_plus. replace (S n - 1 - 0)%nat with n by lia.
  rewrite beta_is_suffix_sum by lia.
  change (alpha_column T trans emis 0) with (alpha_first T emis).
  unfold alpha_first. rewrite nth_map_seq by lia.
  rewrite <- sum_R_scale_l. apply sum_R_ext. intros p _.
  rewrite <- exp_plus. reflexivity.
Qed.

(** The sequences with the tag [t] at position [i]. *)
Lemma sum_paths_through (i n t : nat) :
  (t < T)%nat ->
  forall h : list nat -> R,
    sum_R (map (fun p => if (nth i p 0 =? t)%nat then h p else 0) (all_paths T (i + S n)))
    = sum_R (map (fun pre => sum_R (map (fun suf => h (pre ++ t :: suf)) (all_paths T n)))
                 (all_paths T i)).
Proof.
  intro Ht. induction i as [|i IH]; intro h.
  - change (0 + S n)%nat with (S n). rewrite sum_all_paths_cons.
    simpl. rewrite Rplus_0_r.
    assert (Hsingle : forall (g : nat -> R) l,
              NoDup l ->
              sum_R (map (fun c => if (c =? t)%nat then g c else 0) l)
              = if in_dec Nat.eq_dec t l then g t else 0).
    { intros g l. induction 1 as [|c l Hnot Hnd IHl]; simpl; [reflexivity|].
      rewrite IHl. destruct (Nat.eqb_spec c t) as [->|Hne].
      - destruct (Nat.eq_dec t t); [|congruence].
        destruct (in_dec Nat.eq_dec t l); [contradiction|lra].
      - destruct (Nat.eq_dec c t); [congruence|].
        destruct (in_dec Nat.eq_dec t l); lra. }
    rewrite (sum_R_ext
               (fun c => sum_R (map (fun p => if (c =? t)%nat then h (c :: p) else 0)
                                    (all_paths T n)))
               (fun c => if (c =? t)%nat
                         then sum_R (map (fun p => h (c :: p)) (all_paths T n)) else 0)).
    2:{ intros c _. destruct (c =? t)%nat; [reflexivity|apply sum_R_zero]. }
    rewrite (Hsingle (fun c => sum_R (map (fun p => h (c :: p)) (all_paths T n))))
      by apply seq_NoDup.
    destruct (in_dec Nat.eq_dec t (seq 0 T)) as [_|Hnot]; [reflexivity|].
    exfalso. apply Hnot. apply in_seq. lia.
  - change (S i + S n)%nat with (S (i + S n)).
    rewrite !sum_all_paths_cons. apply sum_R_ext. intros c _.
    apply (IH (fun p => h (c :: p))).
Qed.

End PosteriorFacts.

(** X17.  The normalizer [compute_gradient] computes at every position is
    the logarithm of the partition function: the sum, over all T^N tag
    sequences, of the exponential of the emission scores of the tags plus
    the transition scores of the adjacent pairs.  The initial scores of
    [score_init], which the decoders add, are not part of it. *)
Theorem denominators_are_log_partition
    (T N : nat) (trans emis : nat -> nat -> R) (idx : nat) :
  0 < T -> idx < N ->
  nth idx (denominators T trans emis N) 0%R = ln (partition_function T N trans emis).
Proof.
  intros HT Hi.
  rewrite (denominator_at trans emis HT Hi), (partition_constant trans emis HT Hi).
  rewrite (partition_is_path_sum trans emis HT) by lia. reflexivity.
Qed.

Lemma denominators_are_log_partition_witness :
  nth 1 (denominators 2 (fun _ _ => 0%R) (fun t _ => INR t) 3) 0%R
  = ln (partition_function 2 3 (fun _ _ => 0%R) (fun t _ => INR t)).
Proof.
  apply (@denominators_are_log_partition 2 3 (fun _ _ => 0%R) (fun t _ => INR t) 1); lia.
Defined.

(** X18.  The marginal [compute_gradient] computes for a tag at a position
    is the posterior probability of the tag at the position: the total
    weight of the tag sequences that carry the tag there, over the total
    weight of all tag sequences, a sequence weighing the exponential of its
    score. *)
Theorem marginals_are_posteriors
    (T N : nat) (trans emis : nat -> nat -> R) (t i : nat) :
  0 < T -> i < N -> t < T ->
  marginal T trans emis N t i = posterior T N trans emis t i.
Proof.
  intros HT Hi Ht. unfold marginal, posterior.
  rewrite (at_alpha trans emis HT t Hi), (at_beta trans emis HT t Hi).
  rewrite (denominator_at trans emis HT Hi), (partition_constant trans emis HT Hi).
  rewrite (@partition_is_path_sum T trans emis HT N) by lia.
  assert (HZ : (0 < partition_function T N trans emis)%R).
  { rewrite <- (@partition_is_path_sum T trans emis HT N) by lia.
    apply partition_pos. exact HT. }
  unfold Rminus. rewrite exp_plus, exp_Ropp, exp_ln by exact HZ.
  unfold Rdiv. f_equal.
  pose proof (@sum_paths_through T HT i (N - 1 - i) t Ht
                (fun p => exp (sequence_score trans emis p))) as Hthrough.
  replace (i + S (N - 1 - i)) with N in Hthrough by lia.
  rewrite Hthrough. clear Hthrough.
  rewrite exp_plus.
  rewrite (@alpha_is_prefix_sum T trans emis HT i t Ht).
  rewrite (@beta_is_suffix_sum T trans emis HT (N - 1 - i) i t Ht).
  rewrite <- sum_R_scale. apply sum_R_ext. intros pre Hpre.
  rewrite <- sum_R_scale_l. apply sum_R_ext. intros suf _.
  rewrite (@sequence_score_split T trans emis HT pre suf t).
  rewrite (@length_all_paths_member T trans emis i pre Hpre).
  rewrite <- exp_plus. reflexivity.
Qed.

Lemma marginals_are_posteriors_witness :
  marginal 2 (fun _ _ => 0%R) (fun t _ => INR t) 3 1 2
  = posterior 2 3 (fun _ _ => 0%R) (fun t _ => INR t) 1 2.
Proof.
  apply (@marginals_are_posteriors 2 3 (fun _ _ => 0%R) (fun t _ => INR t) 1 2); lia.
Defined.

(** ** The gradient as observed minus expected counts *)

(** A gold lookup that succeeds reads the feature list at the index of the
    tag. *)
Lemma gold_lookup_read (ix : Indexer.t) (tag : string) (row : list (list nat))
    (feats : list nat) :
  In tag ix ->
  py_index row (Indexer.index_of ix tag) = Some feats ->
  feats = nth (Z.to_nat (Indexer.index_of ix tag)) row [].
Proof.
  intros Hin Hread. apply (position_in ix tag 0) in Hin. destruct Hin as [k Hk].
  unfold Indexer.index_of in *. rewrite Hk in *.
  unfold py_index in Hread.
  replace (0 <=? Z.of_nat k)%Z with true in Hread by (symmetry; apply Z.leb_le; lia).
  rewrite Nat2Z.id in *. symmetry. apply nth_error_nth. exact Hread.
Qed.

(** [compute_gradient] returns only for a sentence with a word, a tag set
    with a tag, and a cache that holds a feature list at every gold tag. *)
Lemma compute_gradient_returns_reads (sentence : LabeledSentence)
    (tag_indexer : Indexer.t) (scorer : FeatureBasedSequenceScorer.t R)
    (r : R * counter) :
  compute_gradient sentence tag_indexer scorer = Ok r ->
  0 < length sentence
  /\ 0 < Indexer.len tag_indexer
  /\ forall i, i < length sentence ->
       py_index (nth i (FeatureBasedSequenceScorer.feat_cache scorer) [])
         (Indexer.index_of tag_indexer (nth i (get_bio_tags sentence) EmptyString))
       <> None.
Proof.
  set (cache := FeatureBasedSequenceScorer.feat_cache scorer) in *.
  set (N := length sentence) in *.
  set (T := Indexer.len tag_indexer) in *.
  unfold compute_gradient. fold N. fold T. fold cache. unfold counter in *.
  destruct T as [|T'] eqn:ET; [discriminate|].
  destruct N as [|N'] eqn:EN; [discriminate|].
  assert (HT : 0 < S T') by lia. assert (HN : 0 < S N') by lia.
  rewrite <- ET, <- EN in *. clear ET EN T' N'.
  match goal with
  | |- context [fold_left ?step (seq 0 N) (Ok ([], []))] => set (loop := step)
  end.
  intro E. split; [exact HN|]. split; [exact HT|].
  assert (Hloop : forall l acc,
            (exists i, In i l
               /\ py_index (nth i cache [])
                    (Indexer.index_of tag_indexer
                       (nth i (get_bio_tags sentence) EmptyString)) = None) ->
            exists e, fold_left loop l acc = Raise e).
  { induction l as [|j l IH]; intros acc [i [Hi Hnone]]; [destruct Hi|].
    change (fold_left loop (j :: l) acc) with (fold_left loop l (loop acc j)).
    destruct acc as [[ff fs]|e].
    - destruct Hi as [->|Hi].
      + exists list_index_out_of_range.
        replace (loop (Ok (ff, fs)) i)
          with (@Raise (list nat * list (nat * R)) list_index_out_of_range)
          by (unfold loop; simpl bind_result; rewrite Hnone; reflexivity).
        apply fold_raise. intro x. reflexivity.
      + apply IH. exists i. split; assumption.
    - exists e. replace (loop (Raise e) j) with (@Raise (list nat * list (nat * R)) e)
        by reflexivity.
      apply fold_raise. intro x. reflexivity. }
  intros i Hi Hnone.
  destruct (Hloop (seq 0 N) (Ok ([], []))) as [e He].
  { exists i. split; [apply in_seq; lia|exact Hnone]. }
  rewrite He in E. simpl in E. discriminate.
Qed.

(** The total [expected_features] holds under a feature id. *)
Lemma expected_features_total (T N : nat) (m : nat -> nat -> R)
    (cache : list (list (list nat))) (f : nat) :
  counter_total (expected_features T N m cache) f
  = sum_R (map (fun word_idx =>
                  sum_R (map (fun tag_idx =>
                                (m tag_idx word_idx
                                 * INR (count_occ Nat.eq_dec
                                          (nth tag_idx (nth word_idx cache []) []) f))%R)
                             (seq 0 T)))
               (seq 0 N)).
Proof.
  unfold expected_features.
  assert (H : forall l d,
            counter_total
              (fold_left
                 (fun features word_idx =>
                    fold_left
                      (fun features tag_idx =>
                         fold_left
                           (fun features feature =>
                              counter_add features feature (m tag_idx word_idx))
                           (nth tag_idx (nth word_idx cache []) []) features)
                      (seq 0 T) features)
                 l d) f
            = (counter_total d f
               + sum_R (map (fun word_idx =>
                    sum_R (map (fun tag_idx =>
                                  (m tag_idx word_idx
                                   * INR (count_occ Nat.eq_dec
                                            (nth tag_idx (nth word_idx cache []) []) f))%R)
                               (seq 0 T))) l))%R).
  { induction l as [|i l IH]; intro d; simpl; [lra|].
    rewrite IH.
    rewrite (expected_tags_total (fun tag_idx => m tag_idx i)
               (fun tag_idx => nth tag_idx (nth i cache []) [])).
    lra. }
  rewrite H. simpl. lra.
Qed.

(** The weight the forward-backward pass gives a tag at a position is the
    share of the tag sequences with the tag at the position in the total
    weight of all tag sequences. *)
Lemma forward_backward_share (T N : nat) (trans emis : nat -> nat -> R) (t i : nat) :
  0 < T -> i < N -> t < T ->
  exp (at_ (alpha_matrix T trans emis N) t i + at_ (beta_matrix T trans emis N) t i
       - nth i (denominators T trans emis N) 0)%R
  = (sum_R (map (fun p => if (nth i p 0 =? t)%nat
                          then exp (sequence_score trans emis p) else 0%R)
                (all_paths T N))
     / sum_R (map (fun p => exp (sequence_score trans emis p)) (all_paths T N)))%R.
Proof.
  intros HT Hi Ht.
  rewrite (at_alpha trans emis HT t Hi), (at_beta trans emis HT t Hi).
  rewrite (denominator_at trans emis HT Hi), (partition_constant trans emis HT Hi).
  rewrite (@partition_is_path_sum T trans emis HT N) by lia.
  assert (HZ : (0 < partition_function T N trans emis)%R).
  { rewrite <- (@partition_is_path_sum T trans emis HT N) by lia.
    apply partition_pos. exact HT. }
  unfold Rminus. rewrite exp_plus, exp_Ropp, exp_ln by exact HZ.
  unfold Rdiv. fold (partition_function T N trans emis). f_equal.
  pose proof (@sum_paths_through T HT i (N - 1 - i) t Ht
                (fun p => exp (sequence_score trans emis p))) as Hthrough.
  replace (i + S (N - 1 - i)) with N in Hthrough by lia.
  rewrite Hthrough. clear Hthrough.
  rewrite exp_plus.
  rewrite (@alpha_is_prefix_sum T trans emis HT i t Ht).
  rewrite (@beta_is_suffix_sum T trans emis HT (N - 1 - i) i t Ht).
  rewrite <- sum_R_scale. apply sum_R_ext. intros pre Hpre.
  rewrite <- sum_R_scale_l. apply sum_R_ext. intros suf _.
  rewrite (@sequence_score_split T trans emis HT pre suf t).
  rewrite (@length_all_paths_member T trans emis i pre Hpre).
  rewrite <- exp_plus. reflexivity.
Qed.

(** C3.  For a labeled sentence whose gold tags all occur in the tag
    indexer, the Counter [compute_gradient] returns maps every feature id to
    its number of occurrences in the gold feature lists minus the sum, over
    positions and tags, of the marginal probability of the tag at the
    position times its number of occurrences in the feature list of that
    position and tag.  The marginal probability is the posterior: the
    weight of the tag sequences with the tag at the position over the weight
    of all tag sequences, a sequence weighing the exponential of its score.
    [compute_gradient] returns a Counter whenever the sentence has a word
    and the cache holds one feature list per position and tag. *)
Theorem compute_gradient_observed_minus_expected
    (sentence : LabeledSentence) (tag_indexer : Indexer.t)
    (scorer : FeatureBasedSequenceScorer.t R) :
  Forall (fun tag => In tag tag_indexer) (get_bio_tags sentence) ->
  (sentence <> [] ->
   cache_shaped (FeatureBasedSequenceScorer.feat_cache scorer)
     (length sentence) (Indexer.len tag_indexer) ->
   exists probs gradient,
     compute_gradient sentence tag_indexer scorer = Ok (probs, gradient))
  /\ forall probs gradient,
       compute_gradient sentence tag_indexer scorer = Ok (probs, gradient) ->
       forall f,
         counter_get gradient f
         = (observed_count sentence tag_indexer
              (FeatureBasedSequenceScorer.feat_cache scorer) f
            - expected_count sentence tag_indexer scorer f)%R.
Proof.
  intro Htags.
  set (cache := FeatureBasedSequenceScorer.feat_cache scorer).
  set (N := length sentence).
  set (T := Indexer.len tag_indexer).
  split.
  - intros Hne Hshape.
    assert (HN : 0 < N) by (subst N; destruct sentence; [congruence|simpl; lia]).
    assert (HT : 0 < T).
    { destruct sentence as [|[tk tg] rest]; [congruence|].
      inversion Htags as [|? ? Hin _]; subst. simpl in Hin.
      unfold T, Indexer.len. destruct tag_indexer; [destruct Hin|simpl; lia]. }
    eexists. eexists.
    apply (compute_gradient_explicit sentence tag_indexer scorer HN HT).
    apply gold_features_read; assumption.
  - intros probs gradient E.
    destruct (compute_gradient_returns_reads _ _ _ E) as [HN [HT Hread]].
    fold N in HN. fold T in HT. fold cache in Hread. fold N in Hread.
    assert (Hgold : forall i, i < N ->
              py_index (nth i cache [])
                (Indexer.index_of tag_indexer (nth i (get_bio_tags sentence) EmptyString))
              = Some (gold_features sentence tag_indexer cache i)).
    { intros i Hi. specialize (Hread i Hi).
      destruct (py_index (nth i cache [])
                  (Indexer.index_of tag_indexer
                     (nth i (get_bio_tags sentence) EmptyString))) as [feats|] eqn:G;
        [|congruence].
      f_equal. unfold gold_features. apply gold_lookup_read; [|exact G].
      rewrite Forall_forall in Htags. apply Htags. apply nth_In.
      unfold get_bio_tags. rewrite length_map. exact Hi. }
    rewrite (compute_gradient_explicit sentence tag_indexer scorer HN HT Hgold) in E.
    injection E as _ <-. fold N. fold T. fold cache.
    intro f.
    rewrite counter_subtract_get, counter_of_list_get, expected_features_total.
    unfold observed_count, expected_count. fold N. fold T. fold cache.
    f_equal.
    + clear. induction (seq 0 N) as [|i l IH]; simpl; [reflexivity|].
      rewrite count_occ_app, plus_INR, IH. reflexivity.
    + apply sum_R_ext. intros i Hi. apply in_seq in Hi.
      apply sum_R_ext. intros t Ht. apply in_seq in Ht.
      f_equal. unfold marginal, posterior, partition_function.
      apply forward_backward_share; lia.
Qed.

Lemma compute_gradient_observed_minus_expected_witness :
  exists probs gradient,
    compute_gradient gold_sentence
      (FeatureBasedSequenceScorer.tag_indexer gold_scorer) gold_scorer
    = Ok (probs, gradient)
    /\ forall f,
         counter_get gradient f
         = (observed_count gold_sentence
              (FeatureBasedSequenceScorer.tag_indexer gold_scorer)
              (FeatureBasedSequenceScorer.feat_cache gold_scorer) f
            - expected_count gold_sentence
                (FeatureBasedSequenceScorer.tag_indexer gold_scorer) gold_scorer f)%R.
Proof.
  destruct (@compute_gradient_observed_minus_expected gold_sentence
              (FeatureBasedSequenceScorer.tag_indexer gold_scorer) gold_scorer)
    as [Hreturns Hcounts].
  - constructor; [simpl; auto|]. constructor; [simpl; auto|]. constructor.
  - destruct Hreturns as [probs [gradient E]].
    + discriminate.
    + split; [reflexivity|]. repeat constructor.
    + exists probs, gradient. split; [exact E|]. exact (Hcounts probs gradient E).
Defined.


(** ** The vocabulary of the HMM estimator *)

Lemma word_count_incr (c : word_counter) (w w' : string) :
  word_count (word_counter_incr c w) w'
  = word_count c w' + (if String.eqb w' w then 1 else 0).
Proof.
  induction c as [|[w0 n] c IH]; simpl.
  - destruct (String.eqb w' w); reflexivity.
  - destruct (String.eqb w w0) eqn:E; simpl.
    + apply String.eqb_eq in E. subst w0.
      destruct (String.eqb w' w); lia.
    + destruct (String.eqb w' w0) eqn:E'.
      * apply String.eqb_eq in E'. subst w0.
        rewrite String.eqb_sym, E. lia.
      * exact IH.
Qed.

Lemma occurrences_app (l1 l2 : list string) (s : string) :
  occurrences (l1 ++ l2) s = occurrences l1 s + occurrences l2 s.
Proof. apply count_occ_app. Qed.

Lemma occurrences_cons (l : list string) (w s : string) :
  occurrences (w :: l) s = (if String.eqb s w then 1 else 0) + occurrences l s.
Proof.
  unfold occurrences. simpl. destruct (string_dec w s) as [->|Hne].
  - rewrite String.eqb_refl. reflexivity.
  - destruct (String.eqb_spec s w); [congruence|reflexivity].
Qed.

Lemma count_words_occurrences (sentences : list LabeledSentence) (w : string) :
  word_count (count_words sentences) w = occurrences (corpus_words sentences) w.
Proof.
  unfold count_words, corpus_words.
  assert (Htoks : forall toks c,
            word_count (fold_left (fun c token => word_counter_incr c (word token)) toks c) w
            = word_count c w + occurrences (map word toks) w).
  { induction toks as [|tk toks IH]; intro c.
    - unfold occurrences. simpl. lia.
    - cbn [fold_left map]. rewrite IH, word_count_incr, occurrences_cons. lia. }
  assert (Hall : forall l c,
            word_count
              (fold_left (fun c sentence =>
                            fold_left (fun c token => word_counter_incr c (word token))
                                      (tokens sentence) c) l c) w
            = word_count c w
              + occurrences (concat (map (fun s => map word (tokens s)) l)) w).
  { induction l as [|s l IH]; intro c.
    - unfold occurrences. simpl. lia.
    - cbn [fold_left map concat]. rewrite IH, Htoks, occurrences_app. lia. }
  rewrite Hall. simpl. reflexivity.
Qed.

Lemma index_corpus_indexers (sentences : list LabeledSentence) (wc : word_counter) :
  index_corpus sentences wc
  = (add_all Indexer.empty (corpus_tags sentences),
     add_all ["UNK"%string] (map (word_key wc) (corpus_words sentences))).
Proof.
  unfold index_corpus, corpus_tags, corpus_words.
  change (fst (Indexer.add_and_get_index Indexer.empty "UNK")) with ["UNK"%string].
  generalize Indexer.empty. generalize ["UNK"%string].
  induction sentences as [|s sentences IH]; intros wix tix; [reflexivity|].
  cbn [fold_left map concat]. rewrite IH. rewrite map_app, !add_all_app. f_equal.
  f_equal. unfold add_all. clear. revert wix.
  induction (tokens s) as [|tk toks IH]; intro wix; simpl; [reflexivity|].
  rewrite get_word_index_key. apply IH.
Qed.

Lemma add_all_member (strs : list string) (ix : Indexer.t) (s : string) :
  In s (add_all ix strs) <-> In s ix \/ In s strs.
Proof.
  split.
  - apply add_all_from.
  - intros [H|H].
    + eapply extends_in; [apply add_all_extends|exact H].
    + pose proof (add_all_in strs ix) as Hall. rewrite Forall_forall in Hall.
      apply Hall. exact H.
Qed.

Lemma occurrences_in (l : list string) (s : string) : In s l <-> 1 <= occurrences l s.
Proof. unfold occurrences. rewrite (count_occ_In string_dec). lia. Qed.

(** The strings the indexing loop of [train_hmm_model] gives an index. *)
Lemma vocabulary_member (sentences : list LabeledSentence) (w : string) :
  In w (snd (index_corpus sentences (count_words sentences)))
  <-> w = "UNK"%string \/ 2 <= occurrences (corpus_words sentences) w.
Proof.
  rewrite index_corpus_indexers. simpl snd. rewrite add_all_member.
  set (wc := count_words sentences). split.
  - intros [[<-|[]]|H]; [left; reflexivity|].
    apply in_map_iff in H. destruct H as [w0 [Hkey Hin]].
    unfold word_key in Hkey.
    destruct (2 * word_count wc w0 <? 3) eqn:E; [left; congruence|].
    right. subst w0. apply Nat.ltb_ge in E. unfold wc in E.
    rewrite count_words_occurrences in E. lia.
  - intros [->|H]; [left; left; reflexivity|].
    right. apply in_map_iff. exists w. split.
    + unfold word_key, wc. rewrite count_words_occurrences.
      replace (2 * occurrences (corpus_words sentences) w <? 3) with false
        by (symmetry; apply Nat.ltb_ge; lia).
      reflexivity.
    + apply occurrences_in. lia.
Qed.

(** X19.  The vocabulary of [train_hmm_model]: the model it returns in
    silent mode has duplicate-free indexers; "UNK" has the word index 0; a
    word has an index exactly when it is "UNK" or occurs at least twice in
    the corpus; and a tag has an index exactly when it occurs in the
    corpus. *)
Theorem train_hmm_model_vocabulary (sentences : list LabeledSentence) :
  exists m,
    train_hmm_model sentences true = Ok m
    /\ NoDup (HmmNerModel.tag_indexer m)
    /\ NoDup (HmmNerModel.word_indexer m)
    /\ Indexer.index_of (HmmNerModel.word_indexer m) "UNK" = 0%Z
    /\ (forall w, In w (HmmNerModel.word_indexer m)
                  <-> w = "UNK"%string \/ 2 <= occurrences (corpus_words sentences) w)
    /\ (forall tag, In tag (HmmNerModel.tag_indexer m) <-> In tag (corpus_tags sentences)).
Proof.
  destruct (train_hmm_model_counts sentences) as [st [Hinv [_ Htrain]]].
  destruct Hinv as [Ht [Hw _]].
  eexists. split; [rewrite Htrain; reflexivity|]. simpl.
  rewrite Ht, Hw.
  pose proof (vocabulary_member sentences) as Hvoc.
  rewrite index_corpus_indexers in *. simpl fst. simpl snd in *.
  split; [apply add_all_nodup; constructor|].
  split; [apply add_all_nodup; constructor; [intros []|constructor]|].
  split.
  - unfold Indexer.index_of.
    rewrite (@extends_position ["UNK"%string] _ "UNK" 0); [reflexivity| |reflexivity].
    apply add_all_extends.
  - split; [exact Hvoc|].
    intro tag. rewrite add_all_member. split; [intros [[]|H]; exact H|auto].
Qed.

(** X20.  Without [silent], [train_hmm_model] returns only when "India" and
    "Phil" both occur at least twice in the corpus, and then returns the
    model of the silent mode; otherwise the diagnostic print raises the
    [IndexError] of reading an emission column past the table. *)
Theorem train_hmm_model_diagnostics (sentences : list LabeledSentence) :
  train_hmm_model sentences false
  = if (2 <=? occurrences (corpus_words sentences) "India")
       && (2 <=? occurrences (corpus_words sentences) "Phil")
    then train_hmm_model sentences true
    else Raise array_index_out_of_bounds.
Proof.
  destruct (train_hmm_model_counts sentences) as [st [Hinv [_ Htrain]]].
  destruct Hinv as [_ [Hw _]].
  rewrite !Htrain. cbv zeta. rewrite Hw.
  set (wix := snd (index_corpus sentences (count_words sentences))).
  assert (Hknown : forall w, w <> "UNK"%string ->
            (2 <=? occurrences (corpus_words sentences) w) = true ->
            exists i, Indexer.add_and_get_index wix w = (wix, i) /\ i < Indexer.len wix).
  { intros w Hne H. apply add_and_get_index_known. apply vocabulary_member.
    right. apply Nat.leb_le. exact H. }
  assert (Hnew : forall w, w <> "UNK"%string ->
            (2 <=? occurrences (corpus_words sentences) w) = false ->
            Indexer.add_and_get_index wix w = (wix ++ [w], Indexer.len wix)).
  { intros w Hne H. unfold Indexer.add_and_get_index.
    destruct (Indexer.position wix w 0) as [i|] eqn:E; [|reflexivity].
    exfalso. assert (Hin : In w wix) by (apply (position_in wix w 0); eauto).
    apply vocabulary_member in Hin. destruct Hin as [->|Hin]; [congruence|].
    apply Nat.leb_gt in H. lia. }
  destruct (2 <=? occurrences (corpus_words sentences) "India") eqn:Ei.
  - destruct (Hknown "India"%string) as [i [-> Hi]]; [discriminate|exact Ei|].
    replace (i <? Indexer.len wix) with true by (symmetry; apply Nat.ltb_lt; exact Hi).
    destruct (2 <=? occurrences (corpus_words sentences) "Phil") eqn:Ep.
    + destruct (Hknown "Phil"%string) as [j [-> Hj]]; [discriminate|exact Ep|].
      replace (j <? Indexer.len wix) with true by (symmetry; apply Nat.ltb_lt; exact Hj).
      reflexivity.
    + rewrite (Hnew "Phil"%string) by (try discriminate; exact Ep).
      rewrite Nat.ltb_irrefl. reflexivity.
  - rewrite (Hnew "India"%string) by (try discriminate; exact Ei).
    rewrite Nat.ltb_irrefl. reflexivity.
Qed.

(** ** The HMM estimator: what the tables hold *)

Lemma incr1_get (a : list R) (i : nat) (a' : list R) :
  incr1 a i = Ok a' ->
  sum_R a' = (sum_R a + 1)%R
  /\ forall k, nth k a' 0%R = (nth k a 0 + (if k =? i then 1 else 0))%R.
Proof.
  revert i a'. induction a as [|x a IH]; intros i a' H; [discriminate|].
  destruct i as [|i]; simpl in H.
  - inversion H; subst. split; [simpl; lra|]. intros [|k]; simpl; lra.
  - destruct (incr1 a i) as [r|e] eqn:E; [|discriminate]. simpl in H.
    inversion H; subst. destruct (IH i r E) as [Hs Hg].
    split; [simpl; lra|]. intros [|k]; simpl; [lra|apply Hg].
Qed.

Lemma incr2_get (m : list (list R)) (i j : nat) (m' : list (list R)) :
  incr2 m i j = Ok m' ->
  (forall k, sum_R (nth k m' []) = (sum_R (nth k m []) + (if k =? i then 1 else 0))%R)
  /\ forall k l,
       nth l (nth k m' []) 0%R
       = (nth l (nth k m []) 0 + (if (k =? i) && (l =? j) then 1 else 0))%R.
Proof.
  revert i m'. induction m as [|row m IH]; intros i m' H; [discriminate|].
  destruct i as [|i]; simpl in H.
  - destruct (incr1 row j) as [r|e] eqn:E; [|discriminate]. simpl in H.
    inversion H; subst. destruct (@incr1_get row j r E) as [Hs Hg]. split.
    + intros [|k]; simpl; [exact Hs|lra].
    + intros [|k] l; simpl; [apply Hg|lra].
  - destruct (incr2 m i j) as [r|e] eqn:E; [|discriminate]. simpl in H.
    inversion H; subst. destruct (IH i r E) as [Hs Hg]. split.
    + intros [|k]; simpl; [lra|apply Hs].
    + intros [|k] l; simpl; [lra|apply Hg].
Qed.

Lemma index_eqb (ix : Indexer.t) (r r0 : string) (a a0 : nat) :
  Indexer.position ix r 0 = Some a -> Indexer.position ix r0 0 = Some a0 ->
  (a =? a0) = String.eqb r0 r.
Proof.
  intros Ha Ha0. destruct (String.eqb_spec r0 r) as [->|Hne].
  - rewrite Ha in Ha0. injection Ha0 as <-. apply Nat.eqb_refl.
  - apply Nat.eqb_neq. intros ->. apply Hne.
    apply position_nth in Ha, Ha0. congruence.
Qed.

Lemma row_count_snoc (events : list (string * string)) (r0 c0 r : string) :
  row_count (events ++ [(r0, c0)]) r
  = row_count events r + (if String.eqb r0 r then 1 else 0).
Proof.
  unfold row_count. rewrite filter_app, length_app. simpl.
  destruct (String.eqb r0 r); reflexivity.
Qed.

Lemma pair_count_snoc (events : list (string * string)) (r0 c0 r c : string) :
  pair_count (events ++ [(r0, c0)]) r c
  = pair_count events r c + (if String.eqb r0 r && String.eqb c0 c then 1 else 0).
Proof.
  unfold pair_count. rewrite filter_app, length_app. simpl.
  destruct (String.eqb r0 r && String.eqb c0 c); reflexivity.
Qed.

Lemma occurrences_snoc (events : list string) (r0 r : string) :
  occurrences (events ++ [r0]) r = occurrences events r + (if String.eqb r r0 then 1 else 0).
Proof.
  rewrite occurrences_app, occurrences_cons. unfold occurrences at 2. simpl. lia.
Qed.

Lemma INR_indicator (n : nat) (b : bool) :
  INR (n + (if b then 1 else 0)) = (INR n + (if b then 1 else 0))%R.
Proof. rewrite plus_INR. destruct b; simpl; lra. Qed.

Lemma matrix_tally_incr (rix cix : Indexer.t) (m m' : list (list R))
    (events : list (string * string)) (r0 c0 : string) (a0 b0 : nat) :
  matrix_tally rix cix m events ->
  Indexer.position rix r0 0 = Some a0 ->
  Indexer.position cix c0 0 = Some b0 ->
  incr2 m a0 b0 = Ok m' ->
  matrix_tally rix cix m' (events ++ [(r0, c0)]).
Proof.
  intros H Hr Hc E r a Ha. destruct (@incr2_get m a0 b0 m' E) as [Hs Hg].
  destruct (H r a Ha) as [H1 H2]. split.
  - rewrite Hs, H1, row_count_snoc, INR_indicator, (@index_eqb rix r r0 a a0 Ha Hr). lra.
  - intros c b Hb.
    rewrite Hg, (H2 c b Hb), pair_count_snoc, INR_indicator.
    rewrite (@index_eqb rix r r0 a a0 Ha Hr), (@index_eqb cix c c0 b b0 Hb Hc). lra.
Qed.

Lemma vector_tally_incr (rix : Indexer.t) (v v' : list R) (events : list string)
    (r0 : string) (a0 : nat) :
  vector_tally rix v events ->
  Indexer.position rix r0 0 = Some a0 ->
  incr1 v a0 = Ok v' ->
  vector_tally rix v' (events ++ [r0]).
Proof.
  intros [H1 H2] Hr E. destruct (@incr1_get v a0 v' E) as [Hs Hg]. split.
  - rewrite Hs, H1, length_app, plus_INR. simpl. lra.
  - intros r a Ha.
    rewrite Hg, (H2 r a Ha), occurrences_snoc, INR_indicator, (@index_eqb rix r r0 a a0 Ha Hr).
    rewrite String.eqb_sym. lra.
Qed.

Lemma nth_repeat_below {A} (x d : A) (n a : nat) : a < n -> nth a (repeat x n) d = x.
Proof.
  revert a. induction n as [|n IH]; intros a Ha; [lia|].
  destruct a as [|a]; simpl; [reflexivity|]. apply IH. lia.
Qed.

Lemma sum_R_repeat (c : R) (n : nat) : sum_R (repeat c n) = (INR n * c)%R.
Proof.
  induction n as [|n IH]; [simpl; lra|].
  change (repeat c (S n)) with (c :: repeat c n). rewrite S_INR. simpl. rewrite IH. lra.
Qed.

Lemma matrix_tally_start (rix cix : Indexer.t) :
  matrix_tally rix cix
    (repeat (repeat smoothing (Indexer.len cix)) (Indexer.len rix)) [].
Proof.
  intros r a Ha. apply position_bound in Ha.
  rewrite nth_repeat_below by (unfold Indexer.len; lia). split.
  - rewrite sum_R_repeat. unfold row_count. simpl. lra.
  - intros c b Hb. apply position_bound in Hb.
    rewrite nth_repeat_below by (unfold Indexer.len; lia).
    unfold pair_count. simpl. lra.
Qed.

Lemma vector_tally_start (rix : Indexer.t) :
  vector_tally rix (repeat smoothing (Indexer.len rix)) [].
Proof.
  split.
  - rewrite sum_R_repeat. simpl. lra.
  - intros r a Ha. apply position_bound in Ha.
    rewrite nth_repeat_below by (unfold Indexer.len; lia).
    unfold occurrences. simpl. lra.
Qed.

Lemma add_known_position (ix : Indexer.t) (s : string) (i : nat) :
  Indexer.position ix s 0 = Some i -> Indexer.add_and_get_index ix s = (ix, i).
Proof. intro H. unfold Indexer.add_and_get_index. rewrite H. reflexivity. Qed.

Section TallyFacts.

Variable wc : word_counter.
Variable tix wix : Indexer.t.

Let event (tt : Token * string) : string * string :=
  (snd tt, word_key wc (word (fst tt))).

Let with_prev (prev : option string) (tags : list string) : list string :=
  match prev with
  | Some p => p :: tags
  | None => tags
  end.

Let first_of (prev : option string) (tags : list string) : list string :=
  match prev with
  | Some _ => []
  | None => firstn 1 tags
  end.

Lemma count_token_tallied (st st' : hmm_counts) (prev : option string) (token : Token)
    (tag : string) (emissions transitions : list (string * string))
    (initials : list string) :
  counts_invariant tix wix st ->
  tallied tix wix st emissions transitions initials ->
  In tag tix -> In (word_key wc (word token)) wix ->
  (forall p, prev = Some p -> In p tix) ->
  count_token wc st prev token tag = Ok st' ->
  tallied tix wix st'
    (emissions ++ [(tag, word_key wc (word token))])
    (transitions ++ match prev with Some p => [(p, tag)] | None => [] end)
    (initials ++ match prev with Some _ => [] | None => [tag] end).
Proof.
  intros [Ht [Hw _]] [He [Htr Hin]] Htag Hkey Hprev.
  apply (position_in tix tag 0) in Htag. destruct Htag as [a Ha].
  apply (position_in wix _ 0) in Hkey. destruct Hkey as [b Hb].
  unfold count_token. rewrite Ht, Hw, get_word_index_key.
  rewrite (@add_known_position tix tag a Ha), (@add_known_position wix _ b Hb).
  destruct (incr2 (emission_counts st) a b) as [em'|e] eqn:Ee; [|discriminate].
  simpl bind_result.
  pose proof (@matrix_tally_incr tix wix _ _ _ _ _ _ _ He Ha Hb Ee) as He'.
  destruct prev as [p|].
  - assert (Hp : In p tix) by (apply Hprev; reflexivity).
    apply (position_in tix p 0) in Hp. destruct Hp as [c Hc].
    rewrite (@add_known_position tix p c Hc).
    destruct (incr2 (transition_counts st) c a) as [tr'|e] eqn:Et; [|discriminate].
    simpl bind_result. intro H. inversion H; subst st'. clear H.
    unfold tallied. simpl. rewrite app_nil_r.
    split; [exact He'|]. split; [|exact Hin].
    exact (@matrix_tally_incr tix tix _ _ _ _ _ _ _ Htr Hc Ha Et).
  - destruct (incr1 (init_counts st) a) as [in'|e] eqn:Ei; [|discriminate].
    simpl bind_result. intro H. inversion H; subst st'. clear H.
    unfold tallied. simpl. rewrite app_nil_r.
    split; [exact He'|]. split; [exact Htr|].
    exact (@vector_tally_incr tix _ _ _ _ _ Hin Ha Ei).
Qed.

Lemma count_sentence_tallied (sentence : LabeledSentence) :
  forall (st st' : hmm_counts) (prev : option string)
         (emissions transitions : list (string * string)) (initials : list string),
    counts_invariant tix wix st ->
    tallied tix wix st emissions transitions initials ->
    Forall (fun tt : Token * string =>
              In (snd tt) tix /\ In (word_key wc (word (fst tt))) wix) sentence ->
    (forall p, prev = Some p -> In p tix) ->
    count_sentence wc st prev sentence = Ok st' ->
    tallied tix wix st'
      (emissions ++ map event sentence)
      (transitions ++ adjacent (with_prev prev (get_bio_tags sentence)))
      (initials ++ first_of prev (get_bio_tags sentence)).
Proof.
  induction sentence as [|[token tag] rest IH];
    intros st st' prev emissions transitions initials Hinv Htal Hall Hprev H.
  - simpl in H. inversion H; subst st'. simpl.
    replace (adjacent (with_prev prev [])) with (@nil (string * string))
      by (destruct prev; reflexivity).
    replace (first_of prev []) with (@nil string) by (destruct prev; reflexivity).
    rewrite !app_nil_r. exact Htal.
  - inversion Hall as [|? ? [Htag Hkey] Hrest]; subst. simpl in Htag, Hkey.
    destruct (@count_token_ok wc tix wix st prev token tag Hinv Htag Hkey Hprev)
      as [st1 [E1 Hinv1]].
    simpl in H. rewrite E1 in H. simpl in H.
    pose proof (@count_token_tallied st st1 prev token tag _ _ _ Hinv Htal Htag Hkey Hprev E1)
      as Htal1.
    assert (Hprev1 : forall p, Some tag = Some p -> In p tix)
      by (intros p Hp; injection Hp as <-; exact Htag).
    pose proof (IH st1 st' (Some tag) _ _ _ Hinv1 Htal1 Hrest Hprev1 H) as Hfinal.
    simpl in Hfinal. rewrite app_nil_r in Hfinal.
    rewrite <- !app_assoc in Hfinal.
    cbn [map get_bio_tags]. unfold get_bio_tags in *. cbn [map snd].
    destruct prev as [p|]; simpl with_prev; simpl first_of; simpl firstn; exact Hfinal.
Qed.

Lemma count_corpus_tallied (sentences : list LabeledSentence) :
  forall (st st' : hmm_counts)
         (emissions transitions : list (string * string)) (initials : list string),
    counts_invariant tix wix st ->
    tallied tix wix st emissions transitions initials ->
    corpus_indexed wc tix wix sentences ->
    count_corpus sentences wc st = Ok st' ->
    tallied tix wix st'
      (emissions ++ map event (concat sentences))
      (transitions ++ flat_map (fun sentence => adjacent (get_bio_tags sentence)) sentences)
      (initials ++ flat_map (fun sentence => firstn 1 (get_bio_tags sentence)) sentences).
Proof.
  unfold count_corpus.
  induction sentences as [|s sentences IH];
    intros st st' emissions transitions initials Hinv Htal Hall H.
  - simpl in H. inversion H; subst st'. simpl. rewrite !app_nil_r. exact Htal.
  - inversion Hall as [|? ? Hs Hrest]; subst.
    destruct (@count_sentence_ok wc tix wix s st None Hinv Hs) as [st1 [E1 Hinv1]];
      [discriminate|].
    cbn [fold_left bind_result] in H. rewrite E1 in H.
    assert (Hnone : forall p, @None string = Some p -> In p tix) by discriminate.
    pose proof (@count_sentence_tallied s st st1 None _ _ _ Hinv Htal Hs Hnone E1) as Htal1.
    pose proof (IH st1 st' _ _ _ Hinv1 Htal1 Hrest H) as Hfinal.
    cbn [concat flat_map]. rewrite map_app, !app_assoc. exact Hfinal.
Qed.

End TallyFacts.

Lemma log_normalize_get (row : list R) (b : nat) :
  b < length row -> Forall (fun c => (0 < c)%R) row ->
  exp (nth b (log_normalize row) 0%R) = (nth b row 0 / sum_R row)%R.
Proof.
  intros Hb Hpos. unfold log_normalize.
  rewrite (nth_indep _ 0%R (ln (0 / sum_R row))) by (rewrite length_map; exact Hb).
  rewrite (map_nth (fun c => ln (c / sum_R row))).
  apply exp_ln. apply Rdiv_lt_0_compat.
  - rewrite Forall_forall in Hpos. apply Hpos. apply nth_In. exact Hb.
  - apply sum_R_pos; [destruct row; [simpl in Hb; lia|discriminate]|exact Hpos].
Qed.

Lemma log_normalize_row (m : list (list R)) (a : nat) :
  nth a (map log_normalize m) [] = log_normalize (nth a m []).
Proof. apply (map_nth log_normalize m [] a). Qed.

Lemma index_of_position (ix : Indexer.t) (s : string) (a : nat) :
  Indexer.index_of ix s = Z.of_nat a -> Indexer.position ix s 0 = Some a.
Proof.
  unfold Indexer.index_of. destruct (Indexer.position ix s 0) as [i|]; intro H.
  - f_equal. lia.
  - lia.
Qed.

Lemma matrix_entry (rix cix : Indexer.t) (m : list (list R))
    (events : list (string * string)) (r c : string) (a b : nat) :
  matrix_tally rix cix m events ->
  shaped m (Indexer.len rix) (Indexer.len cix) ->
  positive m ->
  Indexer.position rix r 0 = Some a ->
  Indexer.position cix c 0 = Some b ->
  exp (nth b (nth a (map log_normalize m) []) 0%R)
  = ((smoothing + INR (pair_count events r c))
     / (INR (Indexer.len cix) * smoothing + INR (row_count events r)))%R.
Proof.
  intros Htal [Hrows Hcols] Hpos Ha Hb.
  destruct (Htal r a Ha) as [Hsum Hget].
  pose proof (position_bound _ _ _ Ha) as Ha'.
  pose proof (position_bound _ _ _ Hb) as Hb'.
  assert (Hin : In (nth a m []) m) by (apply nth_In; unfold Indexer.len in *; lia).
  rewrite log_normalize_row, log_normalize_get.
  - rewrite Hsum, (Hget c b Hb). reflexivity.
  - rewrite Forall_forall in Hcols. rewrite (Hcols _ Hin). unfold Indexer.len. lia.
  - unfold positive in Hpos. rewrite Forall_forall in Hpos. apply Hpos. exact Hin.
Qed.

(** The key the word counter of [train_hmm_model] gives a word is its key
    by its number of occurrences in the corpus. *)
Lemma word_key_corpus (sentences : list LabeledSentence) (w : string) :
  word_key (count_words sentences) w = corpus_key sentences w.
Proof.
  unfold word_key, corpus_key. rewrite count_words_occurrences.
  destruct (Nat.ltb_spec (2 * occurrences (corpus_words sentences) w) 3),
           (Nat.ltb_spec (occurrences (corpus_words sentences) w) 2);
    try reflexivity; lia.
Qed.

Lemma emission_events_keys (sentences : list LabeledSentence) :
  map (fun tt : Token * string =>
         (snd tt, word_key (count_words sentences) (word (fst tt))))
      (concat sentences)
  = emission_events sentences.
Proof.
  unfold emission_events. apply map_ext. intro tt. rewrite word_key_corpus. reflexivity.
Qed.

(** X21.  The tables [train_hmm_model] returns hold smoothed relative
    frequencies.  With 0.001 added to every count: the initial probability
    of a tag is the number of sentences that begin with it over the number
    of non-empty sentences; the transition probability from a tag to a tag
    is the number of adjacent positions carrying the two tags over the
    number of positions that carry the first tag and have a successor; and
    the emission probability of a word index under a tag is the number of
    tokens with the tag whose word is counted under that index (its own
    for a word that occurs at least twice in the corpus, that of UNK for a
    word that occurs once) over the number of tokens with the tag. *)
Theorem train_hmm_model_relative_frequencies (sentences : list LabeledSentence) :
  exists m,
    train_hmm_model sentences true = Ok m
    /\ let T := INR (Indexer.len (HmmNerModel.tag_indexer m)) in
       let V := INR (Indexer.len (HmmNerModel.word_indexer m)) in
       (forall tag a,
          Indexer.index_of (HmmNerModel.tag_indexer m) tag = Z.of_nat a ->
          exp (nth a (HmmNerModel.init_log_probs m) 0%R)
          = ((smoothing + INR (occurrences (initial_tags sentences) tag))
             / (T * smoothing + INR (length (initial_tags sentences))))%R)
       /\ (forall prev_tag tag a b,
             Indexer.index_of (HmmNerModel.tag_indexer m) prev_tag = Z.of_nat a ->
             Indexer.index_of (HmmNerModel.tag_indexer m) tag = Z.of_nat b ->
             exp (nth b (nth a (HmmNerModel.transition_log_probs m) []) 0%R)
             = ((smoothing + INR (pair_count (transition_events sentences) prev_tag tag))
                / (T * smoothing + INR (row_count (transition_events sentences) prev_tag)))%R)
       /\ (forall tag key a b,
             Indexer.index_of (HmmNerModel.tag_indexer m) tag = Z.of_nat a ->
             Indexer.index_of (HmmNerModel.word_indexer m) key = Z.of_nat b ->
             exp (nth b (nth a (HmmNerModel.emission_log_probs m) []) 0%R)
             = ((smoothing + INR (pair_count (emission_events sentences) tag key))
                / (V * smoothing + INR (row_count (emission_events sentences) tag)))%R).
Proof.
  set (wc := count_words sentences).
  set (tix := fst (index_corpus sentences wc)).
  set (wix := snd (index_corpus sentences wc)).
  destruct (index_corpus_spec sentences wc) as [_ Hall].
  fold tix wix in Hall.
  set (st0 := {| c_tag_indexer := tix; c_word_indexer := wix;
                 init_counts := repeat smoothing (Indexer.len tix);
                 transition_counts :=
                   repeat (repeat smoothing (Indexer.len tix)) (Indexer.len tix);
                 emission_counts :=
                   repeat (repeat smoothing (Indexer.len wix)) (Indexer.len tix) |}).
  assert (Hinv0 : counts_invariant tix wix st0).
  { unfold counts_invariant, st0. simpl.
    destruct (repeat_rows (Indexer.len tix) (Indexer.len tix)) as [H1 H2].
    destruct (repeat_rows (Indexer.len tix) (Indexer.len wix)) as [H3 H4].
    repeat match goal with |- _ /\ _ => split end; auto.
    - constructor; [apply repeat_positive|constructor].
    - apply repeat_length. }
  assert (Htal0 : tallied tix wix st0 [] [] []).
  { unfold tallied, st0. simpl.
    split; [apply matrix_tally_start|]. split; [apply matrix_tally_start|].
    apply vector_tally_start. }
  destruct (count_corpus_ok (wc := wc) Hinv0 Hall) as [st [E Hinv]].
  pose proof (@count_corpus_tallied wc tix wix sentences st0 st [] [] []
                Hinv0 Htal0 Hall E) as Htal.
  simpl app in Htal.
  destruct Hinv as [Ht [Hw [Hpi [Hli [Hpt [Hst [Hpe Hse]]]]]]].
  destruct Htal as [Hte [Htt Hti]].
  pose proof (emission_events_keys sentences) as Hkeys. fold wc in Hkeys.
  rewrite Hkeys in Hte. clear Hkeys.
  exists {| HmmNerModel.tag_indexer := c_tag_indexer st;
            HmmNerModel.word_indexer := c_word_indexer st;
            HmmNerModel.init_log_probs := log_normalize (init_counts st);
            HmmNerModel.transition_log_probs := map log_normalize (transition_counts st);
            HmmNerModel.emission_log_probs := map log_normalize (emission_counts st) |}.
  split.
  { unfold train_hmm_model. fold wc.
    destruct (index_corpus sentences wc) as [tix' wix'] eqn:Eix.
    simpl in tix, wix. subst tix wix. fold st0. rewrite E. reflexivity. }
  simpl. rewrite Ht, Hw. split; [|split].
  - intros tag a Ha. apply index_of_position in Ha.
    destruct Hti as [Hsum Hget].
    rewrite log_normalize_get.
    + rewrite Hsum, (Hget tag a Ha). reflexivity.
    + apply position_bound in Ha. unfold Indexer.len in Hli. lia.
    + exact (Forall_inv Hpi).
  - intros prev_tag tag a b Ha Hb.
    apply index_of_position in Ha. apply index_of_position in Hb.
    exact (@matrix_entry tix tix _ _ prev_tag tag a b Htt Hst Hpt Ha Hb).
  - intros tag key a b Ha Hb.
    apply index_of_position in Ha. apply index_of_position in Hb.
    exact (@matrix_entry tix wix _ _ tag key a b Hte Hse Hpe Ha Hb).
Qed.

(** ** Beam search *)

Lemma beam_add_head {A} (b : Beam.t A) (elt : A) (score : Q) :
  0 < Beam.size b ->
  hd_error (Beam.elts (Beam.add b elt score))
  = Some match Beam.elts b with
         | [] => (elt, score)
         | (e, s) :: _ => if Qltb s score then (elt, score) else (e, s)
         end.
Proof.
  intro Hs. unfold Beam.add. simpl.
  destruct (Beam.size b) as [|n]; [lia|].
  destruct (Beam.elts b) as [|[e s] l]; simpl; [reflexivity|].
  destruct (Qltb s score); reflexivity.
Qed.

Lemma beam_adds_head (f : nat -> Q) (n k : nat) :
  forall (b : Beam.t (list nat)) (best_i : nat) (best : Q),
    0 < Beam.size b ->
    hd_error (Beam.elts b) = Some ([best_i], best) ->
    exists s,
      hd_error (Beam.elts (fold_left (fun b i => Beam.add b [i] (f i)) (seq k n) b))
      = Some ([argmax_from best_i best k (map f (seq k n))], s).
Proof.
  revert k. induction n as [|n IH]; intros k b best_i best Hs Hh.
  - simpl. eauto.
  - cbn [seq fold_left map argmax_from].
    pose proof (beam_add_head b [k] (f k) Hs) as Hadd.
    destruct (Beam.elts b) as [|[e s] l]; [discriminate|].
    simpl in Hh. injection Hh as -> ->.
    destruct (Qltb best (f k)); apply IH; assumption.
Qed.

Lemma beam_search_one_token (T : nat) (init : nat -> Q) (trans emis : nat -> nat -> Q) :
  0 < T ->
  CrfNerModel.beam_search T init trans emis 1 = viterbi T init trans emis 1.
Proof.
  intro HT. destruct T as [|T']; [lia|].
  unfold CrfNerModel.beam_search, viterbi. simpl forward. cbv iota beta.
  simpl fold_left. simpl bind_result. unfold CrfNerModel.current. simpl.
  unfold CrfNerModel.init_beam, first_column.
  set (f := fun i => (init i + emis i 0%nat)%Q).
  change (Beam.head
            (fold_left (fun b i => Beam.add b [i] (f i)) (seq 1 T')
                       (Beam.add (Beam.new CrfNerModel.beam_size) [0] (f 0)))
          = Ok [argmax_from 0 (f 0) 1 (map f (seq 1 T'))]).
  destruct (@beam_adds_head f T' 1
              (Beam.add (Beam.new CrfNerModel.beam_size) [0] (f 0)) 0 (f 0))
    as [s Hh].
  - simpl. unfold CrfNerModel.beam_size. lia.
  - reflexivity.
  - unfold Beam.head.
    destruct (Beam.elts
                (fold_left (fun b i => Beam.add b [i] (f i)) (seq 1 T')
                           (Beam.add (Beam.new CrfNerModel.beam_size) [0] (f 0))))
      as [|[e s'] l]; [discriminate|].
    simpl in Hh. injection Hh as -> _. reflexivity.
Qed.

(** X22.  On a sentence of one token the beam decoder and the Viterbi
    decoder agree: with at least one tag, [decode_beam] returns what
    [decode] returns, the first tag of the highest initial plus emission
    score, or raises as [decode] raises. *)
Theorem decode_beam_agrees_on_one_token (m : CrfNerModel.t) (tk : Token) :
  0 < Indexer.len (CrfNerModel.tag_indexer m) ->
  CrfNerModel.decode_beam m [tk] = CrfNerModel.decode m [tk].
Proof.
  intro HT. unfold CrfNerModel.decode_beam, CrfNerModel.decode.
  destruct (build_feature_cache (CrfNerModel.tag_indexer m) [tk] false
              (CrfNerModel.feature_indexer m)) as [ix' [cache|e]]; [|reflexivity].
  f_equal. unfold CrfNerModel.best_indices. cbv zeta.
  change (length [tk]) with 1. unfold bind_result.
  rewrite beam_search_one_token by exact HT. reflexivity.
Qed.

Lemma decode_beam_agrees_on_one_token_witness :
  CrfNerModel.decode_beam heavy_model [tok "works" "VBZ"]
  = CrfNerModel.decode heavy_model [tok "works" "VBZ"].
Proof.
  apply (@decode_beam_agrees_on_one_token heavy_model (tok "works" "VBZ")).
  simpl. lia.
Defined.

Lemma in_beam_insert {A} (elt : A) (score : Q) (l : list (A * Q)) (x : A * Q) :
  In x (Beam.insert elt score l) -> x = (elt, score) \/ In x l.
Proof.
  induction l as [|[e s] l IH]; simpl.
  - intros [<-|[]]. auto.
  - destruct (Qltb s score); simpl.
    + intros [<-|H]; auto.
    + intros [<-|H]; [auto|]. destruct (IH H); auto.
Qed.

Lemma in_firstn_in {A} (n : nat) (l : list A) (x : A) : In x (firstn n l) -> In x l.
Proof.
  revert l. induction n as [|n IH]; intros l H; [destruct H|].
  destruct l as [|y l]; [destruct H|]. simpl in H.
  destruct H as [<-|H]; [left; reflexivity|right; apply IH; exact H].
Qed.

Lemma beam_adds_forall {A} (P : A -> Prop) (f : nat -> A * Q) (l : list nat)
    (b : Beam.t A) :
  Forall (fun h => P (fst h)) (Beam.elts b) ->
  (forall i, In i l -> P (fst (f i))) ->
  Forall (fun h => P (fst h))
         (Beam.elts (fold_left (fun b i => Beam.add b (fst (f i)) (snd (f i))) l b)).
Proof.
  revert b. induction l as [|i l IH]; intros b Hb Hf; simpl; [exact Hb|].
  apply IH; [|intros j Hj; apply Hf; right; exact Hj].
  unfold Beam.add. simpl. apply Forall_forall. intros x Hx.
  apply in_firstn_in, in_beam_insert in Hx. destruct Hx as [->|Hx].
  - simpl. apply Hf. left. reflexivity.
  - rewrite Forall_forall in Hb. apply Hb. exact Hx.
Qed.

Section BeamFacts.

Variable T : nat.
Variable init : nat -> Q.
Variable trans emis : nat -> nat -> Q.
Hypothesis T_large : CrfNerModel.beam_size <= T.

(** A beam of the decoder whose hypotheses have between 1 and [k] tags. *)
Let ok_beam (k : nat) (b : Beam.t (list nat)) : Prop :=
  Beam.size b = CrfNerModel.beam_size
  /\ length (Beam.elts b) <= CrfNerModel.beam_size
  /\ Forall (fun h => 1 <= length (fst h) <= k) (Beam.elts b).

Lemma ok_beam_weaken (k : nat) (b : Beam.t (list nat)) : ok_beam k b -> ok_beam (S k) b.
Proof.
  intros [H1 [H2 H3]]. split; [exact H1|]. split; [exact H2|].
  eapply Forall_impl; [|exact H3]. simpl. intros h Hh. lia.
Qed.

Lemma extend_pure (tags : list (list nat)) (scores : list Q) (token : nat)
    (nb : Beam.t (list nat)) (i : nat) (tags_i : list nat) (scores_i : Q) :
  nth_error tags i = Some tags_i ->
  nth_error scores i = Some scores_i ->
  CrfNerModel.extend_hypothesis T trans emis tags scores token nb i
  = Ok (fold_left
          (fun b c =>
             Beam.add b
               (fst (tags_i ++ [c],
                     (scores_i + trans (last tags_i 0%nat) c + emis c token)%Q))
               (snd (tags_i ++ [c],
                     (scores_i + trans (last tags_i 0%nat) c + emis c token)%Q)))
          (seq 0 T) nb).
Proof.
  intros Ht Hs. unfold CrfNerModel.extend_hypothesis. rewrite Ht, Hs.
  generalize (seq 0 T). intro l. revert nb.
  induction l as [|c l IH]; intro nb; [reflexivity|].
  cbn [fold_left bind_result]. apply IH.
Qed.

Lemma extend_ok (k : nat) (tags : list (list nat)) (scores : list Q) (token : nat)
    (nb : Beam.t (list nat)) (i : nat) :
  i < length tags -> length scores = length tags ->
  Forall (fun t => 1 <= length t <= k) tags ->
  ok_beam (S k) nb ->
  exists nb',
    CrfNerModel.extend_hypothesis T trans emis tags scores token nb i = Ok nb'
    /\ ok_beam (S k) nb'
    /\ length (Beam.elts nb') = CrfNerModel.beam_size.
Proof.
  intros Hi Hlen Htags [Hsize [Hl Hall]].
  destruct (nth_error tags i) as [tags_i|] eqn:Et.
  2:{ apply nth_error_None in Et. lia. }
  destruct (nth_error scores i) as [scores_i|] eqn:Es.
  2:{ apply nth_error_None in Es. lia. }
  rewrite (@extend_pure tags scores token nb i tags_i scores_i Et Es).
  set (g := fun c => (tags_i ++ [c],
                      (scores_i + trans (last tags_i 0%nat) c + emis c token)%Q)).
  destruct (@length_beam_adds (list nat) g (seq 0 T) nb) as [Hs' Hl']; [lia|].
  exists (fold_left (fun b c => Beam.add b (fst (g c)) (snd (g c))) (seq 0 T) nb).
  split; [reflexivity|].
  rewrite length_seq in Hl'.
  split; [split; [congruence|split]|].
  - rewrite Hl', Hsize. lia.
  - apply (@beam_adds_forall (list nat) (fun h => 1 <= length h <= S k) g).
    + exact Hall.
    + intros c _. simpl. rewrite length_app. simpl.
      rewrite Forall_forall in Htags.
      specialize (Htags tags_i (nth_error_In _ _ Et)). lia.
  - rewrite Hl', Hsize. lia.
Qed.

Lemma expand_ok (k : nat) (st : CrfNerModel.beams) (token : nat) :
  ok_beam k (CrfNerModel.current st) ->
  length (Beam.elts (CrfNerModel.current st)) = CrfNerModel.beam_size ->
  ok_beam k (CrfNerModel.second_beam st) ->
  exists st',
    CrfNerModel.expand T trans emis st token = Ok st'
    /\ ok_beam (S k) (CrfNerModel.current st')
    /\ length (Beam.elts (CrfNerModel.current st')) = CrfNerModel.beam_size
    /\ ok_beam (S k) (CrfNerModel.second_beam st').
Proof.
  intros [_ [_ Hall]] Hfull Hsecond. unfold CrfNerModel.expand.
  unfold Beam.get_elts_and_scores.
  destruct (Beam.elts (CrfNerModel.current st)) as [|h0 rest] eqn:Eelts;
    [simpl in Hfull; unfold CrfNerModel.beam_size in Hfull; lia|].
  rewrite <- Eelts in *. clear Eelts h0 rest.
  set (tags := map fst (Beam.elts (CrfNerModel.current st))).
  set (scores := map snd (Beam.elts (CrfNerModel.current st))).
  assert (Hlt : length tags = CrfNerModel.beam_size)
    by (unfold tags; rewrite length_map; exact Hfull).
  assert (Hls : length scores = length tags)
    by (unfold tags, scores; rewrite !length_map; reflexivity).
  assert (Htags : Forall (fun t => 1 <= length t <= k) tags)
    by (unfold tags; apply Forall_map; exact Hall).
  assert (Hloop : forall l nb,
            (forall i, In i l -> i < CrfNerModel.beam_size) ->
            ok_beam (S k) nb ->
            exists nb',
              fold_left (fun acc i =>
                           bind_result acc (fun next_beam =>
                           CrfNerModel.extend_hypothesis T trans emis tags scores token
                             next_beam i))
                        l (Ok nb) = Ok nb'
              /\ ok_beam (S k) nb'
              /\ (l <> [] -> length (Beam.elts nb') = CrfNerModel.beam_size)).
  { induction l as [|i l IH]; intros nb Hl Hnb.
    - exists nb. split; [reflexivity|]. split; [exact Hnb|congruence].
    - destruct (@extend_ok k tags scores token nb i) as [nb1 [E1 [Hok1 Hfull1]]];
        [rewrite Hlt; apply Hl; left; reflexivity|exact Hls|exact Htags|exact Hnb|].
      cbn [fold_left bind_result]. rewrite E1.
      destruct (IH nb1) as [nb' [E' [Hok' Hfull']]];
        [intros j Hj; apply Hl; right; exact Hj|exact Hok1|].
      exists nb'. split; [exact E'|]. split; [exact Hok'|]. intros _.
      destruct l as [|j l']; [|apply Hfull'; discriminate].
      simpl in E'. inversion E'; subst nb'. exact Hfull1. }
  destruct (Hloop (seq 0 CrfNerModel.beam_size) (CrfNerModel.second_beam st))
    as [nb' [E' [Hok' Hfull']]].
  - intros i Hi. apply in_seq in Hi. lia.
  - apply ok_beam_weaken. exact Hsecond.
  - fold tags scores. rewrite E'. simpl bind_result.
    eexists. split; [reflexivity|]. unfold CrfNerModel.current. simpl.
    split; [exact Hok'|]. split; [|exact Hok'].
    apply Hfull'. discriminate.
Qed.

Lemma init_beam_ok :
  ok_beam 1 (CrfNerModel.init_beam T init emis)
  /\ length (Beam.elts (CrfNerModel.init_beam T init emis)) = CrfNerModel.beam_size.
Proof.
  pose proof (length_init_beam T init emis) as Hl.
  assert (Hfull : length (Beam.elts (CrfNerModel.init_beam T init emis))
                  = CrfNerModel.beam_size) by lia.
  split; [|exact Hfull]. split; [|split].
  - unfold CrfNerModel.init_beam.
    destruct (@length_beam_adds (list nat)
                (fun i => ([i], (init i + emis i 0%nat)%Q)) (seq 0 T)
                (Beam.new CrfNerModel.beam_size)) as [Hs _]; [simpl; lia|].
    exact Hs.
  - lia.
  - unfold CrfNerModel.init_beam.
    apply (@beam_adds_forall (list nat) (fun h => 1 <= length h <= 1)
             (fun i => ([i], (init i + emis i 0%nat)%Q))).
    + constructor.
    + intros i _. simpl. lia.
Qed.

Lemma beam_search_ok (N : nat) :
  1 <= N ->
  exists h, CrfNerModel.beam_search T init trans emis N = Ok h /\ 1 <= length h <= N.
Proof.
  intro HN. unfold CrfNerModel.beam_search.
  destruct N as [|n]; [lia|]. simpl Nat.sub. rewrite Nat.sub_0_r.
  assert (Hloop : forall l k st,
            ok_beam k (CrfNerModel.current st) ->
            length (Beam.elts (CrfNerModel.current st)) = CrfNerModel.beam_size ->
            ok_beam k (CrfNerModel.second_beam st) ->
            exists st',
              fold_left (fun acc token =>
                           bind_result acc (fun st =>
                           CrfNerModel.expand T trans emis st token))
                        l (Ok st) = Ok st'
              /\ ok_beam (k + length l) (CrfNerModel.current st')
              /\ length (Beam.elts (CrfNerModel.current st')) = CrfNerModel.beam_size).
  { induction l as [|token l IH]; intros k st Hc Hfull Hs.
    - exists st. split; [reflexivity|]. rewrite Nat.add_0_r. auto.
    - destruct (@expand_ok k st token Hc Hfull Hs) as [st1 [E1 [Hc1 [Hfull1 Hs1]]]].
      cbn [fold_left bind_result]. rewrite E1.
      destruct (IH (S k) st1 Hc1 Hfull1 Hs1) as [st' [E' [Hc' Hfull']]].
      exists st'. split; [exact E'|].
      replace (k + length (token :: l)) with (S k + length l) by (simpl; lia).
      auto. }
  destruct init_beam_ok as [Hinit Hfull].
  destruct (Hloop (seq 1 n) 1
              {| CrfNerModel.first_beam := CrfNerModel.init_beam T init emis;
                 CrfNerModel.second_beam := Beam.new CrfNerModel.beam_size;
                 CrfNerModel.current_beam := CrfNerModel.FirstBeam |})
    as [st' [E' [[_ [_ Hall]] Hfull']]].
  - exact Hinit.
  - exact Hfull.
  - split; [reflexivity|]. split; [simpl; lia|constructor].
  - assert (Hsearch :
              bind_result
                (fold_left (fun acc token =>
                              bind_result acc (fun st =>
                              CrfNerModel.expand T trans emis st token))
                           (seq 1 n)
                           (Ok {| CrfNerModel.first_beam := CrfNerModel.init_beam T init emis;
                                  CrfNerModel.second_beam := Beam.new CrfNerModel.beam_size;
                                  CrfNerModel.current_beam := CrfNerModel.FirstBeam |}))
                (fun st => Beam.head (CrfNerModel.current st))
              = Beam.head (CrfNerModel.current st'))
      by (rewrite E'; reflexivity).
    rewrite length_seq in Hall.
    unfold Beam.head in *.
    destruct (Beam.elts (CrfNerModel.current st')) as [|[h s] rest];
      [simpl in Hfull'; unfold CrfNerModel.beam_size in Hfull'; lia|].
    exists h. split.
    + destruct T as [|T']; [unfold CrfNerModel.beam_size in T_large; lia|].
      exact Hsearch.
    + pose proof (Forall_inv Hall) as Hh. simpl in Hh. lia.
Qed.

End BeamFacts.

(** X23.  With nine tags or more, [decode_beam] returns on every non-empty
    sentence without an empty word: the beam is full after the
    initialization and every expansion finds the nine hypotheses it reads.
    The tags returned are at least one and at most one per token, and the
    model is left as it was. *)
Theorem decode_beam_returns_with_nine_tags
    (m : CrfNerModel.t) (sentence_tokens : list Token) :
  sentence_tokens <> [] ->
  nonempty_words sentence_tokens = true ->
  CrfNerModel.beam_size <= Indexer.len (CrfNerModel.tag_indexer m) ->
  exists tags,
    CrfNerModel.decode_beam m sentence_tokens = (m, Ok tags)
    /\ 1 <= length tags <= length sentence_tokens.
Proof.
  intros Hne Hw HT. unfold CrfNerModel.decode_beam.
  destruct (returns_build_feature_cache (CrfNerModel.tag_indexer m) sentence_tokens Hw
              (CrfNerModel.feature_indexer m)) as [cache [-> _]].
  rewrite with_feature_indexer_same. simpl bind_result. cbv zeta.
  destruct (@beam_search_ok (Indexer.len (CrfNerModel.tag_indexer m))
              (FeatureBasedSequenceScorer.score_init (CrfNerModel.scorer m cache))
              (FeatureBasedSequenceScorer.score_transition (CrfNerModel.scorer m cache))
              (FeatureBasedSequenceScorer.score_emission (CrfNerModel.scorer m cache))
              HT (length sentence_tokens)) as [h [E Hh]].
  { destruct sentence_tokens; [congruence|simpl; lia]. }
  rewrite E. simpl bind_result.
  eexists. split; [reflexivity|].
  unfold CrfNerModel.pred_tags. rewrite length_map. exact Hh.
Qed.

Lemma decode_beam_returns_with_nine_tags_witness :
  exists tags,
    CrfNerModel.decode_beam nine_tag_model three_words = (nine_tag_model, Ok tags)
    /\ 1 <= length tags <= length three_words.
Proof.
  apply (@decode_beam_returns_with_nine_tags nine_tag_model three_words).
  - discriminate.
  - reflexivity.
  - unfold CrfNerModel.beam_size. simpl. lia.
Defined.

(** X24.  The initial table [train_hmm_model] returns has one entry per
    tag; when the corpus has a token its entries are the logarithms of
    positive probabilities that sum to 1; and a corpus without tokens gives
    a model without tags, whose initial table is empty. *)
Theorem train_hmm_model_initial_distribution (sentences : list LabeledSentence) :
  exists m,
    train_hmm_model sentences true = Ok m
    /\ length (HmmNerModel.init_log_probs m) = Indexer.len (HmmNerModel.tag_indexer m)
    /\ (corpus_tags sentences <> [] -> distribution_row (HmmNerModel.init_log_probs m))
    /\ (corpus_tags sentences = [] ->
        HmmNerModel.tag_indexer m = [] /\ HmmNerModel.init_log_probs m = []).
Proof.
  destruct (train_hmm_model_counts sentences) as [st [Hinv [_ Htrain]]].
  destruct Hinv as [Ht [_ [Hpi [Hli _]]]].
  eexists. split; [rewrite Htrain; reflexivity|]. simpl.
  rewrite Ht in *. rewrite index_corpus_indexers in *. simpl fst in *.
  split; [unfold log_normalize; rewrite length_map; exact Hli|].
  split.
  - intro Hne. apply log_normalize_distribution; [|exact (Forall_inv Hpi)].
    intro Hnil. rewrite Hnil in Hli. simpl in Hli.
    destruct (corpus_tags sentences) as [|tag tags] eqn:E; [congruence|].
    pose proof (add_all_in (tag :: tags) Indexer.empty) as Hin.
    apply Forall_inv in Hin. unfold Indexer.len in Hli.
    destruct (add_all Indexer.empty (tag :: tags)); [destruct Hin|simpl in Hli; lia].
  - intro Hnil. rewrite Hnil in *. simpl in *. split; [reflexivity|].
    destruct (init_counts st); [reflexivity|simpl in Hli; lia].
Qed.

(** ** The window of feature extraction *)

Lemma active_window (tokens1 tokens2 : list Token) (word_index : nat) (idx_offset : Z)
    (field : Token -> string) (before after : string) :
  (forall k, word_index - 1 <= k <= word_index + 1 ->
             nth_error tokens1 k = nth_error tokens2 k) ->
  (-1 <= idx_offset <= 1)%Z ->
  active tokens1 word_index idx_offset field before after
  = active tokens2 word_index idx_offset field before after.
Proof.
  intros H Hoff. unfold active. cbv zeta.
  destruct (Z.of_nat word_index + idx_offset <? 0)%Z eqn:Eneg; [reflexivity|].
  apply Z.ltb_ge in Eneg.
  assert (Hk : nth_error tokens1 (Z.to_nat (Z.of_nat word_index + idx_offset))
               = nth_error tokens2 (Z.to_nat (Z.of_nat word_index + idx_offset)))
    by (apply H; lia).
  destruct (nth_error tokens2 (Z.to_nat (Z.of_nat word_index + idx_offset)))
    as [tk|] eqn:E2.
  - assert (H1 : Z.to_nat (Z.of_nat word_index + idx_offset) < length tokens1)
      by (apply nth_error_Some; congruence).
    assert (H2 : Z.to_nat (Z.of_nat word_index + idx_offset) < length tokens2)
      by (apply nth_error_Some; congruence).
    replace (Z.of_nat (length tokens1) <=? Z.of_nat word_index + idx_offset)%Z with false
      by (symmetry; apply Z.leb_gt; lia).
    replace (Z.of_nat (length tokens2) <=? Z.of_nat word_index + idx_offset)%Z with false
      by (symmetry; apply Z.leb_gt; lia).
    rewrite Hk. reflexivity.
  - rewrite Hk.
    destruct (Z.of_nat (length tokens1) <=? Z.of_nat word_index + idx_offset)%Z;
      destruct (Z.of_nat (length tokens2) <=? Z.of_nat word_index + idx_offset)%Z;
      reflexivity.
Qed.

Lemma feature_strings_window (tokens1 tokens2 : list Token) (word_index : nat)
    (tag : string) :
  (forall k, word_index - 1 <= k <= word_index + 1 ->
             nth_error tokens1 k = nth_error tokens2 k) ->
  feature_strings tokens1 word_index tag = feature_strings tokens2 word_index tag.
Proof.
  intro H. unfold feature_strings. rewrite (H word_index) by lia.
  destruct (nth_error tokens2 word_index) as [tk|]; [|reflexivity].
  cbv zeta. cbn [flat_map app].
  rewrite !(@active_window tokens1 tokens2 word_index (-1) _ _ _ H) by lia.
  rewrite !(@active_window tokens1 tokens2 word_index 0 _ _ _ H) by lia.
  rewrite !(@active_window tokens1 tokens2 word_index 1 _ _ _ H) by lia.
  reflexivity.
Qed.

(** X25.  [extract_emission_features] reads a window of three tokens: two
    sentences that hold the same tokens (or both end, or both begin) at the
    positions before, at and after the word give the same features for the
    word, and the same indexer, in either mode. *)
Theorem extract_reads_a_window
    (tokens1 tokens2 : list Token) (word_index : nat) (tag : string) (b : bool)
    (ix : Indexer.t) :
  (forall k, word_index - 1 <= k <= word_index + 1 ->
             nth_error tokens1 k = nth_error tokens2 k) ->
  extract_emission_features tokens1 word_index tag b ix
  = extract_emission_features tokens2 word_index tag b ix.
Proof.
  intro H. rewrite !extract_as_features.
  rewrite (@feature_strings_window tokens1 tokens2 word_index tag H), (H word_index) by lia.
  reflexivity.
Qed.

Lemma extract_reads_a_window_witness :
  extract_emission_features (two_words ++ [tok "here" "RB"]) 0 "O" true []
  = extract_emission_features (two_words ++ [tok "there" "RB"; tok "." "."]) 0 "O" true [].
Proof.
  apply (@extract_reads_a_window (two_words ++ [tok "here" "RB"])
           (two_words ++ [tok "there" "RB"; tok "." "."]) 0 "O" true []).
  intros k Hk. simpl in Hk.
  destruct k as [|[|k]]; [reflexivity|reflexivity|lia].
Defined.
